(** * PRODGIO site script ([src/js/app.js]): a shallow embedding

    The script is a set of independent UI modules.  Each JavaScript class is
    embedded as a Rocq module of the same name holding its state record and
    its methods as pure state transformers; host facilities the script only
    calls (JSON, localStorage, the timer queue, Math.random) are explicit
    inputs of the model.

    Conventions.
    - A JavaScript string is the list of its UTF-16 code units ([jsstring]).
    - JavaScript numbers that hold indices, counts and lengths are [Z] or
      [nat]; numbers that hold coordinates, speeds and times are the
      rationals [Q] they stand for, and their arithmetic rounds each result
      to binary64 ([Binary64]).
    - [undefined]/[null] results are [None]. *)

From Stdlib Require Import ZArith NArith QArith Qround Qminmax Qabs Qpower Lqa List
  Sorted String Ascii DecimalString Bool Lia.
From stdpp Require Import gmap.
Import ListNotations.

Local Open Scope N_scope.

(** ** JavaScript strings and the library functions the script calls *)

Module JS.

Definition jsstring := list N.

(** Code unit of an ASCII character. *)
Definition chr (a : ascii) : N := N_of_ascii a.

Definition bytes_of (s : string) : list N := map N_of_ascii (list_ascii_of_string s).

(** The source file is UTF-8; [utf8_decode] turns the bytes of a literal
    into UTF-16 code units (a 4-byte sequence becomes a surrogate pair). *)
Fixpoint utf8_decode (bs : list N) : jsstring :=
  match bs with
  | [] => []
  | b :: r =>
      if b <? 128 then b :: utf8_decode r
      else if b <? 224 then
        match r with
        | c1 :: r1 => ((b - 192) * 64 + (c1 - 128)) :: utf8_decode r1
        | [] => []
        end
      else if b <? 240 then
        match r with
        | c1 :: c2 :: r2 =>
            ((b - 224) * 4096 + (c1 - 128) * 64 + (c2 - 128)) :: utf8_decode r2
        | _ => []
        end
      else
        match r with
        | c1 :: c2 :: c3 :: r3 =>
            let cp := (b - 240) * 262144 + (c1 - 128) * 4096
                      + (c2 - 128) * 64 + (c3 - 128) in
            let v := cp - 65536 in
            (55296 + v / 1024) :: (56320 + v mod 1024) :: utf8_decode r3
        | _ => []
        end
  end.

(** A string literal of the script. *)
Definition js (s : string) : jsstring := utf8_decode (bytes_of s).

Definition LF : N := 10.

(** [a === b] on strings. *)
Fixpoint streq (a b : jsstring) : bool :=
  match a, b with
  | [], [] => true
  | c :: a', d :: b' => (c =? d) && streq a' b'
  | _, _ => false
  end.

(** Truthiness of a string value: only the empty string is falsy. *)
Definition truthy (s : jsstring) : bool :=
  match s with [] => false | _ => true end.

(** [s.split(sep)] for a separator of one code unit (the script splits on
    [","], ["|"] and [":"] only).  The result is never empty:
    ["".split(",")] is [[""]]. *)
Fixpoint split (sep : N) (s : jsstring) : list jsstring :=
  match s with
  | [] => [[]]
  | c :: s' =>
      if c =? sep then [] :: split sep s'
      else match split sep s' with
           | h :: t => (c :: h) :: t
           | [] => [[c]]
           end
  end.

(** [arr.includes(x)] on an array of strings. *)
Definition includes (arr : list jsstring) (x : jsstring) : bool :=
  existsb (streq x) arr.

(** WhiteSpace and LineTerminator code units: what [trim] strips and what
    the regular-expression class [\s] matches. *)
Definition is_whitespace (c : N) : bool :=
  ((9 <=? c) && (c <=? 13)) || (c =? 32) || (c =? 160) || (c =? 5760)
  || ((8192 <=? c) && (c <=? 8202)) || (c =? 8232) || (c =? 8233)
  || (c =? 8239) || (c =? 8287) || (c =? 12288) || (c =? 65279).

Fixpoint trimStart (s : jsstring) : jsstring :=
  match s with
  | c :: s' => if is_whitespace c then trimStart s' else s
  | [] => []
  end.

Definition trimEnd (s : jsstring) : jsstring := rev (trimStart (rev s)).

Definition trim (s : jsstring) : jsstring := trimEnd (trimStart s).

Definition is_digit (c : N) : bool := (48 <=? c) && (c <=? 57).

(** Value of a digit in the given radix, [None] when [c] is not one. *)
Definition digit_value (radix : N) (c : N) : option N :=
  let v :=
    if is_digit c then Some (c - 48)
    else if (97 <=? c) && (c <=? 122) then Some (c - 97 + 10)
    else if (65 <=? c) && (c <=? 90) then Some (c - 65 + 10)
    else None in
  match v with
  | Some d => if d <? radix then Some d else None
  | None => None
  end.

(** Longest prefix of digits, most significant first. *)
Fixpoint take_digits (radix : N) (s : jsstring) : list N :=
  match s with
  | c :: s' =>
      match digit_value radix c with
      | Some d => d :: take_digits radix s'
      | None => []
      end
  | [] => []
  end.

(** [parseInt(x)] with no radix argument; [None] is NaN.  The argument is
    [None] when it is [undefined] (whose string form holds no digit). *)
Definition parseInt (x : option jsstring) : option Z :=
  match x with
  | None => None
  | Some s =>
      let s1 := trimStart s in
      let '(sign, s2) :=
        match s1 with
        | c :: r => if c =? chr "-" then ((-1)%Z, r)
                    else if c =? chr "+" then (1%Z, r) else (1%Z, s1)
        | [] => (1%Z, s1)
        end in
      let '(radix, s3) :=
        match s2 with
        | c0 :: c1 :: r =>
            if (c0 =? chr "0") && ((c1 =? chr "x") || (c1 =? chr "X"))
            then (16, r) else (10, s2)
        | _ => (10, s2)
        end in
      match take_digits radix s3 with
      | [] => None
      | ds =>
          let magnitude := fold_left (fun acc d => acc * radix + d) ds 0 in
          Some (Z.mul sign (Z.of_N magnitude))
      end
  end.

(** *** Regular expressions

    The two patterns of the script are anchored at both ends and use no
    capture, so [test] is membership of the whole string in a regular
    language; it is decided with derivatives. *)
Inductive regex : Type :=
| Never
| Eps
| Class (p : N -> bool)
| Seq (r1 r2 : regex)
| Alt (r1 r2 : regex)
| Star (r : regex).

Fixpoint nullable (r : regex) : bool :=
  match r with
  | Never => false
  | Eps => true
  | Class _ => false
  | Seq r1 r2 => nullable r1 && nullable r2
  | Alt r1 r2 => nullable r1 || nullable r2
  | Star _ => true
  end.

Fixpoint deriv (c : N) (r : regex) : regex :=
  match r with
  | Never => Never
  | Eps => Never
  | Class p => if p c then Eps else Never
  | Seq r1 r2 =>
      if nullable r1 then Alt (Seq (deriv c r1) r2) (deriv c r2)
      else Seq (deriv c r1) r2
  | Alt r1 r2 => Alt (deriv c r1) (deriv c r2)
  | Star r1 => Seq (deriv c r1) (Star r1)
  end.

(** [/^r$/.test(s)] *)
Fixpoint test (r : regex) (s : jsstring) : bool :=
  match s with
  | [] => nullable r
  | c :: s' => test (deriv c r) s'
  end.

Definition Lit (a : ascii) : regex := Class (N.eqb (chr a)).
Definition Plus (r : regex) : regex := Seq r (Star r).
Definition Opt (r : regex) : regex := Alt Eps r.

(** [r{0,n}] *)
Fixpoint UpTo (n : nat) (r : regex) : regex :=
  match n with
  | O => Eps
  | S n' => Opt (Seq r (UpTo n' r))
  end.

(** [s.replace(/\s/g, '')] *)
Definition remove_whitespace (s : jsstring) : jsstring :=
  List.filter (fun c => negb (is_whitespace c)) s.

(** *** encodeURIComponent *)

Definition hex_digit (d : N) : N :=
  if d <? 10 then 48 + d else 65 + (d - 10).

(** ["%XX"] for one byte. *)
Definition percent (b : N) : jsstring :=
  [chr "%"; hex_digit (b / 16); hex_digit (b mod 16)].

Definition utf8_encode (cp : N) : list N :=
  if cp <? 128 then [cp]
  else if cp <? 2048 then [192 + cp / 64; 128 + cp mod 64]
  else if cp <? 65536 then
    [224 + cp / 4096; 128 + (cp / 64) mod 64; 128 + cp mod 64]
  else
    [240 + cp / 262144; 128 + (cp / 4096) mod 64;
     128 + (cp / 64) mod 64; 128 + cp mod 64].

Definition is_alpha (c : N) : bool :=
  ((65 <=? c) && (c <=? 90)) || ((97 <=? c) && (c <=? 122)).

(** The characters [encodeURIComponent] leaves alone:
    letters, digits and [- _ . ! ~ * ' ( )]. *)
Definition uri_unreserved (c : N) : bool :=
  is_alpha c || is_digit c
  || existsb (N.eqb c)
       [chr "-"; chr "_"; chr "."; chr "!"; chr "~"; chr "*"; 39; chr "("; chr ")"].

Definition is_high_surrogate (c : N) : bool := (55296 <=? c) && (c <=? 56319).
Definition is_low_surrogate (c : N) : bool := (56320 <=? c) && (c <=? 57343).

(** [encodeURIComponent(s)]; [None] is the URIError thrown on a lone
    surrogate. *)
Fixpoint encodeURIComponent (s : jsstring) : option jsstring :=
  match s with
  | [] => Some []
  | c :: s' =>
      if uri_unreserved c then option_map (cons c) (encodeURIComponent s')
      else if is_low_surrogate c then None
      else if is_high_surrogate c then
        match s' with
        | d :: s'' =>
            if is_low_surrogate d then
              let cp := (c - 55296) * 1024 + (d - 56320) + 65536 in
              option_map (app (concat (map percent (utf8_encode cp))))
                         (encodeURIComponent s'')
            else None
        | [] => None
        end
      else option_map (app (concat (map percent (utf8_encode c))))
                      (encodeURIComponent s')
  end.

(** *** What a pattern matches

    The strings a pattern matches as a whole, by the pattern's structure;
    [test] is checked against this reading below. *)
Inductive matches : regex -> jsstring -> Prop :=
| matches_eps : matches Eps []
| matches_class (p : N -> bool) (c : N) :
    p c = true -> matches (Class p) [c]
| matches_seq (r1 r2 : regex) (s1 s2 : jsstring) :
    matches r1 s1 -> matches r2 s2 -> matches (Seq r1 r2) (s1 ++ s2)
| matches_alt_l (r1 r2 : regex) (s : jsstring) :
    matches r1 s -> matches (Alt r1 r2) s
| matches_alt_r (r1 r2 : regex) (s : jsstring) :
    matches r2 s -> matches (Alt r1 r2) s
| matches_star_nil (r : regex) : matches (Star r) []
| matches_star_app (r : regex) (s1 s2 : jsstring) :
    matches r s1 -> matches (Star r) s2 -> matches (Star r) (s1 ++ s2).

(** Every code unit of [s] satisfies [p]. *)
Definition all (p : N -> bool) (s : jsstring) : Prop :=
  Forall (fun c => p c = true) s.

(** [arr.join(sep)] for a separator of one code unit. *)
Fixpoint join (sep : N) (arr : list jsstring) : jsstring :=
  match arr with
  | [] => []
  | [s] => s
  | s :: rest => s ++ sep :: join sep rest
  end.

(** A UTF-16 code unit. *)
Definition code_unit (c : N) : bool := c <? 65536.

(** A code unit that is not half of a surrogate pair. *)
Definition not_surrogate (c : N) : bool :=
  code_unit c && negb (is_high_surrogate c || is_low_surrogate c).

(** What a percent-encoded text is made of: the characters
    [encodeURIComponent] leaves alone, and [%]. *)
Definition uri_safe (c : N) : bool := uri_unreserved c || (c =? chr "%").

(** *** Scalar value strings and plain objects *)

(** The conversion to a scalar value string, which [FormData] applies
    to the names and the string values of its entries: a surrogate without
    its partner is replaced by U+FFFD. *)
Fixpoint toUSVString (s : jsstring) : jsstring :=
  match s with
  | [] => []
  | c :: s' =>
      if is_high_surrogate c then
        match s' with
        | d :: s'' =>
            if is_low_surrogate d then c :: d :: toUSVString s''
            else 65533 :: toUSVString s'
        | [] => [65533]
        end
      else if is_low_surrogate c then 65533 :: toUSVString s'
      else c :: toUSVString s'
  end.

(** Every surrogate of the string has its partner. *)
Fixpoint well_formed (s : jsstring) : bool :=
  match s with
  | [] => true
  | c :: s' =>
      if is_high_surrogate c then
        match s' with
        | d :: s'' => is_low_surrogate d && well_formed s''
        | [] => false
        end
      else negb (is_low_surrogate c) && well_formed s'
  end.

(** A plain object with string values: its properties in the order of
    their creation. *)
Definition object := list (jsstring * jsstring).

(** [CreateDataProperty(obj, key, value)]: a property that exists keeps
    its place and takes the new value, a new one comes last. *)
Fixpoint define (key value : jsstring) (obj : object) : object :=
  match obj with
  | [] => [(key, value)]
  | (k, v) :: rest =>
      if streq k key then (k, value) :: rest else (k, v) :: define key value rest
  end.

(** [Object.fromEntries(entries)] *)
Definition Object_fromEntries (entries : list (jsstring * jsstring)) : object :=
  fold_left (fun obj entry => define (fst entry) (snd entry) obj) entries [].

(** The number a string of decimal digits writes. *)
Definition decimal (s : jsstring) : N :=
  fold_left (fun n c => 10 * n + (c - 48)) s 0.

(** The array index a property key is, if it is one: the canonical
    decimal form of an integer below [2 ^ 32 - 1]. *)
Definition array_index (key : jsstring) : option N :=
  match key with
  | [] => None
  | c :: rest =>
      if forallb is_digit key
         && (negb (c =? 48) || match rest with [] => true | _ => false end)
         && (decimal key <? 4294967295)
      then Some (decimal key)
      else None
  end.

(** Insertion by ascending array index. *)
Fixpoint insert_by_index (n : N) (entry : jsstring * jsstring)
    (sorted : list (N * (jsstring * jsstring))) : list (N * (jsstring * jsstring)) :=
  match sorted with
  | [] => [(n, entry)]
  | (m, e) :: rest =>
      if n <? m then (n, entry) :: sorted else (m, e) :: insert_by_index n entry rest
  end.

(** [Object.entries(obj)]: the array indices in ascending order, then
    the other keys in the order of their creation. *)
Definition Object_entries (obj : object) : list (jsstring * jsstring) :=
  map snd
    (fold_left (fun sorted entry =>
                  match array_index (fst entry) with
                  | Some n => insert_by_index n entry sorted
                  | None => sorted
                  end) obj [])
  ++ List.filter (fun entry => match array_index (fst entry) with
                               | Some _ => false
                               | None => true
                               end) obj.

End JS.


(** ** Numbers

    A finite JavaScript number is the rational it stands for, and an
    arithmetic operation is the exact operation followed by the rounding
    of IEEE 754 binary64: to the nearest representable number, ties to
    the one with an even significand, with gradual underflow.  The two
    zeros are one number here, and there is no overflow: binary64's
    largest finite number is below [2 ^ 1024] and the numbers of the
    script stay far below it. *)

Module Binary64.

Local Open Scope Q_scope.

Definition pow2 (e : Z) : Q := 2 ^ e.

(** The nearest integer, the even one of two that are equally near. *)
Definition rne (q : Q) : Z :=
  let f := Qfloor q in
  match Qcompare (q - inject_Z f) (1 # 2) with
  | Lt => f
  | Gt => (f + 1)%Z
  | Eq => if Z.even f then f else (f + 1)%Z
  end.

(** [floor (log2 q)] for a positive [q]. *)
Definition ilog2 (q : Q) : Z :=
  let c := (Z.log2 (Qnum q) - Z.log2 (Zpos (Qden q)))%Z in
  if Qle_bool (pow2 c) q then c else (c - 1)%Z.

(** The exponent of the unit in the last place at [q]: 53 significant
    bits, and never below the unit of the subnormal numbers. *)
Definition exponent (q : Q) : Z := Z.max (-1074) (ilog2 (Qabs q) - 52).

(** The nearest multiple of [2 ^ e]. *)
Definition round_at (e : Z) (q : Q) : Q := inject_Z (rne (q / pow2 e)) * pow2 e.

(** The binary64 number nearest to [q]. *)
Definition round64 (q : Q) : Q :=
  if Qeq_bool q 0 then 0 else round_at (exponent q) q.

(** [q] is a binary64 number. *)
Definition binary64 (q : Q) : Prop := round64 q == q.

(** [a + b], [a - b], [a * b] and [a / b] on numbers. *)
Definition fadd (a b : Q) : Q := round64 (a + b).
Definition fsub (a b : Q) : Q := round64 (a - b).
Definition fmul (a b : Q) : Q := round64 (a * b).
Definition fdiv (a b : Q) : Q := round64 (a / b).

End Binary64.

(** ** HeroEffects: the particle pool and the counter animation *)

Module HeroEffects.

Import Binary64.
Local Open Scope Q_scope.

(** [a < b] on numbers. *)
Definition ltb (a b : Q) : bool := negb (Qle_bool b a).

Record Particle := mkParticle {
  x : Q;
  y : Q;
  size : Q;
  speedX : Q;
  speedY : Q;
  opacity : Q
}.

(** The two canvas attributes the animation reads. *)
Record Canvas := mkCanvas {
  width : Q;
  height : Q
}.

(** [particleCount]: fewer particles on a small viewport. *)
Definition particleCount (isMobile : bool) : nat :=
  if isMobile then 30%nat else 50%nat.

(** The object literal pushed by [createParticles] for the [i]-th particle.
    [random n] is the value of the [n]-th call of [Math.random()]; the
    literal's properties are evaluated in source order, six calls each.
    The literal [0.2] is the binary64 number nearest to 1/5. *)
Definition createParticle (canvas : Canvas) (random : nat -> Q) (i : nat) : Particle :=
  let r := fun k => random (6 * i + k)%nat in
  {| x := fmul (r 0%nat) (width canvas);
     y := fmul (r 1%nat) (height canvas);
     size := fadd (fmul (r 2%nat) 3) 1;
     speedX := fmul (fsub (r 3%nat) (1 # 2)) (1 # 2);
     speedY := fmul (fsub (r 4%nat) (1 # 2)) (1 # 2);
     opacity := fadd (fmul (r 5%nat) (1 # 2)) (round64 (1 # 5)) |}.

Definition createParticles (canvas : Canvas) (isMobile : bool) (random : nat -> Q)
  : list Particle :=
  map (createParticle canvas random) (seq 0 (particleCount isMobile)).

(** Body of the [forEach] in [updateParticles]. *)
Definition updateParticle (canvas : Canvas) (particle : Particle) : Particle :=
  let x1 := fadd (x particle) (speedX particle) in
  let y1 := fadd (y particle) (speedY particle) in
  let sx := if ltb x1 0 || ltb (width canvas) x1
            then fmul (speedX particle) (-1) else speedX particle in
  let sy := if ltb y1 0 || ltb (height canvas) y1
            then fmul (speedY particle) (-1) else speedY particle in
  {| x := x1; y := y1; size := size particle;
     speedX := sx; speedY := sy; opacity := opacity particle |}.

Definition updateParticles (canvas : Canvas) (particleArray : list Particle)
  : list Particle :=
  map (updateParticle canvas) particleArray.

(** [n] consecutive calls of [updateParticles]. *)
Fixpoint updates (n : nat) (canvas : Canvas) (particleArray : list Particle)
  : list Particle :=
  match n with
  | O => particleArray
  | S n' => updates n' canvas (updateParticles canvas particleArray)
  end.

(** The position is on the canvas: [0 <= x <= width] and [0 <= y <= height]. *)
Definition on_canvas (canvas : Canvas) (p : Particle) : Prop :=
  0 <= x p <= width canvas /\ 0 <= y p <= height canvas.

(** The speeds of the particle are binary64 numbers. *)
Definition binary64_speeds (p : Particle) : Prop :=
  binary64 (speedX p) /\ binary64 (speedY p).

(** One axis of a particle that started with speed [speed0]: the speed
    has kept its magnitude, the coordinate is off the range [0, limit] by
    at most that magnitude (above, by the rounded sum), and a coordinate
    off the range moves back. *)
Definition axis_inv (limit speed0 pos speed : Q) : Prop :=
  Qabs speed == Qabs speed0
  /\ - Qabs speed0 <= pos <= fadd limit (Qabs speed0)
  /\ (pos < 0 -> 0 < speed)
  /\ (limit < pos -> speed < 0).

(** [p] is the particle [p0] some updates later: each coordinate is within
    one step of [p0]'s speed of the canvas, and the particle looks the
    same. *)
Definition within_one_step (canvas : Canvas) (p0 p : Particle) : Prop :=
  axis_inv (width canvas) (speedX p0) (x p) (speedX p)
  /\ axis_inv (height canvas) (speedY p0) (y p) (speedY p)
  /\ size p = size p0 /\ opacity p = opacity p0.

(** Stepping back from the farthest coordinate beyond [limit] lands on
    the range: the rounding of [limit + |speed|] is not carried over to one
    of [(limit + |speed|) - |speed|] above [limit]. *)
Definition steps_back (limit speed : Q) : Prop :=
  fsub (fadd limit (Qabs speed)) (Qabs speed) <= limit.

Definition returns (canvas : Canvas) (p : Particle) : Prop :=
  steps_back (width canvas) (speedX p) /\ steps_back (height canvas) (speedY p).

(** *** animateCounter *)

Section Counter.

(** [Math.pow] of the engine.  ECMAScript fixes its value only in
    special cases (a zero base among them) and leaves it
    implementation-approximated otherwise. *)
Variable pow : Q -> Q -> Q.

Definition duration : Q := 2000.

(** [Math.min(elapsed / duration, 1)] *)
Definition progress (startTime currentTime : Q) : Q :=
  Qmin (fdiv (fsub currentTime startTime) duration) 1.

(** [1 - Math.pow(1 - progress, 4)] *)
Definition easeOutQuart (p : Q) : Q := fsub 1 (pow (fsub 1 p) 4).

(** [Math.floor(easeOutQuart * target)] *)
Definition current (target : Z) (p : Q) : Z :=
  Qfloor (fmul (easeOutQuart p) (round64 (inject_Z target))).

(** The number written by the frame callback run at [currentTime]. *)
Definition frameValue (target : Z) (startTime currentTime : Q) : Z :=
  current target (progress startTime currentTime).

(** The frame callback re-arms itself while [progress < 1].  [frames] are
    the timestamps the host passes to successive animation frames; the
    result lists the numbers written, in order. *)
Fixpoint animate (target : Z) (startTime : Q) (frames : list Q) : list Z :=
  match frames with
  | [] => []
  | currentTime :: later =>
      frameValue target startTime currentTime ::
      (if ltb (progress startTime currentTime) 1
       then animate target startTime later else [])
  end.

End Counter.

(** Decimal form of an integer, as [current + suffix] prints it. *)
Definition toString (n : Z) : JS.jsstring :=
  JS.bytes_of (DecimalString.NilEmpty.string_of_int (Z.to_int n)).

(** [element.textContent] after the frame: the number, then the suffix
    ([dataset.suffix || '']). *)
Definition textContent (suffix : option JS.jsstring) (value : Z) : JS.jsstring :=
  toString value ++ match suffix with Some s => s | None => [] end.

(** What the proofs ask of the engine's [Math.pow(x, 4)]: it gives equal
    results for equal bases and zero for a zero base (which ECMAScript
    requires), it does not decrease when a non-negative base grows, and
    on [[0, 1]] it is within [2 ^ -52] of the fourth power. *)
Definition pow_spec (pow : Q -> Q -> Q) : Prop :=
  (forall a b, a == b -> pow a 4 == pow b 4)
  /\ pow 0 4 == 0
  /\ (forall a b, 0 <= a -> a <= b -> pow a 4 <= pow b 4)
  /\ (forall a, 0 <= a <= 1 -> Qabs (pow a 4 - a ^ 4) <= pow2 (-52)).

(** A [Math.pow] that rounds the exact power of an integer exponent
    correctly. *)
Definition pow_rounded (base exponent : Q) : Q := round64 (base ^ Qfloor exponent).

(** [100 * (1 - (1 - min(elapsed / 2000, 1)) ^ 4)], without rounding. *)
Definition eased (target elapsed : Q) : Q :=
  target * (1 - (1 - Qmin (elapsed / 2000) 1) ^ 4).

End HeroEffects.

(** ** Portfolio: the category filter and the load-more button *)

Module Portfolio.

Import JS.
Local Open Scope nat_scope.

(** A [.portfolio-item]: its [data-category] attribute and the two
    classes the script toggles.  An item is referred to by its position in
    [this.items]. *)
Record Item := mkItem {
  category : option jsstring;
  hidden : bool;
  animate_in : bool
}.

(** What a pending [setTimeout] will run: the outer callback of
    [filterItems], which holds the filtered items computed when it was
    armed, or the reveal of one item. *)
Inductive Callback :=
| RevealFiltered (filteredItems : list nat)
| RevealItem (item : nat).

Record Timer := mkTimer {
  delay : nat;
  callback : Callback
}.

(** [loadMoreBtn] is [None] when the page has no such button, else whether
    it is displayed. *)
Record State := mkState {
  items : list Item;
  currentFilter : jsstring;
  itemsPerPage : nat;
  currentPage : nat;
  loadMoreBtn : option bool;
  timers : list Timer
}.

Definition with_items (st : State) (its : list Item) : State :=
  {| items := its; currentFilter := currentFilter st;
     itemsPerPage := itemsPerPage st; currentPage := currentPage st;
     loadMoreBtn := loadMoreBtn st; timers := timers st |}.

Definition with_timers (st : State) (tms : list Timer) : State :=
  {| items := items st; currentFilter := currentFilter st;
     itemsPerPage := itemsPerPage st; currentPage := currentPage st;
     loadMoreBtn := loadMoreBtn st; timers := tms |}.

Definition with_filter (st : State) (filter : jsstring) (page : nat) : State :=
  {| items := items st; currentFilter := filter;
     itemsPerPage := itemsPerPage st; currentPage := page;
     loadMoreBtn := loadMoreBtn st; timers := timers st |}.

Definition with_button (st : State) (btn : option bool) : State :=
  {| items := items st; currentFilter := currentFilter st;
     itemsPerPage := itemsPerPage st; currentPage := currentPage st;
     loadMoreBtn := btn; timers := timers st |}.

(** Positions of the elements of [l] that satisfy [p], in order:
    [Array.from(l).filter(p)] with elements named by position. *)
Definition indices_where {A : Type} (p : A -> bool) (l : list A) : list nat :=
  List.filter (fun i => match l !! i with Some a => p a | None => false end)
    (seq 0 (length l)).

(** [item.dataset.category?.split(',') || []] includes the filter. *)
Definition carries (filter : jsstring) (item : Item) : bool :=
  includes
    (match category item with Some c => split (chr ",") c | None => [] end)
    filter.

Definition getFilteredItems (st : State) : list nat :=
  if streq (currentFilter st) (js "all") then seq 0 (length (items st))
  else indices_where (carries (currentFilter st)) (items st).

(** [arr.slice(start, stop)] for [0 <= start <= stop]. *)
Definition slice {A : Type} (start stop : nat) (l : list A) : list A :=
  firstn (stop - start) (skipn start l).

Definition hide_item (item : Item) : Item :=
  {| category := category item; hidden := true; animate_in := animate_in item |}.

(** [DOM.removeClass(item, 'hidden'); DOM.addClass(item, 'animate-in')] *)
Definition reveal_item (item : Item) : Item :=
  {| category := category item; hidden := false; animate_in := true |}.

(** [forEach((item, index) => setTimeout(reveal, index * 100))] *)
Definition staggered (its : list nat) : list Timer :=
  imap (fun index item => mkTimer (index * 100) (RevealItem item)) its.

(** [filterItems()]: every item is hidden at once, and the reveal of the
    filtered items is left to a timer. *)
Definition filterItems (st : State) : State :=
  let filteredItems := getFilteredItems st in
  with_timers (with_items st (map hide_item (items st)))
    (timers st ++ [mkTimer 300 (RevealFiltered filteredItems)]).

Definition updateLoadMoreButton (st : State) : State :=
  match loadMoreBtn st with
  | None => st
  | Some _ =>
      let visibleItems := currentPage st * itemsPerPage st in
      if length (getFilteredItems st) <=? visibleItems
      then with_button st (Some false)
      else with_button st (Some true)
  end.

(** [handleFilterClick(filterBtn)] for a button whose [data-filter] is
    [filter] (the [active] class of the buttons is not part of the
    state). *)
Definition handleFilterClick (filter : jsstring) (st : State) : State :=
  if streq filter (currentFilter st) then st
  else updateLoadMoreButton (filterItems (with_filter st filter 1)).

Definition loadMore (st : State) : State :=
  let st1 := with_filter st (currentFilter st) (S (currentPage st)) in
  let filteredItems := getFilteredItems st1 in
  let startIndex := (currentPage st1 - 1) * itemsPerPage st1 in
  let endIndex := currentPage st1 * itemsPerPage st1 in
  updateLoadMoreButton
    (with_timers st1
       (timers st1 ++ staggered (slice startIndex endIndex filteredItems))).

(** A timer's callback runs.  The outer callback of [filterItems] reads
    [itemsPerPage * currentPage] when it runs, not when it was armed. *)
Definition run_callback (cb : Callback) (st : State) : State :=
  match cb with
  | RevealFiltered filteredItems =>
      with_timers st
        (timers st
         ++ staggered (slice 0 (itemsPerPage st * currentPage st) filteredItems))
  | RevealItem item => with_items st (alter reveal_item item (items st))
  end.

(** The [k]-th pending timer fires.  The host fires timers in an order
    fixed by their delays and arming times; the model lets any pending
    timer fire next, which covers the host's order. *)
Definition fire (k : nat) (st : State) : State :=
  match timers st !! k with
  | None => st
  | Some tm => run_callback (callback tm) (with_timers st (delete k (timers st)))
  end.

Inductive Event :=
| ClickFilter (filter : jsstring)
| ClickLoadMore
| Fire (k : nat).

Definition handle (e : Event) (st : State) : State :=
  match e with
  | ClickFilter filter => handleFilterClick filter st
  | ClickLoadMore => loadMore st
  | Fire k => fire k st
  end.

Definition run (events : list Event) (st : State) : State :=
  fold_left (fun s e => handle e s) events st.

(** The constructor followed by [init()]: [showItems()] on the filter
    ['all'], six items per page, page one. *)
Definition init (its : list Item) (btn : option bool) : State :=
  updateLoadMoreButton
    (filterItems
       {| items := its; currentFilter := js "all"; itemsPerPage := 6;
          currentPage := 1; loadMoreBtn := btn; timers := [] |}).

(** The items that do not carry the [hidden] class. *)
Definition visibleItems (st : State) : list nat :=
  indices_where (fun item => negb (hidden item)) (items st).

(** Number of [ClickLoadMore] events. *)
Definition loads (events : list Event) : nat :=
  length (List.filter (fun e => match e with ClickLoadMore => true | _ => false end)
            events).

(** The event is not a click on another filter than [filter]. *)
Definition keeps_filter (filter : jsstring) (e : Event) : Prop :=
  match e with
  | ClickFilter other => other = filter
  | _ => True
  end.

(** The first [itemsPerPage * currentPage] filtered items: what the page
    is meant to show. *)
Definition page_window (st : State) : list nat :=
  firstn (itemsPerPage st * currentPage st) (getFilteredItems st).

Definition pending_callbacks (st : State) : list Callback :=
  map callback (timers st).

(** The page is on its way to showing the window: every visible item is
    in the window; every item of the window is visible or will be revealed
    by a pending timer; and the pending timers reveal nothing else. *)
Definition on_course (st : State) : Prop :=
  (forall i, In i (visibleItems st) -> In i (page_window st))
  /\ (forall i,
        In i (page_window st) ->
        In i (visibleItems st)
        \/ In (RevealItem i) (pending_callbacks st)
        \/ In (RevealFiltered (getFilteredItems st)) (pending_callbacks st))
  /\ (forall cb,
        In cb (pending_callbacks st) ->
        match cb with
        | RevealFiltered filteredItems => filteredItems = getFilteredItems st
        | RevealItem i => In i (page_window st)
        end).

(** Firing the first pending timer until none is left.  [RevealFiltered]
    arms at most as many timers as it holds items, and [RevealItem] none,
    so [work] calls are enough. *)
Definition work (tms : list Timer) : nat :=
  list_sum (map (fun tm => match callback tm with
                           | RevealFiltered filteredItems => S (length filteredItems)
                           | RevealItem _ => 1
                           end) tms).

Fixpoint fire_first (n : nat) (st : State) : State :=
  match n with
  | O => st
  | S n' => fire_first n' (fire 0 st)
  end.

Definition drain (st : State) : State := fire_first (work (timers st)) st.

(** A page of ten items, eight of them in the category [web]. *)
Definition sample_items : list Item :=
  map (fun c => mkItem (Some (js c)) false false)
    ["web"; "web,design"; "design"; "web"; "app,web"; "web"; "web"; "web";
     "app"; "web"]%string.

(** The button, when there is one, is displayed exactly when more items
    pass the filter than the pages shown so far can hold. *)
Definition button_tracks_rest (st : State) : Prop :=
  match loadMoreBtn st with
  | None => True
  | Some displayed =>
      displayed = negb (length (getFilteredItems st)
                        <=? currentPage st * itemsPerPage st)
  end.

(** No code unit of [s] is a comma. *)
Definition comma_free (s : jsstring) : Prop := ~ In (chr ",") s.

End Portfolio.

(** ** Testimonials: the carousel *)

Module Testimonials.

Local Open Scope Z_scope.

(** [cards] and [indicators] hold, per element, whether it carries the
    [active] class. *)
Record State := mkState {
  cards : list bool;
  indicators : list bool;
  currentIndex : Z
}.

(** [cards.length] *)
Definition cards_length (st : State) : Z := Z.of_nat (length (cards st)).

(** One [forEach] of [updateCarousel]: the element at [currentIndex] gets
    the class, every other element loses it. *)
Definition mark (index : Z) (elements : list bool) : list bool :=
  imap (fun i _ => Z.of_nat i =? index) elements.

Definition updateCarousel (st : State) : State :=
  {| cards := mark (currentIndex st) (cards st);
     indicators := mark (currentIndex st) (indicators st);
     currentIndex := currentIndex st |}.

Definition set_index (st : State) (index : Z) : State :=
  {| cards := cards st; indicators := indicators st; currentIndex := index |}.

Definition prev (st : State) : State :=
  updateCarousel
    (set_index st (if currentIndex st =? 0
                   then cards_length st - 1
                   else currentIndex st - 1)).

Definition next (st : State) : State :=
  updateCarousel
    (set_index st (if currentIndex st =? cards_length st - 1
                   then 0
                   else currentIndex st + 1)).

Definition goTo (index : Z) (st : State) : State :=
  updateCarousel (set_index st index).

(** The listeners of [bindEvents]: the two buttons, the autoplay timer, a
    horizontal swipe, and a click on the [k]-th indicator (which exists
    only for [k] below the number of indicators). *)
Inductive Event :=
| ClickPrev
| ClickNext
| Autoplay
| SwipeRight
| SwipeLeft
| ClickIndicator (k : nat).

Definition handle (e : Event) (st : State) : State :=
  match e with
  | ClickPrev | SwipeRight => prev st
  | ClickNext | SwipeLeft | Autoplay => next st
  | ClickIndicator k =>
      if (k <? length (indicators st))%nat then goTo (Z.of_nat k) st else st
  end.

(** [0 <= currentIndex < cards.length] *)
Definition in_range (st : State) : Prop :=
  0 <= currentIndex st < cards_length st.

(** The constructor's state on a page with the carousel and at least one
    card; [cards0] and [indicators0] tell which elements carry the class
    in the markup. *)
Definition init (cards0 indicators0 : list bool) : State :=
  updateCarousel {| cards := cards0; indicators := indicators0; currentIndex := 0 |}.

(** The classes agree with the index: [updateCarousel] would change
    nothing. *)
Definition consistent (st : State) : Prop := updateCarousel st = st.

(** Number of elements that carry the class. *)
Definition active_count (elements : list bool) : nat :=
  length (List.filter (fun b => b) elements).

(** *** Autoplay

    The carousel together with its autoplay handle and the host's
    intervals: [armed] lists the handles of the intervals that are running
    and [fresh] is the next handle [setInterval] returns (handles are
    positive). *)
Record Player := mkPlayer {
  carousel : State;
  autoplayInterval : option nat;
  armed : list nat;
  fresh : nat
}.

(** [stopAutoplay()]: the handle is tested for truthiness. *)
Definition stopAutoplay (p : Player) : Player :=
  match autoplayInterval p with
  | Some (S id) =>
      {| carousel := carousel p; autoplayInterval := None;
         armed := List.filter (fun h => negb (Nat.eqb h (S id))) (armed p);
         fresh := fresh p |}
  | _ => p
  end.

(** [startAutoplay()] *)
Definition startAutoplay (p : Player) : Player :=
  let p1 := stopAutoplay p in
  {| carousel := carousel p1; autoplayInterval := Some (fresh p1);
     armed := fresh p1 :: armed p1; fresh := S (fresh p1) |}.

(** The pointer enters or leaves the container, the interval with handle
    [h] fires, or one of the carousel's own events happens. *)
Inductive PlayerEvent :=
| MouseEnter
| MouseLeave
| Tick (h : nat)
| Carousel (e : Event).

Definition play (e : PlayerEvent) (p : Player) : Player :=
  match e with
  | MouseEnter => stopAutoplay p
  | MouseLeave => startAutoplay p
  | Tick h =>
      if existsb (Nat.eqb h) (armed p)
      then {| carousel := next (carousel p);
              autoplayInterval := autoplayInterval p;
              armed := armed p; fresh := fresh p |}
      else p
  | Carousel e' =>
      {| carousel := handle e' (carousel p);
         autoplayInterval := autoplayInterval p;
         armed := armed p; fresh := fresh p |}
  end.

(** [init()]: [bindEvents(); updateCarousel(); startAutoplay()] *)
Definition init_player (cards0 indicators0 : list bool) : Player :=
  startAutoplay
    {| carousel := init cards0 indicators0; autoplayInterval := None;
       armed := []; fresh := 1 |}.

(** The one interval the handle names is the only one running. *)
Definition single_interval (p : Player) : Prop :=
  (1 <= fresh p)%nat
  /\ match autoplayInterval p with
     | Some h => armed p = [h] /\ (1 <= h < fresh p)%nat
     | None => armed p = []
     end.

Definition run (events : list Event) (st : State) : State :=
  fold_left (fun s e => handle e s) events st.

Definition run_player (events : list PlayerEvent) (p : Player) : Player :=
  fold_left (fun q e => play e q) events p.

End Testimonials.

(** ** ContactForm: field validation and the submit handler *)

Module ContactForm.

Import JS.

(** [this.validators] *)
Module validators.

(** [value.trim() !== ''] *)
Definition required (value : jsstring) : bool := negb (streq (trim value) []).

(** [[^\s@]] *)
Definition not_space_at : regex :=
  Class (fun c => negb (is_whitespace c || (c =? chr "@"))).

(** [/^[^\s@]+@[^\s@]+\.[^\s@]+$/] *)
Definition email_pattern : regex :=
  Seq (Plus not_space_at)
    (Seq (Lit "@") (Seq (Plus not_space_at) (Seq (Lit ".") (Plus not_space_at)))).

Definition email (value : jsstring) : bool := test email_pattern value.

(** [/^[\+]?[1-9][\d]{0,15}$/] *)
Definition phone_pattern : regex :=
  Seq (Opt (Lit "+"))
    (Seq (Class (fun c => (chr "1" <=? c) && (c <=? chr "9")))
         (UpTo 15 (Class is_digit))).

Definition phone (value : jsstring) : bool :=
  test phone_pattern (remove_whitespace value).

(** [value.length >= min]; a comparison with NaN is false. *)
Definition minLength (value : jsstring) (min : option Z) : bool :=
  match min with
  | Some m => (m <=? Z.of_nat (length value))%Z
  | None => false
  end.

End validators.

(** A form control as [validateField] sees it: its value, its
    [data-validate] attribute, its [valid]/[invalid] classes and the text
    of the [.form-error] element of its parent, when there is one (each
    control is taken to have a parent of its own).  [name] and
    [defaultValue] are what [FormData] and [form.reset()] read. *)
Record Field := mkField {
  name : jsstring;
  value : jsstring;
  defaultValue : jsstring;
  validate : option jsstring;
  valid : bool;
  invalid : bool;
  errorElement : option jsstring
}.

(** [field.dataset.validate?.split('|') || []] *)
Definition rules_of (validate : option jsstring) : list jsstring :=
  match validate with
  | Some v => split (chr "|") v
  | None => []
  end.

(** [const [validator, param] = rule.split(':')] *)
Definition validator_of (rule : jsstring) : jsstring :=
  nth 0 (split (chr ":") rule) [].

Definition param_of (rule : jsstring) : option jsstring :=
  nth_error (split (chr ":") rule) 1.

(** A value interpolated in a template literal. *)
Definition interpolate (v : option jsstring) : jsstring :=
  match v with Some s => s | None => js "undefined" end.

(** Body of the loop over the rules: the if/else-if chain.  [Some message]
    when the rule sets [isValid = false] (and the loop breaks), [None] when
    no branch is taken. *)
Definition rule_error (rule value : jsstring) : option jsstring :=
  let validator := validator_of rule in
  let param := param_of rule in
  if streq validator (js "required") && negb (validators.required value)
  then Some (js "Este campo é obrigatório")
  else if streq validator (js "email") && truthy value
          && negb (validators.email value)
  then Some (js "Digite um email válido")
  else if streq validator (js "phone") && truthy value
          && negb (validators.phone value)
  then Some (js "Digite um telefone válido")
  else if streq validator (js "minLength") && truthy value
          && negb (validators.minLength value (parseInt param))
  then Some (js "Mínimo de " ++ interpolate param ++ js " caracteres")
  else None.

(** The [for ... of] loop with its [break]: the error message left in
    [errorMessage] when [isValid] ends false, [None] when it ends true. *)
Fixpoint check_rules (rules : list jsstring) (value : jsstring) : option jsstring :=
  match rules with
  | [] => None
  | rule :: rest =>
      match rule_error rule value with
      | Some message => Some message
      | None => check_rules rest value
      end
  end.

(** [validateField(field)]: the field with its state updated, and the
    returned [isValid]. *)
Definition validateField (field : Field) : Field * bool :=
  match check_rules (rules_of (validate field)) (value field) with
  | None =>
      ({| name := name field; value := value field;
          defaultValue := defaultValue field; validate := validate field;
          valid := true; invalid := false;
          errorElement := option_map (fun _ => []) (errorElement field) |},
       true)
  | Some errorMessage =>
      ({| name := name field; value := value field;
          defaultValue := defaultValue field; validate := validate field;
          valid := false; invalid := true;
          errorElement := option_map (fun _ => errorMessage) (errorElement field) |},
       false)
  end.

(** [clearFieldError(field)] *)
Definition clearFieldError (field : Field) : Field :=
  {| name := name field; value := value field;
     defaultValue := defaultValue field; validate := validate field;
     valid := valid field; invalid := false;
     errorElement := option_map (fun _ => []) (errorElement field) |}.

(** [validateForm()]: every input is validated (no short cut); the result
    is the conjunction.  Each control has a parent of its own, so that no
    two controls write the same [.form-error] element. *)
Fixpoint validateForm (inputs : list Field) : list Field * bool :=
  match inputs with
  | [] => ([], true)
  | input :: rest =>
      let '(input', ok) := validateField input in
      let '(rest', isValid) := validateForm rest in
      (input' :: rest', ok && isValid)
  end.

Inductive MessageType := error | success.

(** The button's content: what the page's markup holds, or one of the
    two templates [updateSubmitButton] writes. *)
Inductive ButtonContent := Markup | Enviando | EnviarMensagem.

Record Button := mkButton {
  disabled : bool;
  innerHTML : ButtonContent
}.

Definition FormData := list (jsstring * jsstring).

(** [submitBtn] is [None] when the page has no [.form-submit] element.
    [pending] holds the calls of [submitToAPI] that have not settled yet,
    [message] the [.form-message] element when it is in the document, and
    [hideTimers] the number of armed auto-hide timers. *)
Record State := mkState {
  inputs : list Field;
  submitBtn : option Button;
  isSubmitting : bool;
  message : option (MessageType * jsstring);
  hideTimers : nat;
  pending : list FormData
}.

(** What a handler did besides changing the state: it validated [n]
    fields, showed a message, called [submitToAPI], or let a [TypeError]
    escape. *)
Inductive Effect :=
| Validated (n : nat)
| Shown (type : MessageType) (text : jsstring)
| Submitted (data : FormData)
| Threw.

Definition with_inputs (st : State) (fields : list Field) : State :=
  {| inputs := fields; submitBtn := submitBtn st;
     isSubmitting := isSubmitting st; message := message st;
     hideTimers := hideTimers st; pending := pending st |}.

Definition with_submitting (st : State) (b : bool) : State :=
  {| inputs := inputs st; submitBtn := submitBtn st;
     isSubmitting := b; message := message st;
     hideTimers := hideTimers st; pending := pending st |}.

Definition with_pending (st : State) (calls : list FormData) : State :=
  {| inputs := inputs st; submitBtn := submitBtn st;
     isSubmitting := isSubmitting st; message := message st;
     hideTimers := hideTimers st; pending := calls |}.

(** [showMessage(message, type)] *)
Definition showMessage (text : jsstring) (type : MessageType) (st : State) : State :=
  {| inputs := inputs st; submitBtn := submitBtn st;
     isSubmitting := isSubmitting st; message := Some (type, text);
     hideTimers := S (hideTimers st); pending := pending st |}.

(** [updateSubmitButton(isLoading)]; [None] is the [TypeError] of an
    assignment to a property of [null]. *)
Definition updateSubmitButton (isLoading : bool) (st : State) : option State :=
  match submitBtn st with
  | None => None
  | Some _ =>
      Some {| inputs := inputs st;
              submitBtn :=
                Some {| disabled := isLoading;
                        innerHTML := if isLoading then Enviando else EnviarMensagem |};
              isSubmitting := isSubmitting st; message := message st;
              hideTimers := hideTimers st; pending := pending st |}
  end.

(** [Object.fromEntries(new FormData(this.form).entries())], for a form
    whose listed controls are the text fields of [this.inputs]: each one
    enabled, with a name of its own, its value free of unpaired surrogates
    (others [FormData] leaves out, merges or rewrites). *)
Definition formData (fields : list Field) : FormData :=
  map (fun f => (name f, value f)) fields.

(** [form.reset()] followed by the removal of both classes, on a control
    of [this.inputs] that is a text field (its value returns to
    [defaultValue]). *)
Definition reset (field : Field) : Field :=
  {| name := name field; value := defaultValue field;
     defaultValue := defaultValue field; validate := validate field;
     valid := false; invalid := false;
     errorElement := errorElement field |}.

(** [handleSubmit()] up to its [await]: the guard, the validation, and the
    call of [submitToAPI]. *)
Definition handleSubmit (st : State) : State * list Effect :=
  if isSubmitting st then (st, [])
  else
    let '(fields, isValid) := validateForm (inputs st) in
    let st1 := with_inputs st fields in
    let text := js "Por favor, corrija os erros no formulário." in
    if negb isValid
    then (showMessage text error st1,
          [Validated (length (inputs st)); Shown error text])
    else
      let st2 := with_submitting st1 true in
      match updateSubmitButton true st2 with
      | None => (st2, [Validated (length (inputs st)); Threw])
      | Some st3 =>
          let data := formData (inputs st3) in
          (with_pending st3 (pending st3 ++ [data]),
           [Validated (length (inputs st)); Submitted data])
      end.

(** The [finally] block. *)
Definition finish (st : State) : State :=
  let st1 := with_submitting st false in
  match updateSubmitButton false st1 with
  | Some st2 => st2
  | None => st1
  end.

(** [handleSubmit()] after the [await], when the oldest pending call
    settles: [fulfilled] tells whether its promise resolved. *)
Definition settle (fulfilled : bool) (st : State) : State * list Effect :=
  match pending st with
  | [] => (st, [])
  | _ :: calls =>
      let st1 := with_pending st calls in
      if fulfilled then
        let text :=
          js "Mensagem enviada com sucesso! Entraremos em contato em breve." in
        let st2 := showMessage text success st1 in
        let st3 := with_inputs st2 (map reset (inputs st2)) in
        (finish st3, [Shown success text])
      else
        let text := js "Erro ao enviar mensagem. Tente novamente." in
        (finish (showMessage text error st1), [Shown error text])
  end.

(** The auto-hide timer of [showMessage] fires. *)
Definition hideMessage (st : State) : State :=
  match hideTimers st with
  | O => st
  | S n =>
      {| inputs := inputs st; submitBtn := submitBtn st;
         isSubmitting := isSubmitting st; message := None;
         hideTimers := n; pending := pending st |}
  end.

(** What can happen to the form: the submit event, the pending call
    settling, a field losing focus or being edited, a hide timer firing. *)
Inductive Event :=
| Submit
| Settle (fulfilled : bool)
| Blur (i : nat)
| Input (i : nat) (text : jsstring)
| HideTimer.

Definition set_value (text : jsstring) (field : Field) : Field :=
  {| name := name field; value := text;
     defaultValue := defaultValue field; validate := validate field;
     valid := valid field; invalid := invalid field;
     errorElement := errorElement field |}.

Definition handle (e : Event) (st : State) : State :=
  match e with
  | Submit => fst (handleSubmit st)
  | Settle fulfilled => fst (settle fulfilled st)
  | Blur i =>
      with_inputs st (alter (fun f => fst (validateField f)) i (inputs st))
  | Input i text =>
      with_inputs st
        (alter (fun f => clearFieldError (set_value text f)) i (inputs st))
  | HideTimer => hideMessage st
  end.

Definition run (events : list Event) (st : State) : State :=
  fold_left (fun s e => handle e s) events st.

(** The constructor's state; [button] tells whether the page has a
    [.form-submit] element. *)
Definition init (fields : list Field) (button : bool) : State :=
  {| inputs := fields;
     submitBtn := if button then Some (mkButton false Markup) else None;
     isSubmitting := false; message := None; hideTimers := O; pending := [] |}.

(** At most one call is pending, and none while the flag is clear. *)
Definition one_in_flight (st : State) : Prop :=
  (length (pending st) <= 1)%nat
  /\ (isSubmitting st = false -> pending st = []).

(** With a submit button: the flag is set exactly while one call is
    pending, and the button is disabled exactly while the flag is set. *)
Definition flag_tracks_call (st : State) : Prop :=
  (isSubmitting st = true -> length (pending st) = 1%nat)
  /\ (isSubmitting st = false -> pending st = [])
  /\ exists b, submitBtn st = Some b /\ disabled b = isSubmitting st.

End ContactForm.

(** ** WhatsAppForm *)

Module WhatsAppForm.

Import JS.

Definition phoneNumber : jsstring := js "5511914823015".

(** The [labels] object of [getFieldLabel], in source order. *)
Definition labels : list (jsstring * jsstring) :=
  [ (js "name", js "Nome");
    (js "email", js "Email");
    (js "phone", js "Telefone");
    (js "company", js "Empresa");
    (js "service", js "Serviço");
    (js "budget", js "Orçamento");
    (js "message", js "Mensagem");
    (js "project", js "Projeto") ].

(** Lookup of a key in a table of properties. *)
Fixpoint lookup_label (table : list (jsstring * jsstring)) (fieldName : jsstring)
  : option jsstring :=
  match table with
  | [] => None
  | (key, label) :: rest =>
      if streq key fieldName then Some label else lookup_label rest fieldName
  end.

(** The properties [labels] inherits from [Object.prototype], each with
    the text a template literal prints for its value.  The text of a
    built-in function is implementation-defined; this is the one V8
    prints (other engines differ in white space). *)
Definition inherited : list (jsstring * jsstring) :=
  [ (js "constructor", js "function Object() { [native code] }");
    (js "__defineGetter__", js "function __defineGetter__() { [native code] }");
    (js "__defineSetter__", js "function __defineSetter__() { [native code] }");
    (js "hasOwnProperty", js "function hasOwnProperty() { [native code] }");
    (js "__lookupGetter__", js "function __lookupGetter__() { [native code] }");
    (js "__lookupSetter__", js "function __lookupSetter__() { [native code] }");
    (js "isPrototypeOf", js "function isPrototypeOf() { [native code] }");
    (js "propertyIsEnumerable",
     js "function propertyIsEnumerable() { [native code] }");
    (js "toString", js "function toString() { [native code] }");
    (js "valueOf", js "function valueOf() { [native code] }");
    (js "__proto__", js "[object Object]");
    (js "toLocaleString", js "function toLocaleString() { [native code] }") ].

(** [labels[fieldName] || fieldName], as the template literal of
    [handleSubmit] prints it: an own property of [labels], else an
    inherited one (a function or [Object.prototype], all truthy), else
    the field name. *)
Definition getFieldLabel (fieldName : jsstring) : jsstring :=
  match lookup_label labels fieldName with
  | Some label => if truthy label then label else fieldName
  | None =>
      match lookup_label inherited fieldName with
      | Some text => text
      | None => fieldName
      end
  end.

(** The line appended for a field that is kept:
    [`*${label}:* ${value}\n`]. *)
Definition line (key value : jsstring) : jsstring :=
  js "*" ++ getFieldLabel key ++ js ":* " ++ value ++ [LF].

(** Body of the [forEach] over [Object.entries(data)]. *)
Definition add_field (message : jsstring) (entry : jsstring * jsstring) : jsstring :=
  let '(key, value) := entry in
  if truthy (trim value) then message ++ line key value else message.

Definition greeting : jsstring :=
  js "Olá! Gostaria de solicitar um orçamento:" ++ [LF; LF].

Definition closing : jsstring := LF :: js "Aguardo retorno. Obrigado!".

(** The message [handleSubmit] builds from [data], given as
    [Object.entries(data)]: the form's fields in order, all values
    strings. *)
Definition buildMessage (data : list (jsstring * jsstring)) : jsstring :=
  fold_left add_field data greeting ++ closing.

(** [openWhatsApp(message)]: the URL passed to [window.open], or [None]
    when [encodeURIComponent] throws. *)
Definition openWhatsApp (message : jsstring) : option jsstring :=
  match encodeURIComponent message with
  | Some encodedMessage =>
      Some (js "https://wa.me/" ++ phoneNumber ++ js "?text=" ++ encodedMessage)
  | None => None
  end.

(** [handleSubmit(form)] from its third statement on, with [data] given
    as [Object.entries(data)]. *)
Definition handleSubmit (data : list (jsstring * jsstring)) : option jsstring :=
  openWhatsApp (buildMessage data).

(** The first two statements of [handleSubmit(form)]:
    [Object.entries(Object.fromEntries(new FormData(form).entries()))].
    [form] lists the name and the value of the controls of the form that
    have an entry, in tree order, as the strings the page holds (no file
    input). *)
Definition formEntries (form : list (jsstring * jsstring))
  : list (jsstring * jsstring) :=
  Object_entries
    (Object_fromEntries
       (map (fun control => (toUSVString (fst control), toUSVString (snd control)))
          form)).

(** [handleSubmit(form)] as a whole. *)
Definition submitForm (form : list (jsstring * jsstring)) : option jsstring :=
  handleSubmit (formEntries form).

(** The value is empty or made of white space only. *)
Definition blank (value : jsstring) : bool := forallb is_whitespace value.

(** A field is kept when its value is not blank. *)
Definition kept (entry : jsstring * jsstring) : bool := truthy (trim (snd entry)).

(** The lines of a text, as separated by line feeds. *)
Definition lines (text : jsstring) : list jsstring := split LF text.

(** Every code unit of the texts [handleSubmit] puts around the field
    values satisfies [p]. *)
Definition literals_satisfy (p : N -> bool) : Prop :=
  all p greeting /\ all p closing /\ all p (js "*") /\ all p (js ":* ")
  /\ p LF = true /\ Forall (fun entry => all p (snd entry)) (labels ++ inherited).

(** Every code unit of the names and values of [data] satisfies [p]. *)
Definition data_satisfy (p : N -> bool) (data : list (jsstring * jsstring)) : Prop :=
  Forall (fun entry => all p (fst entry) /\ all p (snd entry)) data.

(** The fixed part of the link. *)
Definition link_prefix : jsstring := js "https://wa.me/5511914823015?text=".

End WhatsAppForm.

(** ** Storage: the JSON wrapper around localStorage

    [JSON] and [localStorage] belong to the host.  The model takes the JSON
    codec as two functions and the storage area as a finite map together
    with what makes its methods throw. *)

Module Storage.

Import JS.

(** What [JSON.stringify(value)] gives: it throws (a cycle, a BigInt),
    returns [undefined] (for [undefined], a function or a symbol), or
    returns a text. *)
Inductive Stringified :=
| Throws
| Undefined
| Text (s : jsstring).

(** The JSON codec for values of type [V]; [parse] returns [None] when
    [JSON.parse] throws. *)
Record Codec (V : Type) := mkCodec {
  stringify : V -> Stringified;
  parse : jsstring -> option V
}.

Arguments stringify {V}.
Arguments parse {V}.

(** The storage area: its items, whether it can be accessed at all (when
    not, every method throws), and which writes it accepts (a write over
    quota throws). *)
Record LocalStorage := mkLocalStorage {
  items : gmap jsstring jsstring;
  accessible : bool;
  accepts : jsstring -> jsstring -> bool
}.

(** [localStorage.setItem(key, text)]; [None] when it throws. *)
Definition setItem (key text : jsstring) (ls : LocalStorage) : option LocalStorage :=
  if accessible ls && accepts ls key text
  then Some {| items := <[key := text]> (items ls);
               accessible := accessible ls; accepts := accepts ls |}
  else None.

(** [localStorage.getItem(key)]: [None] when it throws, [Some None] for
    [null]. *)
Definition getItem (key : jsstring) (ls : LocalStorage) : option (option jsstring) :=
  if accessible ls then Some (items ls !! key) else None.

(** [localStorage.removeItem(key)] *)
Definition removeItem (key : jsstring) (ls : LocalStorage) : option LocalStorage :=
  if accessible ls
  then Some {| items := delete key (items ls);
               accessible := accessible ls; accepts := accepts ls |}
  else None.

Section Wrapper.

Context {V : Type} (JSON : Codec V).

(** [Storage.set(key, value)]: the storage afterwards and the boolean
    returned.  An [undefined] result of [stringify] is stored as the text
    ["undefined"]. *)
Definition set (key : jsstring) (value : V) (ls : LocalStorage) : LocalStorage * bool :=
  match stringify JSON value with
  | Throws => (ls, false)
  | Undefined =>
      match setItem key (js "undefined") ls with
      | Some ls' => (ls', true)
      | None => (ls, false)
      end
  | Text s =>
      match setItem key s ls with
      | Some ls' => (ls', true)
      | None => (ls, false)
      end
  end.

(** [Storage.get(key, defaultValue)] *)
Definition get (key : jsstring) (defaultValue : V) (ls : LocalStorage) : V :=
  match getItem key ls with
  | None => defaultValue
  | Some None => defaultValue
  | Some (Some item) =>
      if truthy item
      then match parse JSON item with
           | Some value => value
           | None => defaultValue
           end
      else defaultValue
  end.

(** [Storage.remove(key)] *)
Definition remove (key : jsstring) (ls : LocalStorage) : LocalStorage * bool :=
  match removeItem key ls with
  | Some ls' => (ls', true)
  | None => (ls, false)
  end.

End Wrapper.

(** The codec of the three JSON literals, enough to run the wrapper:
    [None] is [null]. *)
Definition literals : Codec (option bool) :=
  {| stringify := fun v =>
       match v with
       | None => Text (js "null")
       | Some true => Text (js "true")
       | Some false => Text (js "false")
       end;
     parse := fun s =>
       if streq s (js "null") then Some None
       else if streq s (js "true") then Some (Some true)
       else if streq s (js "false") then Some (Some false)
       else None |}.

(** The same codec with [undefined] as one more value ([None]), which
    [JSON.stringify] does not serialize and no text parses to. *)
Definition literals_or_undefined : Codec (option (option bool)) :=
  {| stringify := fun v =>
       match v with
       | None => Undefined
       | Some w => stringify literals w
       end;
     parse := fun s => option_map Some (parse literals s) |}.

End Storage.


(** ** Performance: debounce and throttle

    Each wrapper is a closure over its own variables.  The model keeps
    those variables together with the part of the host's timer queue the
    closure has armed ([queue], oldest first) and the calls of [func] made
    so far ([log], oldest first).  Handles are numbered in the order the
    closure obtains them from [setTimeout], starting at one. *)

Module Performance.

Local Open Scope Z_scope.

Section Timers.

(** The argument list a wrapper is called with. *)
Variable Args : Type.

(** A pending timer: its handle, the timeout it was armed with and the
    arguments its callback passes to [func]. *)
Record Timer := mkTimer {
  timerId : nat;
  timeout : Z;
  args : Args
}.

(** [clearTimeout(timeoutId)]; [undefined] clears nothing. *)
Definition clearTimeout (timeoutId : option nat) (queue : list Timer) : list Timer :=
  match timeoutId with
  | Some h => List.filter (fun t => negb (Nat.eqb (timerId t) h)) queue
  | None => queue
  end.

(** The pending timer with handle [h], if there is one. *)
Definition pending (h : nat) (queue : list Timer) : option Timer :=
  List.find (fun t => Nat.eqb (timerId t) h) queue.

End Timers.

Arguments mkTimer {Args}.
Arguments timerId {Args}.
Arguments timeout {Args}.
Arguments args {Args}.
Arguments clearTimeout {Args}.
Arguments pending {Args}.

Module debounce.

Section Closure.

Variable Args : Type.
Variable delay : Z.

Record State := mkState {
  timeoutId : option nat;
  queue : list (Timer Args);
  fresh : nat;
  log : list Args
}.

(** The returned function, called with [a]. *)
Definition call (a : Args) (st : State) : State :=
  {| timeoutId := Some (fresh st);
     queue := clearTimeout (timeoutId st) (queue st) ++ [mkTimer (fresh st) delay a];
     fresh := S (fresh st);
     log := log st |}.

(** The host runs the timer with handle [h], if it is pending. *)
Definition fire (h : nat) (st : State) : State :=
  match pending h (queue st) with
  | Some t =>
      {| timeoutId := timeoutId st;
         queue := clearTimeout (Some h) (queue st);
         fresh := fresh st;
         log := log st ++ [args t] |}
  | None => st
  end.

Inductive Event :=
| Call (a : Args)
| Fire (h : nat).

Definition handle (e : Event) (st : State) : State :=
  match e with
  | Call a => call a st
  | Fire h => fire h st
  end.

Definition run (events : list Event) (st : State) : State :=
  fold_left (fun s e => handle e s) events st.

(** [Performance.debounce(func, delay)] has just returned. *)
Definition init : State :=
  {| timeoutId := None; queue := []; fresh := 1; log := [] |}.

Definition is_fire (e : Event) : bool :=
  match e with Fire _ => true | Call _ => false end.

(** Nothing is pending, or only the timer [timeoutId] names. *)
Definition single_timer (st : State) : Prop :=
  (1 <= fresh st)%nat
  /\ (queue st = []
      \/ exists h a, timeoutId st = Some h /\ (h < fresh st)%nat
                     /\ queue st = [mkTimer h delay a]).

End Closure.

Arguments timeoutId {Args}.
Arguments queue {Args}.
Arguments fresh {Args}.
Arguments log {Args}.
Arguments call {Args}.
Arguments fire {Args}.
Arguments Call {Args}.
Arguments Fire {Args}.
Arguments handle {Args}.
Arguments run {Args}.
Arguments init {Args}.
Arguments is_fire {Args}.
Arguments single_timer {Args}.

End debounce.

Module throttle.

Section Closure.

Variable Args : Type.
Variable delay : Z.

Record State := mkState {
  timeoutId : option nat;
  lastExecTime : Z;
  queue : list (Timer Args);
  fresh : nat;
  log : list Args
}.

(** The returned function, called with [a] when [Date.now()] is
    [currentTime]. *)
Definition call (currentTime : Z) (a : Args) (st : State) : State :=
  if delay <? currentTime - lastExecTime st
  then {| timeoutId := timeoutId st;
          lastExecTime := currentTime;
          queue := queue st;
          fresh := fresh st;
          log := log st ++ [a] |}
  else {| timeoutId := Some (fresh st);
          lastExecTime := lastExecTime st;
          queue := clearTimeout (timeoutId st) (queue st)
                   ++ [mkTimer (fresh st)
                         (delay - (currentTime - lastExecTime st)) a];
          fresh := S (fresh st);
          log := log st |}.

(** The host runs the timer with handle [h], if it is pending, when
    [Date.now()] is [now]. *)
Definition fire (now : Z) (h : nat) (st : State) : State :=
  match pending h (queue st) with
  | Some t =>
      {| timeoutId := timeoutId st;
         lastExecTime := now;
         queue := clearTimeout (Some h) (queue st);
         fresh := fresh st;
         log := log st ++ [args t] |}
  | None => st
  end.

Inductive Event :=
| Call (currentTime : Z) (a : Args)
| Fire (now : Z) (h : nat).

Definition handle (e : Event) (st : State) : State :=
  match e with
  | Call currentTime a => call currentTime a st
  | Fire now h => fire now h st
  end.

Definition run (events : list Event) (st : State) : State :=
  fold_left (fun s e => handle e s) events st.

(** [Performance.throttle(func, delay)] has just returned. *)
Definition init : State :=
  {| timeoutId := None; lastExecTime := 0; queue := []; fresh := 1; log := [] |}.

(** The reading of the clock at an event. *)
Definition time_of (e : Event) : Z :=
  match e with Call t _ => t | Fire t _ => t end.

(** The clock never runs backwards during [events] and starts at or
    after [t0]. *)
Fixpoint clock_from (t0 : Z) (events : list Event) : Prop :=
  match events with
  | [] => True
  | e :: later => t0 <= time_of e /\ clock_from (time_of e) later
  end.

(** Nothing is pending, or only the timer [timeoutId] names. *)
Definition single_timer (st : State) : Prop :=
  (1 <= fresh st)%nat
  /\ (queue st = []
      \/ exists h ms a, timeoutId st = Some h /\ (h < fresh st)%nat
                        /\ queue st = [mkTimer h ms a]).

(** The state between two events when the clock reads at least [t]. *)
Definition throttle_inv (t : Z) (st : State) : Prop :=
  single_timer st
  /\ lastExecTime st <= t
  /\ Forall (fun tm => 0 <= timeout tm <= delay) (queue st).

End Closure.

Arguments timeoutId {Args}.
Arguments lastExecTime {Args}.
Arguments queue {Args}.
Arguments fresh {Args}.
Arguments log {Args}.
Arguments call {Args}.
Arguments fire {Args}.
Arguments Call {Args}.
Arguments Fire {Args}.
Arguments handle {Args}.
Arguments run {Args}.
Arguments init {Args}.
Arguments time_of {Args}.
Arguments clock_from {Args}.
Arguments single_timer {Args}.
Arguments throttle_inv {Args}.

End throttle.

End Performance.

(** ** Navigation: the mobile menu and the active link *)

Module Navigation.

Import JS.
Local Open Scope Z_scope.

(** [.navbar-toggle]: its [active] class and its [aria-expanded]
    attribute. *)
Record Toggle := mkToggle {
  toggle_active : bool;
  aria_expanded : option jsstring
}.

(** [.navbar-mobile]: its [active] class and its [aria-hidden]
    attribute. *)
Record Menu := mkMenu {
  menu_active : bool;
  aria_hidden : option jsstring
}.

(** An exception that escaped a listener. *)
Inductive Error := TypeError | SyntaxError.

(** The fields of the instance the menu code reads, [document.body]'s
    [no-scroll] class, the [top] of the last [window.scrollTo] and the
    exceptions that escaped so far. *)
Record State := mkState {
  header : option Z;
  navToggle : option Toggle;
  mobileMenu : option Menu;
  no_scroll : bool;
  isMenuOpen : bool;
  scrolledTo : option Z;
  errors : list Error
}.

Definition with_toggle (st : State) (t : option Toggle) : State :=
  {| header := header st; navToggle := t; mobileMenu := mobileMenu st;
     no_scroll := no_scroll st; isMenuOpen := isMenuOpen st;
     scrolledTo := scrolledTo st; errors := errors st |}.

Definition with_menu (st : State) (m : option Menu) : State :=
  {| header := header st; navToggle := navToggle st; mobileMenu := m;
     no_scroll := no_scroll st; isMenuOpen := isMenuOpen st;
     scrolledTo := scrolledTo st; errors := errors st |}.

Definition with_no_scroll (st : State) (b : bool) : State :=
  {| header := header st; navToggle := navToggle st; mobileMenu := mobileMenu st;
     no_scroll := b; isMenuOpen := isMenuOpen st;
     scrolledTo := scrolledTo st; errors := errors st |}.

Definition with_open (st : State) (b : bool) : State :=
  {| header := header st; navToggle := navToggle st; mobileMenu := mobileMenu st;
     no_scroll := no_scroll st; isMenuOpen := b;
     scrolledTo := scrolledTo st; errors := errors st |}.

Definition with_scroll (st : State) (top : Z) : State :=
  {| header := header st; navToggle := navToggle st; mobileMenu := mobileMenu st;
     no_scroll := no_scroll st; isMenuOpen := isMenuOpen st;
     scrolledTo := Some top; errors := errors st |}.

(** The listener stops with an exception. *)
Definition throw (e : Error) (st : State) : State :=
  {| header := header st; navToggle := navToggle st; mobileMenu := mobileMenu st;
     no_scroll := no_scroll st; isMenuOpen := isMenuOpen st;
     scrolledTo := scrolledTo st; errors := errors st ++ [e] |}.

(** The three [DOM.addClass]/[DOM.removeClass] calls that open
    [openMobileMenu] and [closeMobileMenu]; a missing element is skipped
    ([element?.classList]). *)
Definition set_classes (on : bool) (st : State) : State :=
  let st1 :=
    with_menu st
      (option_map (fun m => {| menu_active := on; aria_hidden := aria_hidden m |})
         (mobileMenu st)) in
  let st2 :=
    with_toggle st1
      (option_map (fun t => {| toggle_active := on;
                               aria_expanded := aria_expanded t |})
         (navToggle st1)) in
  with_no_scroll st2 on.

(** The two [setAttribute] calls and the assignment to [isMenuOpen]. *)
Definition set_attributes (expanded hidden : jsstring) (isOpen : bool) (st : State)
  : State :=
  match navToggle st with
  | None => throw TypeError st
  | Some t =>
      let st1 :=
        with_toggle st
          (Some {| toggle_active := toggle_active t;
                   aria_expanded := Some expanded |}) in
      match mobileMenu st1 with
      | None => throw TypeError st1
      | Some m =>
          with_open
            (with_menu st1
               (Some {| menu_active := menu_active m;
                        aria_hidden := Some hidden |}))
            isOpen
      end
  end.

Definition openMobileMenu (st : State) : State :=
  set_attributes (js "true") (js "false") true (set_classes true st).

Definition closeMobileMenu (st : State) : State :=
  set_attributes (js "false") (js "true") false (set_classes false st).

Definition toggleMobileMenu (st : State) : State :=
  if isMenuOpen st then closeMobileMenu st else openMobileMenu st.

(** What [DOM.query] gives for the link's target: an element with its
    [offsetTop], nothing, or a [SyntaxError] for a selector that is not
    valid. *)
Inductive QueryResult :=
| Found (offsetTop : Z)
| NotFound
| Invalid.

(** [DOM.query(`#${targetId}`)]: the bare [#] is never a valid
    selector; for the others the document decides. *)
Definition query (targetId : jsstring) (document : QueryResult) : QueryResult :=
  match targetId with
  | [] => Invalid
  | _ => document
  end.

Definition scrollToElement (offsetTop : Z) (st : State) : State :=
  let headerHeight := match header st with Some h => h | None => 0 end in
  with_scroll st (offsetTop - headerHeight - 20).

(** [handleNavClick(e)], with [href] the attribute of [e.target]. *)
Definition handleNavClick (href : option jsstring) (document : QueryResult)
    (st : State) : State :=
  match href with
  | Some (c :: targetId) =>
      if c =? chr "#" then
        match query targetId document with
        | Found offsetTop =>
            let st1 := scrollToElement offsetTop st in
            if isMenuOpen st1 then closeMobileMenu st1 else st1
        | NotFound => st
        | Invalid => throw SyntaxError st
        end
      else st
  | _ => st
  end%N.

(** The listener on [document]: a click outside the menu and the toggle
    closes an open menu. *)
Definition handleDocumentClick (inMenu inToggle : bool) (st : State) : State :=
  if isMenuOpen st then
    match mobileMenu st with
    | None => throw TypeError st
    | Some _ =>
        if inMenu then st
        else match navToggle st with
             | None => throw TypeError st
             | Some _ => if inToggle then st else closeMobileMenu st
             end
    end
  else st.

(** A listener of the script a click passes on its way up to
    [document]. *)
Inductive Listener :=
| OnToggle
| OnLink (href : option jsstring) (document : QueryResult).

(** The toggle's listener is only added when both elements exist. *)
Definition listen (l : Listener) (st : State) : State :=
  match l with
  | OnToggle =>
      match navToggle st, mobileMenu st with
      | Some _, Some _ => toggleMobileMenu st
      | _, _ => st
      end
  | OnLink href document => handleNavClick href document st
  end.

(** A click that passes the listeners of [path], innermost first, and
    whose target [mobileMenu] and [navToggle] contain or not; the resize
    listener once its debounce timer ran, with the value of
    [Device.isMobile()]; the Escape key. *)
Inductive Event :=
| Click (path : list Listener) (inMenu inToggle : bool)
| Resize (isMobile : bool)
| Escape.

Definition handle (e : Event) (st : State) : State :=
  match e with
  | Click path inMenu inToggle =>
      handleDocumentClick inMenu inToggle
        (fold_left (fun s l => listen l s) path st)
  | Resize isMobile =>
      if negb isMobile && isMenuOpen st then closeMobileMenu st else st
  | Escape => if isMenuOpen st then closeMobileMenu st else st
  end.

Definition run (events : list Event) (st : State) : State :=
  fold_left (fun s e => handle e s) events st.

(** The constructor's state, whatever the page holds. *)
Definition init (header0 : option Z) (toggle : option Toggle) (menu : option Menu)
    (body_no_scroll : bool) : State :=
  {| header := header0; navToggle := toggle; mobileMenu := menu;
     no_scroll := body_no_scroll; isMenuOpen := false;
     scrolledTo := None; errors := [] |}.

(** The page shows the menu as open ([on = true]) or closed. *)
Definition shows (on : bool) (st : State) : Prop :=
  no_scroll st = on
  /\ (exists t, navToggle st = Some t /\ toggle_active t = on
        /\ aria_expanded t = Some (if on then js "true" else js "false"))
  /\ (exists m, mobileMenu st = Some m /\ menu_active m = on
        /\ aria_hidden m = Some (if on then js "false" else js "true")).

(** An open menu has both elements and shows as open, and no
    [TypeError] has escaped. *)
Definition menu_inv (st : State) : Prop :=
  ~ In TypeError (errors st)
  /\ (isMenuOpen st = true -> shows true st).

(** *** updateActiveLink *)

Record PageSection := mkPageSection {
  id : jsstring;
  offsetTop : Z;
  offsetHeight : Z
}.

(** A [.nav-link]: its [href], its [active] class and its
    [aria-current] attribute. *)
Record Link := mkLink {
  href : option jsstring;
  link_active : bool;
  aria_current : option jsstring
}.

(** [scrollPosition >= sectionTop && scrollPosition < sectionTop +
    sectionHeight] *)
Definition around (scrollPosition : Q) (section : PageSection) : bool :=
  Qle_bool (inject_Z (offsetTop section)) scrollPosition
  && HeroEffects.ltb scrollPosition
       (inject_Z (offsetTop section + offsetHeight section)).

(** The first [forEach]: every section around the position overwrites
    [activeSection]. *)
Definition activeSection (scrollPosition : Q) (sections : list PageSection)
  : jsstring :=
  fold_left (fun active section =>
               if around scrollPosition section then id section else active)
    sections [].

(** The second [forEach]. *)
Definition mark_link (active : jsstring) (link : Link) : Link :=
  match href link with
  | Some h =>
      if streq h (chr "#" :: active)
      then {| href := href link; link_active := true;
              aria_current := Some (js "page") |}
      else {| href := href link; link_active := false; aria_current := None |}
  | None => {| href := href link; link_active := false; aria_current := None |}
  end.

(** [updateActiveLink()], with [scrollPosition] the number its second
    statement computes. *)
Definition updateActiveLink (scrollPosition : Q) (sections : list PageSection)
    (navLinks : list Link) : list Link :=
  map (mark_link (activeSection scrollPosition sections)) navLinks.

End Navigation.
(** * Properties *)

(** ** Binary64 *)

Section Rounding.

Import Binary64.
Local Open Scope Q_scope.

Section Pow2.

Lemma pow2_pos (e : Z) : 0 < pow2 e.
Proof. apply Qpower_0_lt. reflexivity. Qed.

Lemma pow2_add (a b : Z) : pow2 (a + b) == pow2 a * pow2 b.
Proof. apply Qpower_plus. discriminate. Qed.

Lemma pow2_le (a b : Z) : (a <= b)%Z -> pow2 a <= pow2 b.
Proof. intros H. apply Qpower_le_compat_l; [exact H | discriminate]. Qed.

Lemma pow2_lt (a b : Z) : (a < b)%Z -> pow2 a < pow2 b.
Proof. intros H. apply Qpower_lt_compat_l; [exact H | reflexivity]. Qed.

Lemma pow2_lt_inv (a b : Z) : pow2 a < pow2 b -> (a < b)%Z.
Proof.
  intros H. destruct (Z.lt_ge_cases a b) as [Hlt | Hge]; [exact Hlt |].
  apply pow2_le in Hge. lra.
Qed.

Lemma pow2_Z (n : Z) : (0 <= n)%Z -> pow2 n == inject_Z (2 ^ n).
Proof. intros H. unfold pow2. now rewrite Zpower_Qpower. Qed.

Lemma pow2_succ (a : Z) : pow2 (a + 1) == 2 * pow2 a.
Proof. rewrite pow2_add. change (pow2 1) with 2. ring. Qed.

Lemma pow2_pred (a : Z) : pow2 (a - 1) == pow2 a / 2.
Proof.
  assert (H := pow2_succ (a - 1)). replace (a - 1 + 1)%Z with a in H by lia.
  rewrite H. field.
Qed.

End Pow2.

Section Ilog2.

Lemma ilog2_spec (q : Q) : 0 < q -> pow2 (ilog2 q) <= q < pow2 (ilog2 q + 1).
Proof.
  intros Hq. destruct q as [n d].
  assert (Hn : (0 < n)%Z) by (unfold Qlt in Hq; simpl in Hq; lia).
  unfold ilog2. cbn [Qnum Qden].
  destruct (Z.log2_spec n Hn) as [Hn1 Hn2].
  destruct (Z.log2_spec (Zpos d) eq_refl) as [Hd1 Hd2].
  pose proof (Z.log2_nonneg n) as Hln. pose proof (Z.log2_nonneg (Zpos d)) as Hld.
  remember (Z.log2 n) as ln. remember (Z.log2 (Zpos d)) as ld.
  assert (Qn1 : pow2 ln <= inject_Z n)
    by (rewrite pow2_Z by lia; rewrite <- Zle_Qle; exact Hn1).
  assert (Qn2 : inject_Z n < pow2 (ln + 1))
    by (rewrite pow2_Z by lia; rewrite <- Zlt_Qlt; exact Hn2).
  assert (Qd1 : pow2 ld <= inject_Z (Zpos d))
    by (rewrite pow2_Z by lia; rewrite <- Zle_Qle; exact Hd1).
  assert (Qd2 : inject_Z (Zpos d) < pow2 (ld + 1))
    by (rewrite pow2_Z by lia; rewrite <- Zlt_Qlt; exact Hd2).
  assert (E : n # d == inject_Z n / inject_Z (Zpos d)) by apply Qmake_Qdiv.
  assert (Hdpos : 0 < inject_Z (Zpos d)) by reflexivity.
  remember (ln - ld)%Z as c.
  assert (P1 : pow2 (ln + 1) == pow2 (c + 1) * pow2 ld).
  { rewrite <- pow2_add. replace (c + 1 + ld)%Z with (ln + 1)%Z by lia. reflexivity. }
  assert (P2 : pow2 ln == pow2 (c - 1) * pow2 (ld + 1)).
  { rewrite <- pow2_add. replace (c - 1 + (ld + 1))%Z with ln by lia. reflexivity. }
  pose proof (pow2_pos (c + 1)) as Hc1. pose proof (pow2_pos (c - 1)) as Hc2.
  assert (U : n # d < pow2 (c + 1)).
  { rewrite E. apply Qlt_shift_div_r; [exact Hdpos |].
    apply Qlt_le_trans with (pow2 (ln + 1)); [exact Qn2 |].
    rewrite P1. apply Qmult_le_l; assumption. }
  assert (L : pow2 (c - 1) < n # d).
  { rewrite E. apply Qlt_shift_div_l; [exact Hdpos |].
    apply Qlt_le_trans with (pow2 ln); [| exact Qn1].
    rewrite P2. apply Qmult_lt_l; assumption. }
  destruct (Qle_bool (pow2 c) (n # d)) eqn:B.
  - apply Qle_bool_iff in B. split; assumption.
  - assert (Hlt : n # d < pow2 c).
    { apply Qnot_le_lt. intros H. apply Qle_bool_iff in H. congruence. }
    replace (c - 1 + 1)%Z with c by lia. split; [apply Qlt_le_weak; exact L | exact Hlt].
Qed.

Lemma ilog2_unique (q : Q) (a : Z) :
  pow2 a <= q < pow2 (a + 1) -> ilog2 q = a.
Proof.
  intros [H1 H2].
  assert (Hq : 0 < q) by (pose proof (pow2_pos a); lra).
  destruct (ilog2_spec q Hq) as [H3 H4].
  assert (ilog2 q < a + 1)%Z by (apply pow2_lt_inv; lra).
  assert (a < ilog2 q + 1)%Z by (apply pow2_lt_inv; lra).
  lia.
Qed.

Lemma ilog2_comp (q q' : Q) : 0 < q -> q == q' -> ilog2 q = ilog2 q'.
Proof.
  intros Hq E. symmetry. apply ilog2_unique. rewrite <- E. apply ilog2_spec, Hq.
Qed.

End Ilog2.

Section Rne.

Lemma rne_cases (q : Q) :
  let f := Qfloor q in
  inject_Z f <= q < inject_Z f + 1
  /\ ((q - inject_Z f < 1 # 2 /\ rne q = f)
      \/ (1 # 2 < q - inject_Z f /\ rne q = (f + 1)%Z)
      \/ (q - inject_Z f == 1 # 2
          /\ rne q = if Z.even f then f else (f + 1)%Z)).
Proof.
  intros f. split.
  - split; [apply Qfloor_le |].
    pose proof (Qlt_floor q) as H. rewrite inject_Z_plus in H. exact H.
  - unfold rne. fold f.
    destruct (Qcompare_spec (q - inject_Z f) (1 # 2)) as [H | H | H]; auto.
Qed.

Lemma rne_comp (q q' : Q) : q == q' -> rne q = rne q'.
Proof.
  intros E. unfold rne. rewrite (Qfloor_comp _ _ E).
  assert (C : Qcompare (q - inject_Z (Qfloor q')) (1 # 2)
              = Qcompare (q' - inject_Z (Qfloor q')) (1 # 2))
    by (apply Qcompare_comp; [rewrite E |]; reflexivity).
  now rewrite C.
Qed.

Lemma rne_int (z : Z) : rne (inject_Z z) = z.
Proof.
  unfold rne. rewrite Qfloor_Z.
  destruct (Qcompare_spec (inject_Z z - inject_Z z) (1 # 2)) as [H | H | H];
    [lra | reflexivity | lra].
Qed.

Lemma rne_error (q : Q) : Qabs (inject_Z (rne q) - q) <= 1 # 2.
Proof.
  destruct (rne_cases q) as [[Hl Hu] [[H ->] | [[H ->] | [H ->]]]];
    apply Qabs_Qle_condition.
  - lra.
  - rewrite inject_Z_plus. change (inject_Z 1) with 1. lra.
  - destruct (Z.even (Qfloor q));
      [| rewrite inject_Z_plus; change (inject_Z 1) with 1]; lra.
Qed.

Lemma rne_mono (q1 q2 : Q) : q1 <= q2 -> (rne q1 <= rne q2)%Z.
Proof.
  intros H. pose proof (Qfloor_resp_le _ _ H) as Hf.
  destruct (rne_cases q1) as [[Hl1 Hu1] C1], (rne_cases q2) as [[Hl2 Hu2] C2].
  assert (Hr1 : (Qfloor q1 <= rne q1 <= Qfloor q1 + 1)%Z).
  { destruct C1 as [[_ ->] | [[_ ->] | [_ ->]]]; [lia | lia |].
    destruct (Z.even (Qfloor q1)); lia. }
  assert (Hr2 : (Qfloor q2 <= rne q2 <= Qfloor q2 + 1)%Z).
  { destruct C2 as [[_ ->] | [[_ ->] | [_ ->]]]; [lia | lia |].
    destruct (Z.even (Qfloor q2)); lia. }
  destruct (Z.eq_dec (Qfloor q1) (Qfloor q2)) as [E | NE]; [| lia].
  rewrite E in *.
  destruct C1 as [[H1 ->] | [[H1 ->] | [H1 ->]]],
           C2 as [[H2 ->] | [[H2 ->] | [H2 ->]]];
    try lia; try lra; destruct (Z.even (Qfloor q2)); try lia; lra.
Qed.

Lemma Qfloor_opp (q : Q) :
  ~ q == inject_Z (Qfloor q) -> Qfloor (- q) = (- Qfloor q - 1)%Z.
Proof.
  intros NE.
  pose proof (Qfloor_le q) as Hl. pose proof (Qlt_floor q) as Hu.
  pose proof (Qle_ceiling q) as Hc. pose proof (Qceiling_lt q) as Hd.
  unfold Qceiling in Hc, Hd.
  assert (Hlt : inject_Z (Qfloor q) < q).
  { apply Qle_lteq in Hl as [H | H]; [exact H | symmetry in H; contradiction]. }
  assert (H1 : (Qfloor q < - Qfloor (- q))%Z) by (rewrite Zlt_Qlt; lra).
  assert (H2 : (- Qfloor (- q) - 1 < Qfloor q + 1)%Z) by (rewrite Zlt_Qlt; lra).
  lia.
Qed.

Lemma rne_opp (q : Q) : rne (- q) = (- rne q)%Z.
Proof.
  destruct (rne_cases q) as [[Hl Hu] C].
  destruct (Qeq_dec q (inject_Z (Qfloor q))) as [E | NE].
  - rewrite (rne_comp q _ E), rne_int.
    assert (E' : - q == inject_Z (- Qfloor q))
      by (rewrite inject_Z_opp, <- E; reflexivity).
    now rewrite (rne_comp _ _ E'), rne_int.
  - pose proof (Qfloor_opp q NE) as Ef.
    destruct (rne_cases (- q)) as [_ C'].
    rewrite Ef in C'.
    assert (Ei : inject_Z (- Qfloor q - 1) == - inject_Z (Qfloor q) - 1).
    { replace (- Qfloor q - 1)%Z with (- Qfloor q + - 1)%Z by lia.
      rewrite inject_Z_plus, inject_Z_opp. reflexivity. }
    assert (Hev : Z.even (- Qfloor q - 1) = negb (Z.even (Qfloor q))).
    { replace (- Qfloor q - 1)%Z with (- (Qfloor q + 1))%Z by lia.
      rewrite Z.even_opp, Z.even_add. destruct (Z.even (Qfloor q)); reflexivity. }
    rewrite Hev in C'.
    destruct C as [[H1 ->] | [[H1 ->] | [H1 ->]]],
             C' as [[H2 ->] | [[H2 ->] | [H2 ->]]];
      try lra; try lia; destruct (Z.even (Qfloor q)); simpl; lia.
Qed.

Lemma rne_nonneg (q : Q) : 0 <= q -> (0 <= rne q)%Z.
Proof. intros H. rewrite <- (rne_int 0). apply rne_mono. exact H. Qed.

End Rne.

Section RoundAt.

Lemma scale_back (e : Z) (q : Q) : q / pow2 e * pow2 e == q.
Proof. field. pose proof (pow2_pos e). lra. Qed.

Lemma round_at_comp (e : Z) (q q' : Q) : q == q' -> round_at e q == round_at e q'.
Proof.
  intros E. unfold round_at.
  assert (E' : q / pow2 e == q' / pow2 e) by now rewrite E.
  now rewrite (rne_comp _ _ E').
Qed.

Lemma round_at_mono (e : Z) (q1 q2 : Q) :
  q1 <= q2 -> round_at e q1 <= round_at e q2.
Proof.
  intros H. unfold round_at. pose proof (pow2_pos e) as Hp.
  apply Qmult_le_compat_r; [| lra].
  rewrite <- Zle_Qle. apply rne_mono.
  unfold Qdiv. apply Qmult_le_compat_r; [exact H |].
  apply Qlt_le_weak, Qinv_lt_0_compat, Hp.
Qed.

Lemma round_at_grid (e : Z) (z : Z) :
  round_at e (inject_Z z * pow2 e) == inject_Z z * pow2 e.
Proof.
  unfold round_at.
  assert (E : inject_Z z * pow2 e / pow2 e == inject_Z z).
  { field. pose proof (pow2_pos e). lra. }
  now rewrite (rne_comp _ _ E), rne_int.
Qed.

Lemma round_at_opp (e : Z) (q : Q) : round_at e (- q) == - round_at e q.
Proof.
  unfold round_at.
  assert (E : - q / pow2 e == - (q / pow2 e)).
  { field. pose proof (pow2_pos e). lra. }
  rewrite (rne_comp _ _ E), rne_opp, inject_Z_opp. ring.
Qed.

Lemma round_at_error (e : Z) (q : Q) :
  Qabs (round_at e q - q) <= pow2 (e - 1).
Proof.
  unfold round_at. pose proof (pow2_pos e) as Hp.
  pose proof (rne_error (q / pow2 e)) as H.
  assert (E : inject_Z (rne (q / pow2 e)) * pow2 e - q
              == (inject_Z (rne (q / pow2 e)) - q / pow2 e) * pow2 e).
  { field. lra. }
  rewrite E, Qabs_Qmult, (Qabs_pos (pow2 e)) by lra.
  rewrite pow2_pred.
  apply Qle_trans with ((1 # 2) * pow2 e).
  - apply Qmult_le_compat_r; [exact H | lra].
  - apply Qle_lteq. right. field.
Qed.

End RoundAt.

Section Exponent.

Lemma Qabs_nonzero (q : Q) : ~ q == 0 -> 0 < Qabs q.
Proof.
  intros H. pose proof (Qabs_nonneg q) as Hn.
  apply Qle_lteq in Hn as [Hn | Hn]; [exact Hn |].
  exfalso. apply H. symmetry in Hn. revert Hn. apply Qabs_case; intros; lra.
Qed.

Lemma exponent_spec (q : Q) :
  ~ q == 0 ->
  (-1074 <= exponent q)%Z
  /\ Qabs q < pow2 (exponent q + 53)
  /\ ((-1074 < exponent q)%Z -> pow2 (exponent q + 52) <= Qabs q).
Proof.
  intros Hq. destruct (ilog2_spec _ (Qabs_nonzero q Hq)) as [H1 H2].
  unfold exponent.
  destruct (Z.max_spec (-1074) (ilog2 (Qabs q) - 52)) as [[Hlt ->] | [Hle ->]].
  - split; [lia |]. split.
    + replace (ilog2 (Qabs q) - 52 + 53)%Z with (ilog2 (Qabs q) + 1)%Z by lia.
      exact H2.
    + intros _. replace (ilog2 (Qabs q) - 52 + 52)%Z with (ilog2 (Qabs q)) by lia.
      exact H1.
  - split; [lia |]. split; [| lia].
    apply Qlt_le_trans with (pow2 (ilog2 (Qabs q) + 1)); [exact H2 |].
    apply pow2_le. lia.
Qed.

Lemma exponent_unique (q : Q) (e : Z) :
  ~ q == 0 ->
  (-1074 <= e)%Z ->
  Qabs q < pow2 (e + 53) ->
  ((-1074 < e)%Z -> pow2 (e + 52) <= Qabs q) ->
  exponent q = e.
Proof.
  intros Hq He Hu Hl. destruct (exponent_spec q Hq) as (He0 & Hu0 & Hl0).
  destruct (Z.lt_trichotomy (exponent q) e) as [H | [H | H]]; [| exact H |].
  - assert (Hn : (-1074 < e)%Z) by lia. specialize (Hl Hn).
    assert (e + 52 < exponent q + 53)%Z by (apply pow2_lt_inv; lra). lia.
  - assert (Hn : (-1074 < exponent q)%Z) by lia. specialize (Hl0 Hn).
    assert (exponent q + 52 < e + 53)%Z by (apply pow2_lt_inv; lra). lia.
Qed.

Lemma exponent_comp (q q' : Q) : ~ q == 0 -> q == q' -> exponent q = exponent q'.
Proof.
  intros Hq E. unfold exponent. f_equal. f_equal.
  apply ilog2_comp; [apply Qabs_nonzero, Hq | now rewrite E].
Qed.

Lemma exponent_opp (q : Q) : ~ q == 0 -> exponent (- q) = exponent q.
Proof.
  intros Hq. unfold exponent. f_equal. f_equal.
  apply ilog2_comp; [apply Qabs_nonzero; lra | apply Qabs_opp].
Qed.

End Exponent.

Section Round64.

Lemma round64_zero (q : Q) : q == 0 -> round64 q = 0.
Proof. intros H. unfold round64. apply Qeq_bool_iff in H. now rewrite H. Qed.

Lemma round64_nonzero (q : Q) : ~ q == 0 -> round64 q = round_at (exponent q) q.
Proof.
  intros H. unfold round64. destruct (Qeq_bool q 0) eqn:E; [| reflexivity].
  apply Qeq_bool_iff in E. contradiction.
Qed.

Lemma round64_comp (q q' : Q) : q == q' -> round64 q == round64 q'.
Proof.
  intros E. destruct (Qeq_dec q 0) as [Z | NZ].
  - rewrite (round64_zero q Z), (round64_zero q') by (rewrite <- E; exact Z).
    reflexivity.
  - rewrite (round64_nonzero q NZ), (round64_nonzero q') by (rewrite <- E; exact NZ).
    rewrite (exponent_comp q q' NZ E). apply round_at_comp, E.
Qed.

Lemma round64_opp (q : Q) : round64 (- q) == - round64 q.
Proof.
  destruct (Qeq_dec q 0) as [Z | NZ].
  - rewrite (round64_zero q Z), (round64_zero (- q)) by lra. reflexivity.
  - rewrite (round64_nonzero q NZ), (round64_nonzero (- q)) by lra.
    rewrite (exponent_opp q NZ). apply round_at_opp.
Qed.

Lemma round64_nonneg (q : Q) : 0 <= q -> 0 <= round64 q.
Proof.
  intros H. destruct (Qeq_dec q 0) as [Z | NZ].
  - rewrite (round64_zero q Z). lra.
  - rewrite (round64_nonzero q NZ).
    assert (E : 0 == inject_Z 0 * pow2 (exponent q)) by ring.
    rewrite E at 1. rewrite <- (round_at_grid (exponent q) 0).
    apply round_at_mono. rewrite <- E. exact H.
Qed.

Lemma round64_mono_pos (x y : Q) : 0 < x -> x <= y -> round64 x <= round64 y.
Proof.
  intros Hx Hxy.
  assert (NZx : ~ x == 0) by lra. assert (NZy : ~ y == 0) by lra.
  rewrite (round64_nonzero x NZx), (round64_nonzero y NZy).
  destruct (exponent_spec x NZx) as (Hex & Hux & Hlx).
  destruct (exponent_spec y NZy) as (Hey & Huy & Hly).
  rewrite (Qabs_pos x) in Hux, Hlx by lra. rewrite (Qabs_pos y) in Huy, Hly by lra.
  destruct (Z.lt_trichotomy (exponent x) (exponent y)) as [H | [H | H]].
  - assert (Hn : (-1074 < exponent y)%Z) by lia. specialize (Hly Hn).
    set (g := pow2 (exponent y + 52)) in *.
    assert (Hxg : x <= g).
    { apply Qlt_le_weak, Qlt_le_trans with (pow2 (exponent x + 53)); [exact Hux |].
      apply pow2_le. lia. }
    assert (G1 : g == inject_Z (2 ^ (exponent y + 52 - exponent x)) * pow2 (exponent x)).
    { rewrite <- pow2_Z by lia. rewrite <- pow2_add. unfold g.
      replace (exponent y + 52 - exponent x + exponent x)%Z
        with (exponent y + 52)%Z by lia. reflexivity. }
    assert (G2 : g == inject_Z (2 ^ 52) * pow2 (exponent y)).
    { rewrite <- pow2_Z by lia. rewrite <- pow2_add. unfold g.
      replace (52 + exponent y)%Z with (exponent y + 52)%Z by lia. reflexivity. }
    apply Qle_trans with g.
    + rewrite G1. rewrite <- round_at_grid. apply round_at_mono.
      rewrite <- G1. exact Hxg.
    + rewrite G2. rewrite <- round_at_grid. apply round_at_mono.
      rewrite <- G2. exact Hly.
  - rewrite H. apply round_at_mono, Hxy.
  - assert (Hn : (-1074 < exponent x)%Z) by lia. specialize (Hlx Hn).
    assert (pow2 (exponent y + 53) <= pow2 (exponent x + 52)) by (apply pow2_le; lia).
    lra.
Qed.

Theorem round64_mono (x y : Q) : x <= y -> round64 x <= round64 y.
Proof.
  intros H. destruct (Qlt_le_dec 0 x) as [Hx | Hx].
  - apply round64_mono_pos; assumption.
  - destruct (Qlt_le_dec y 0) as [Hy | Hy].
    + assert (Ho : round64 (- y) <= round64 (- x)) by (apply round64_mono_pos; lra).
      rewrite !round64_opp in Ho. lra.
    + pose proof (round64_nonneg y Hy) as H1.
      assert (H2 : 0 <= round64 (- x)) by (apply round64_nonneg; lra).
      rewrite round64_opp in H2. lra.
Qed.

End Round64.

Section Representable.

Lemma pow2_le_inv (a b : Z) : pow2 a <= pow2 b -> (a <= b)%Z.
Proof.
  intros H. destruct (Z.le_gt_cases a b) as [Hle | Hgt]; [exact Hle |].
  apply pow2_lt in Hgt. lra.
Qed.

Lemma round64_idem_pos (q : Q) : 0 < q -> round64 (round64 q) == round64 q.
Proof.
  intros Hq. assert (NZ : ~ q == 0) by lra.
  destruct (exponent_spec q NZ) as (He & Hu & Hl).
  rewrite (Qabs_pos q) in Hu, Hl by lra.
  rewrite (round64_nonzero q NZ).
  remember (exponent q) as e. pose proof (pow2_pos e) as Hp.
  unfold round_at. remember (rne (q / pow2 e)) as m.
  assert (Hs : 0 <= q / pow2 e).
  { apply Qle_shift_div_l; [exact Hp | lra]. }
  assert (Hm0 : (0 <= m)%Z) by (subst m; apply rne_nonneg, Hs).
  assert (Hm1 : (m <= 2 ^ 53)%Z).
  { subst m. rewrite <- (rne_int (2 ^ 53)). apply rne_mono.
    apply Qle_shift_div_r; [exact Hp |].
    rewrite <- pow2_Z by lia. rewrite <- pow2_add.
    replace (53 + e)%Z with (e + 53)%Z by lia. lra. }
  assert (Hm2 : (-1074 < e)%Z -> (2 ^ 52 <= m)%Z).
  { intros Hn. subst m. rewrite <- (rne_int (2 ^ 52)). apply rne_mono.
    apply Qle_shift_div_l; [exact Hp |].
    rewrite <- pow2_Z by lia. rewrite <- pow2_add.
    replace (52 + e)%Z with (e + 52)%Z by lia. auto. }
  destruct (Z.eq_dec m 0%Z) as [M0 | M0].
  { rewrite M0. assert (E : inject_Z 0 * pow2 e == 0) by ring.
    rewrite (round64_comp _ _ E), E. reflexivity. }
  assert (Hr : 0 < inject_Z m * pow2 e).
  { apply Qmult_lt_0_compat; [| exact Hp].
    change 0 with (inject_Z 0). rewrite <- Zlt_Qlt. lia. }
  assert (NZr : ~ inject_Z m * pow2 e == 0) by lra.
  rewrite (round64_nonzero _ NZr).
  destruct (Z.eq_dec m (2 ^ 53)%Z) as [M | M].
  - assert (Er : inject_Z m * pow2 e == inject_Z (2 ^ 52) * pow2 (e + 1)).
    { rewrite M, <- !pow2_Z by lia. rewrite <- !pow2_add.
      replace (53 + e)%Z with (52 + (e + 1))%Z by lia. reflexivity. }
    assert (Ex : exponent (inject_Z m * pow2 e) = (e + 1)%Z).
    { apply exponent_unique; [exact NZr | lia | |]; rewrite Qabs_pos by lra; rewrite Er.
      - rewrite <- pow2_Z by lia. rewrite <- pow2_add.
        apply pow2_lt. lia.
      - intros _. rewrite <- pow2_Z by lia. rewrite <- pow2_add.
        apply pow2_le. lia. }
    rewrite Ex, (round_at_comp _ _ _ Er), round_at_grid. symmetry. exact Er.
  - assert (Ex : exponent (inject_Z m * pow2 e) = e).
    { apply exponent_unique; [exact NZr | lia | |]; rewrite Qabs_pos by lra.
      - rewrite pow2_add, (Qmult_comm (pow2 e)).
        apply Qmult_lt_compat_r; [exact Hp |].
        rewrite pow2_Z by lia. rewrite <- Zlt_Qlt. lia.
      - intros Hn. rewrite pow2_add, (Qmult_comm (pow2 e)).
        apply Qmult_le_compat_r; [| lra].
        rewrite pow2_Z by lia. rewrite <- Zle_Qle. auto. }
    rewrite Ex. apply round_at_grid.
Qed.

Theorem round64_idem (q : Q) : round64 (round64 q) == round64 q.
Proof.
  destruct (Qlt_le_dec 0 q) as [Hp | Hn]; [apply round64_idem_pos, Hp |].
  destruct (Qeq_dec q 0) as [Z | NZ].
  - rewrite (round64_zero q Z). reflexivity.
  - assert (Hq : 0 < - q) by lra.
    assert (E : round64 q == - round64 (- q)).
    { rewrite <- round64_opp. apply round64_comp. ring. }
    rewrite (round64_comp _ _ E), round64_opp, (round64_idem_pos _ Hq), E.
    reflexivity.
Qed.

Theorem round64_error (q : Q) (k : Z) :
  (-1022 <= k)%Z -> Qabs q <= pow2 k -> Qabs (round64 q - q) <= pow2 (k - 53).
Proof.
  intros Hk Hq. destruct (Qeq_dec q 0) as [Z | NZ].
  - rewrite (round64_zero q Z).
    assert (E : 0 - q == 0) by lra. rewrite E. simpl.
    apply Qlt_le_weak, pow2_pos.
  - rewrite (round64_nonzero q NZ).
    destruct (exponent_spec q NZ) as (He & Hu & Hl).
    apply Qle_trans with (pow2 (exponent q - 1)); [apply round_at_error |].
    apply pow2_le.
    destruct (Z.eq_dec (exponent q) (-1074)%Z) as [E | NE]; [lia |].
    assert (Hn : (-1074 < exponent q)%Z) by lia. specialize (Hl Hn).
    assert (exponent q + 52 <= k)%Z by (apply pow2_le_inv; lra). lia.
Qed.

Lemma binary64_round64 (q : Q) : binary64 (round64 q).
Proof. apply round64_idem. Qed.

Lemma binary64_opp (q : Q) : binary64 q -> binary64 (- q).
Proof. unfold binary64. intros H. rewrite round64_opp, H. reflexivity. Qed.

Lemma binary64_comp (q q' : Q) : q == q' -> binary64 q -> binary64 q'.
Proof. unfold binary64. intros E H. rewrite <- E at 2. rewrite <- H. apply round64_comp. now symmetry. Qed.

Lemma round64_ge (a q : Q) : binary64 a -> a <= q -> a <= round64 q.
Proof.
  unfold binary64. intros Ha H. pose proof (round64_mono a q H). lra.
Qed.

Lemma round64_le (a q : Q) : binary64 a -> q <= a -> round64 q <= a.
Proof.
  unfold binary64. intros Ha H. pose proof (round64_mono q a H). lra.
Qed.

End Representable.

End Rounding.

(** ** HeroEffects *)

Section Particles.

Import Binary64 HeroEffects.
Local Open Scope Q_scope.

Lemma ltb_lt (a b : Q) : ltb a b = true <-> a < b.
Proof.
  unfold ltb. rewrite negb_true_iff.
  destruct (Qle_bool b a) eqn:E.
  - apply Qle_bool_iff in E. split; [discriminate | intros H; exfalso; lra].
  - split; [intros _ | reflexivity].
    apply Qnot_le_lt. intros H. apply Qle_bool_iff in H. congruence.
Qed.

Lemma ltb_ge (a b : Q) : ltb a b = false <-> b <= a.
Proof.
  unfold ltb. rewrite negb_false_iff. apply Qle_bool_iff.
Qed.

Lemma Qabs_eq_cases (a b : Q) : Qabs a == Qabs b -> a == b \/ a == - b.
Proof.
  revert a b. intros a b. apply (Qabs_case a); apply (Qabs_case b); intros; lra.
Qed.

Lemma binary64_abs (q : Q) : binary64 q -> binary64 (Qabs q).
Proof.
  intros H. apply (Qabs_case q); intros _; [exact H | apply binary64_opp, H].
Qed.

(** [speed * -1] is exact. *)
Lemma fmul_neg1 (speed : Q) : binary64 speed -> fmul speed (-1) == - speed.
Proof.
  intros H. unfold fmul.
  assert (E : speed * -1 == - speed) by ring.
  rewrite (round64_comp _ _ E), round64_opp. unfold binary64 in H. rewrite H.
  reflexivity.
Qed.

(** A coordinate on the canvas satisfies the axis invariant for its own
    speed. *)
Lemma axis_inv_start (limit pos speed : Q) :
  binary64 limit -> 0 <= pos <= limit -> axis_inv limit speed pos speed.
Proof.
  intros Bl [H0 H1]. pose proof (Qabs_nonneg speed) as Ha.
  assert (Hu : limit <= fadd limit (Qabs speed)) by (apply round64_ge; [exact Bl | lra]).
  repeat split; try lra; intros; lra.
Qed.

(** One update of one axis keeps the invariant; a coordinate beyond
    [limit] needs the step back to land on the range. *)
Lemma axis_inv_step (limit speed0 pos speed : Q) :
  0 <= limit -> binary64 limit -> binary64 speed0 ->
  (limit < pos -> steps_back limit speed0) ->
  axis_inv limit speed0 pos speed ->
  axis_inv limit speed0 (fadd pos speed)
    (if ltb (fadd pos speed) 0 || ltb limit (fadd pos speed)
     then fmul speed (-1) else speed).
Proof.
  intros Hl Bl Bs Hback (Habs & [Hlo Hhi] & Hin & Hout).
  pose proof (Qabs_nonneg speed0) as Hnn.
  pose proof (binary64_abs _ Bs) as Ba.
  pose proof (binary64_opp _ Ba) as Bna.
  assert (Bsp : binary64 speed).
  { destruct (Qabs_eq_cases _ _ Habs) as [E | E]; symmetry in E.
    - exact (binary64_comp _ _ E Bs).
    - exact (binary64_comp _ _ E (binary64_opp _ Bs)). }
  pose proof (fmul_neg1 speed Bsp) as Eflip.
  assert (Hs : - Qabs speed0 <= speed <= Qabs speed0).
  { rewrite <- Habs. split.
    - pose proof (Qle_Qabs (- speed)) as H. rewrite Qabs_opp in H. lra.
    - apply Qle_Qabs. }
  assert (Hneg : speed < 0 -> speed == - Qabs speed0).
  { intros H. rewrite <- Habs. rewrite Qabs_neg; lra. }
  assert (Hpos : 0 < speed -> speed == Qabs speed0).
  { intros H. rewrite <- Habs. rewrite Qabs_pos; lra. }
  assert (Hflip : Qabs (fmul speed (-1)) == Qabs speed0).
  { rewrite Eflip, Qabs_opp. exact Habs. }
  assert (L : - Qabs speed0 <= fadd pos speed).
  { apply round64_ge; [exact Bna |].
    destruct (Qlt_le_dec pos 0) as [Hp | Hp]; [specialize (Hpos (Hin Hp)) |]; lra. }
  assert (U : fadd pos speed <= fadd limit (Qabs speed0)).
  { destruct (Qlt_le_dec limit pos) as [Hp | Hp].
    - specialize (Hout Hp).
      apply Qle_trans with (round64 (fadd limit (Qabs speed0))).
      + apply round64_mono. lra.
      + unfold fadd at 1. rewrite round64_idem. apply Qle_refl.
    - apply round64_mono. lra. }
  assert (D1 : 0 <= speed -> 0 <= fadd pos speed).
  { intros H. apply round64_nonneg.
    destruct (Qlt_le_dec pos 0) as [Hp | Hp]; [specialize (Hpos (Hin Hp)) |]; lra. }
  assert (D2 : speed <= 0 -> fadd pos speed <= limit).
  { intros H. destruct (Qlt_le_dec limit pos) as [Hp | Hp].
    - specialize (Hneg (Hout Hp)). specialize (Hback Hp). unfold steps_back in Hback.
      apply Qle_trans with (fsub (fadd limit (Qabs speed0)) (Qabs speed0));
        [| exact Hback].
      apply round64_mono. lra.
    - apply round64_le; [exact Bl | lra]. }
  destruct (ltb (fadd pos speed) 0) eqn:E0; simpl.
  - apply ltb_lt in E0.
    assert (speed < 0).
    { destruct (Qlt_le_dec speed 0) as [Hp | Hp]; [exact Hp |]. specialize (D1 Hp). lra. }
    split; [exact Hflip |]. repeat split; try lra; intros; lra.
  - apply ltb_ge in E0. destruct (ltb limit (fadd pos speed)) eqn:E1.
    + apply ltb_lt in E1.
      assert (0 < speed).
      { destruct (Qlt_le_dec 0 speed) as [Hp | Hp]; [exact Hp |]. specialize (D2 Hp). lra. }
      split; [exact Hflip |]. repeat split; try lra; intros; lra.
    + apply ltb_ge in E1.
      split; [exact Habs |]. repeat split; try lra; intros; lra.
Qed.

Lemma within_one_step_start (canvas : Canvas) (p : Particle) :
  binary64 (width canvas) -> binary64 (height canvas) ->
  on_canvas canvas p -> within_one_step canvas p p.
Proof.
  intros Bw Bh [Hx Hy].
  split; [| split; [| split; reflexivity]]; apply axis_inv_start; assumption.
Qed.

Lemma within_one_step_update (canvas : Canvas) (p0 p : Particle) :
  0 <= width canvas -> 0 <= height canvas ->
  binary64 (width canvas) -> binary64 (height canvas) ->
  binary64_speeds p0 ->
  (width canvas < x p -> steps_back (width canvas) (speedX p0)) ->
  (height canvas < y p -> steps_back (height canvas) (speedY p0)) ->
  within_one_step canvas p0 p ->
  within_one_step canvas p0 (updateParticle canvas p).
Proof.
  intros Hw Hh Bw Bh [Bx By] Rx Ry (Hx & Hy & Hs & Ho).
  split; [| split; [| split]]; cbn [updateParticle x y speedX speedY size opacity].
  - apply axis_inv_step; assumption.
  - apply axis_inv_step; assumption.
  - exact Hs.
  - exact Ho.
Qed.

Lemma within_one_step_updates (canvas : Canvas) (n : nat) :
  0 <= width canvas -> 0 <= height canvas ->
  binary64 (width canvas) -> binary64 (height canvas) ->
  forall ps0 ps,
    Forall binary64_speeds ps0 ->
    Forall (returns canvas) ps0 ->
    Forall2 (within_one_step canvas) ps0 ps ->
    Forall2 (within_one_step canvas) ps0 (updates n canvas ps).
Proof.
  intros Hw Hh Bw Bh. induction n as [| n IH]; intros ps0 ps Hb Hr H; simpl.
  - exact H.
  - apply IH; [exact Hb | exact Hr |]. unfold updateParticles.
    induction H as [| p0 p ps0 ps Hp H IH2]; simpl; constructor.
    + apply Forall_inv in Hb. apply Forall_inv in Hr. destruct Hr as [Rx Ry].
      apply within_one_step_update; auto.
    + apply IH2; [eapply Forall_inv_tail; eassumption
                 | eapply Forall_inv_tail; eassumption].
Qed.

End Particles.

Section ParticleClaims.

Import Binary64 HeroEffects.
Local Open Scope Q_scope.




(** The bound is the rounded sum.  On a canvas 800 wide, the particle
    at x = 799.8215686989915 with speedX = 0.17843130100840632 is at 800
    after one update and at 800.1784313010085 after two: that is
    [800 + speedX] as binary64 adds them, and more than the exact sum. *)
Lemma rounded_sum_is_reached :
  let canvas := mkCanvas 800 600 in
  let speed := 1607166281465383 # 9007199254740992 in
  let p := mkParticle (439706557465291 # 549755813888) 300 2 speed 0 (1 # 2) in
  map (fun q => Qred (x q)) (updates 1 canvas [p]) = [800]
  /\ map (fun q => Qred (x q)) (updates 2 canvas [p])
     = [439902744755509 # 549755813888]
  /\ (439902744755509 # 549755813888) == fadd 800 speed
  /\ 800 + speed < 439902744755509 # 549755813888.
Proof.
  cbv zeta. repeat split; vm_compute; reflexivity.
Qed.

(** Without the condition on the step back the many-step part fails.
    On a canvas of width 7.901294125894206 a particle on the right edge
    with speedX = 0.22585678818659383 is at 8.1271509140808 after one
    update and one unit in the last place above the width after two,
    where its speed is reversed again: it is off the canvas moving away
    from it, and alternates between these two places from then on. *)
Lemma rounding_can_strand_particle :
  let w := 8896066320280459 # 1125899906842624 in
  let canvas := mkCanvas w 100 in
  let speed := 1017168547116241 # 4503599627370496 in
  let p := mkParticle w 50 2 speed 0 (1 # 2) in
  on_canvas canvas p
  /\ ~ returns canvas p
  /\ Forall (fun q => w < x q /\ 0 < speedX q) (updates 2 canvas [p])
  /\ map (fun q => Qred (x q)) (updates 4 canvas [p])
     = map (fun q => Qred (x q)) (updates 2 canvas [p])
  /\ Forall (fun q => w < x q) (updates 3 canvas [p]).
Proof.
  cbv zeta. split; [| split; [| split; [| split]]].
  - repeat split; vm_compute; discriminate.
  - intros [H _]. vm_compute in H. apply H. reflexivity.
  - repeat constructor; vm_compute; reflexivity.
  - vm_compute. reflexivity.
  - repeat constructor; vm_compute; reflexivity.
Qed.

End ParticleClaims.

Section Counter.

Import Binary64 HeroEffects.
Local Open Scope Q_scope.

Lemma binary64_1 : binary64 1.
Proof. reflexivity. Qed.

Lemma binary64_2000 : binary64 2000.
Proof. reflexivity. Qed.

Lemma binary64_100 : binary64 100.
Proof. reflexivity. Qed.

Lemma fsub_mono_l (a b c : Q) : a <= b -> fsub a c <= fsub b c.
Proof. intros H. apply round64_mono. lra. Qed.

Lemma fsub_mono_r (a b c : Q) : a <= b -> fsub c b <= fsub c a.
Proof. intros H. apply round64_mono. lra. Qed.

Lemma fdiv_duration_mono (a b : Q) : a <= b -> fdiv a duration <= fdiv b duration.
Proof.
  intros H. apply round64_mono. unfold Qdiv, duration.
  apply Qmult_le_compat_r; [exact H | vm_compute; discriminate].
Qed.

Lemma progress_le_1 (startTime t : Q) : progress startTime t <= 1.
Proof. unfold progress. apply Q.le_min_r. Qed.

Lemma progress_mono (startTime t1 t2 : Q) :
  t1 <= t2 -> progress startTime t1 <= progress startTime t2.
Proof.
  intros H. unfold progress.
  apply Q.min_le_compat_r, fdiv_duration_mono, fsub_mono_l, H.
Qed.

(** Once the duration has elapsed the progress is exactly 1. *)
Lemma progress_complete (startTime t : Q) :
  startTime + duration <= t -> progress startTime t == 1.
Proof.
  intros H. unfold progress. apply Q.min_r.
  apply round64_ge; [exact binary64_1 |].
  assert (He : duration <= fsub t startTime).
  { apply round64_ge; [exact binary64_2000 | lra]. }
  unfold duration in *. apply Qle_shift_div_l; lra.
Qed.

Section Engine.

Variable pow : Q -> Q -> Q.
Hypothesis Hpow : pow_spec pow.

Lemma easeOutQuart_mono (p1 p2 : Q) :
  p1 <= p2 -> p2 <= 1 -> easeOutQuart pow p1 <= easeOutQuart pow p2.
Proof using Hpow.
  intros H12 H2. destruct Hpow as (_ & _ & Hmono & _).
  unfold easeOutQuart. apply fsub_mono_r, Hmono.
  - apply round64_nonneg. lra.
  - apply fsub_mono_r, H12.
Qed.

Lemma easeOutQuart_1 (p : Q) : p == 1 -> easeOutQuart pow p == 1.
Proof using Hpow.
  intros H. destruct Hpow as (Hcomp & H0 & _).
  unfold easeOutQuart.
  assert (E1 : fsub 1 p == 0).
  { unfold fsub. assert (E : 1 - p == 0) by lra.
    rewrite (round64_comp _ _ E). reflexivity. }
  assert (E2 : 1 - pow (fsub 1 p) 4 == 1) by (rewrite (Hcomp _ _ E1), H0; ring).
  unfold fsub at 1. rewrite (round64_comp _ _ E2). reflexivity.
Qed.

Lemma current_mono (target : Z) (p1 p2 : Q) :
  (0 <= target)%Z -> p1 <= p2 -> p2 <= 1 ->
  (current pow target p1 <= current pow target p2)%Z.
Proof using Hpow.
  intros Ht H12 H2. unfold current. apply Qfloor_resp_le, round64_mono.
  apply Qmult_le_compat_r; [apply easeOutQuart_mono; assumption |].
  apply round64_nonneg. change 0 with (inject_Z 0). rewrite <- Zle_Qle. exact Ht.
Qed.

Lemma frameValue_mono (target : Z) (startTime t1 t2 : Q) :
  (0 <= target)%Z -> t1 <= t2 ->
  (frameValue pow target startTime t1 <= frameValue pow target startTime t2)%Z.
Proof using Hpow.
  intros Ht H. unfold frameValue.
  apply current_mono; auto using progress_mono, progress_le_1.
Qed.

Lemma frameValue_complete (target : Z) (startTime t : Q) :
  binary64 (inject_Z target) ->
  progress startTime t == 1 -> frameValue pow target startTime t = target.
Proof using Hpow.
  intros Bt H. unfold frameValue, current.
  rewrite <- (Qfloor_Z target) at 2. apply Qfloor_comp.
  unfold fmul.
  assert (E : easeOutQuart pow (progress startTime t) * round64 (inject_Z target)
              == inject_Z target).
  { rewrite (easeOutQuart_1 _ H). unfold binary64 in Bt. rewrite Bt. ring. }
  rewrite (round64_comp _ _ E). exact Bt.
Qed.

(** Every number a run writes is the value of one of its frames. *)
Lemma animate_values (target : Z) (startTime : Q) (frames : list Q) (v : Z) :
  In v (animate pow target startTime frames) ->
  exists t, In t frames /\ v = frameValue pow target startTime t.
Proof.
  induction frames as [| t later IH]; simpl; [tauto |].
  intros [<- | H]; [eauto |].
  destruct (ltb (progress startTime t) 1); [| destruct H].
  destruct (IH H) as (t' & Ht' & ->). eauto.
Qed.

Lemma animate_sorted (target : Z) (startTime : Q) (frames : list Q) :
  (0 <= target)%Z ->
  StronglySorted Qle frames ->
  StronglySorted Z.le (animate pow target startTime frames).
Proof using Hpow.
  intros Ht H. induction H as [| t later Hs IH Hall]; simpl; constructor.
  - destruct (ltb (progress startTime t) 1); [exact IH | constructor].
  - apply List.Forall_forall. intros v Hv.
    destruct (ltb (progress startTime t) 1); [| destruct Hv].
    apply animate_values in Hv as (t' & Ht' & ->).
    apply frameValue_mono; [exact Ht |].
    rewrite List.Forall_forall in Hall. auto.
Qed.

(** A run whose frames reach the end of the duration stops on the first
    frame at progress 1, and the number written there is the target. *)
Lemma animate_last (target : Z) (startTime : Q) (frames : list Q) :
  binary64 (inject_Z target) ->
  Exists (fun t => startTime + duration <= t) frames ->
  last (animate pow target startTime frames) = Some target.
Proof using Hpow.
  intros Bt. induction frames as [| t later IH]; intros H.
  - inversion H.
  - simpl animate. destruct (ltb (progress startTime t) 1) eqn:E.
    + apply ltb_lt in E.
      assert (Hl : Exists (fun t => startTime + duration <= t) later).
      { inversion H as [? ? Ht | ? ? Hl]; subst; [| exact Hl].
        apply progress_complete in Ht. lra. }
      specialize (IH Hl).
      destruct (animate pow target startTime later) eqn:Ea.
      * destruct later as [| t' later']; [inversion Hl | simpl in Ea; discriminate].
      * exact IH.
    + apply ltb_ge in E. simpl. f_equal. apply frameValue_complete; [exact Bt |].
      apply Qle_antisym; [apply progress_le_1 | exact E].
Qed.

End Engine.

End Counter.

Section CounterAccuracy.

Import Binary64 HeroEffects.
Local Open Scope Q_scope.

Lemma pow4_eq (q : Q) : q ^ 4 == (q * q) * (q * q).
Proof. simpl. ring. Qed.

Lemma pow4_lipschitz (a b : Q) :
  0 <= a <= 1 -> 0 <= b <= 1 -> Qabs (a ^ 4 - b ^ 4) <= 4 * Qabs (a - b).
Proof.
  intros Ha Hb.
  assert (E : a ^ 4 - b ^ 4 == (a - b) * ((a + b) * (a * a + b * b))).
  { rewrite !pow4_eq. ring. }
  rewrite E, Qabs_Qmult.
  assert (Haa : 0 <= a * a <= 1) by nra.
  assert (Hbb : 0 <= b * b <= 1) by nra.
  assert (Hc : 0 <= (a + b) * (a * a + b * b) <= 4) by nra.
  rewrite (Qabs_pos ((a + b) * (a * a + b * b))) by lra.
  pose proof (Qabs_nonneg (a - b)) as Hn.
  nra.
Qed.

Lemma pow4_unit (a : Q) : 0 <= a <= 1 -> 0 <= a ^ 4 <= 1.
Proof.
  intros Ha. rewrite pow4_eq. assert (Haa : 0 <= a * a <= 1) by nra. nra.
Qed.

Lemma pow4_mono (a b : Q) : 0 <= a -> a <= b -> a ^ 4 <= b ^ 4.
Proof.
  intros Ha Hab. rewrite !pow4_eq.
  assert (H1 : a * a <= b * b) by nra.
  assert (H0 : 0 <= a * a) by nra. nra.
Qed.

(** Rounding a number of magnitude at most [2 ^ k] moves it by at most
    [2 ^ (k - 53)], read as bounds. *)
Lemma round64_near (q : Q) (k : Z) :
  (-1022 <= k)%Z -> - pow2 k <= q <= pow2 k ->
  - pow2 (k - 53) <= round64 q - q <= pow2 (k - 53).
Proof.
  intros Hk Hq. apply Qabs_Qle_condition, round64_error; [exact Hk |].
  apply Qabs_Qle_condition. exact Hq.
Qed.

(** The number whose floor the frame writes is within [2 ^ -41] of
    [100 * (1 - (1 - progress) ^ 4)]. *)
Lemma eased_accurate (pow : Q -> Q -> Q) (elapsed : Q) :
  pow_spec pow -> 0 <= elapsed ->
  let p := Qmin (fdiv elapsed duration) 1 in
  let written := fmul (easeOutQuart pow p) (round64 (inject_Z 100)) in
  - pow2 (-41) <= written - eased 100 elapsed <= pow2 (-41).
Proof.
  intros (_ & _ & _ & Hacc) Hel p written.
  assert (K0 : pow2 0 == 1) by reflexivity.
  assert (K1 : pow2 1 == 2) by reflexivity.
  assert (K7 : pow2 7 == 128) by reflexivity.
  assert (K53 : pow2 (0 - 53) == 1 # 9007199254740992) by reflexivity.
  assert (K52 : pow2 (1 - 53) == 1 # 4503599627370496) by reflexivity.
  assert (K52' : pow2 (-52) == 1 # 4503599627370496) by reflexivity.
  assert (K46 : pow2 (7 - 53) == 1 # 70368744177664) by reflexivity.
  assert (K41 : pow2 (-41) == 1 # 2199023255552) by reflexivity.
  set (p0 := elapsed / 2000).
  assert (Hp0 : 0 <= p0).
  { unfold p0. apply Qle_shift_div_l; lra. }
  assert (S1 : 0 <= p <= 1
               /\ - (1 # 9007199254740992) <= p - Qmin p0 1 <= 1 # 9007199254740992).
  { unfold p, fdiv, duration. fold p0.
    destruct (Qlt_le_dec 1 p0) as [Hb | Hs].
    - assert (H1 : 1 <= round64 p0) by (apply round64_ge; [exact binary64_1 | lra]).
      rewrite (Q.min_r _ _ H1), (Q.min_r p0 1) by lra. lra.
    - pose proof (round64_near p0 0 ltac:(lia) ltac:(lra)) as He.
      assert (H1 : round64 p0 <= 1) by (apply round64_le; [exact binary64_1 | exact Hs]).
      pose proof (round64_nonneg p0 Hp0) as H0.
      rewrite (Q.min_l _ _ H1), (Q.min_l p0 1) by lra. lra. }
  destruct S1 as [Hp He1].
  assert (Hpe : 0 <= Qmin p0 1 <= 1).
  { split; [apply Q.min_glb; lra | apply Q.le_min_r]. }
  set (u := fsub 1 p).
  assert (Hu : 0 <= u <= 1).
  { unfold u, fsub. split; [apply round64_nonneg; lra |].
    apply round64_le; [exact binary64_1 | lra]. }
  pose proof (round64_near (1 - p) 0 ltac:(lia) ltac:(lra)) as He2.
  fold (fsub 1 p) in He2. fold u in He2.
  set (ue := 1 - Qmin p0 1).
  assert (Hue : 0 <= ue <= 1) by (unfold ue; lra).
  pose proof (pow4_lipschitz u ue Hu Hue) as Hlip.
  assert (Hd : Qabs (u - ue) <= 1 # 4503599627370496).
  { apply Qabs_Qle_condition. unfold ue. lra. }
  apply Qabs_Qle_condition in Hlip.
  pose proof (pow4_unit u Hu) as Hu4.
  pose proof (Hacc u Hu) as Hw. apply Qabs_Qle_condition in Hw.
  set (w := pow u 4) in *.
  pose proof (round64_near (1 - w) 1 ltac:(lia) ltac:(lra)) as He3.
  fold (fsub 1 w) in He3.
  change (fsub 1 w) with (easeOutQuart pow p) in He3.
  set (ease := easeOutQuart pow p) in *.
  assert (ET : round64 (inject_Z 100) == 100) by reflexivity.
  assert (Hprod : - (128) <= ease * round64 (inject_Z 100) <= 128).
  { rewrite ET. lra. }
  pose proof (round64_near (ease * round64 (inject_Z 100)) 7 ltac:(lia) ltac:(lra)) as He4.
  fold (fmul ease (round64 (inject_Z 100))) in He4. fold written in He4.
  rewrite ET in He4.
  assert (Ev : eased 100 elapsed == 100 * (1 - ue ^ 4)).
  { unfold eased, ue, p0. reflexivity. }
  rewrite Ev.
  set (u4 := u ^ 4) in *. set (ue4 := ue ^ 4) in *.
  lra.
Qed.

Lemma pow_rounded_spec : pow_spec pow_rounded.
Proof.
  unfold pow_spec, pow_rounded. change (Qfloor 4) with 4%Z.
  split; [| split; [| split]].
  - intros a b E. apply round64_comp. now rewrite E.
  - reflexivity.
  - intros a b Ha Hab. apply round64_mono, pow4_mono; assumption.
  - intros a Ha. pose proof (pow4_unit a Ha) as H4.
    apply Qle_trans with (pow2 (0 - 53)).
    + apply round64_error; [lia |]. apply Qabs_Qle_condition.
      change (pow2 0) with 1. lra.
    + apply pow2_le. lia.
Qed.

End CounterAccuracy.

Section CounterClaim.

Import Binary64 HeroEffects.
Local Open Scope Q_scope.



End CounterClaim.
(** ** Testimonials *)

Section Carousel.

Import Testimonials.
Local Open Scope Z_scope.

Lemma mark_length (index : Z) (elements : list bool) :
  length (mark index elements) = length elements.
Proof. unfold mark. apply length_imap. Qed.

Lemma updateCarousel_index (st : State) :
  currentIndex (updateCarousel st) = currentIndex st.
Proof. reflexivity. Qed.

Lemma updateCarousel_cards_length (st : State) :
  cards_length (updateCarousel st) = cards_length st.
Proof. unfold cards_length. simpl. now rewrite mark_length. Qed.

Lemma next_cards_length (st : State) : cards_length (next st) = cards_length st.
Proof. unfold next. now rewrite updateCarousel_cards_length. Qed.

Lemma prev_cards_length (st : State) : cards_length (prev st) = cards_length st.
Proof. unfold prev. now rewrite updateCarousel_cards_length. Qed.

Lemma goTo_cards_length (i : Z) (st : State) :
  cards_length (goTo i st) = cards_length st.
Proof. unfold goTo. now rewrite updateCarousel_cards_length. Qed.

Lemma next_index (st : State) :
  currentIndex (next st)
  = if currentIndex st =? cards_length st - 1 then 0 else currentIndex st + 1.
Proof. reflexivity. Qed.

Lemma prev_index (st : State) :
  currentIndex (prev st)
  = if currentIndex st =? 0 then cards_length st - 1 else currentIndex st - 1.
Proof. reflexivity. Qed.

(** On an index in range, [next] is the successor modulo the card count. *)
Lemma next_index_mod (st : State) :
  in_range st ->
  currentIndex (next st) = (currentIndex st + 1) mod cards_length st.
Proof.
  unfold in_range. intros H. rewrite next_index.
  destruct (Z.eqb_spec (currentIndex st) (cards_length st - 1)) as [E | E].
  - replace (currentIndex st + 1) with (cards_length st) by lia.
    symmetry. apply Z_mod_same_full.
  - symmetry. apply Z.mod_small. lia.
Qed.

Lemma next_in_range (st : State) : in_range st -> in_range (next st).
Proof.
  unfold in_range. rewrite next_cards_length, next_index. intros H.
  destruct (Z.eqb_spec (currentIndex st) (cards_length st - 1)); lia.
Qed.

Lemma prev_in_range (st : State) : in_range st -> in_range (prev st).
Proof.
  unfold in_range. rewrite prev_cards_length, prev_index. intros H.
  destruct (Z.eqb_spec (currentIndex st) 0); lia.
Qed.

Lemma iter_next_cards_length (k : nat) (st : State) :
  cards_length (Nat.iter k next st) = cards_length st.
Proof.
  induction k as [| k IH]; simpl; [reflexivity |].
  now rewrite next_cards_length.
Qed.

Lemma iter_next_in_range (k : nat) (st : State) :
  in_range st -> in_range (Nat.iter k next st).
Proof. intros H. induction k; simpl; auto using next_in_range. Qed.

(** [k] calls of [next] advance the index by [k] modulo the card count. *)
Lemma iter_next_index (k : nat) (st : State) :
  in_range st ->
  currentIndex (Nat.iter k next st)
  = (currentIndex st + Z.of_nat k) mod cards_length st.
Proof.
  intros H. induction k as [| k IH].
  - simpl. rewrite Z.add_0_r. symmetry. apply Z.mod_small. exact H.
  - simpl Nat.iter. rewrite next_index_mod by (apply iter_next_in_range; exact H).
    rewrite iter_next_cards_length, IH.
    rewrite Zplus_mod_idemp_l. f_equal. lia.
Qed.

End Carousel.

Section CarouselClaims.

Import Testimonials.
Local Open Scope Z_scope.

(** C3.  With [N >= 1] cards and the index anywhere in [[0, N)], calling
    [next] [N] times brings the index back to where it started, and [prev]
    and [next] undo each other on the index, in both orders. *)
Theorem carousel_next_cycle (st : State) :
  1 <= cards_length st ->
  0 <= currentIndex st < cards_length st ->
  currentIndex (Nat.iter (length (cards st)) next st) = currentIndex st
  /\ currentIndex (prev (next st)) = currentIndex st
  /\ currentIndex (next (prev st)) = currentIndex st.
Proof.
  intros HN H. split; [| split].
  - rewrite iter_next_index by exact H. fold (cards_length st).
    replace (currentIndex st + cards_length st)
      with (currentIndex st + 1 * cards_length st) by lia.
    rewrite Z_mod_plus_full. apply Z.mod_small. exact H.
  - rewrite prev_index, next_cards_length, next_index.
    destruct (Z.eqb_spec (currentIndex st) (cards_length st - 1)) as [E | E].
    + simpl. lia.
    + destruct (Z.eqb_spec (currentIndex st + 1) 0); lia.
  - rewrite next_index, prev_cards_length, prev_index.
    destruct (Z.eqb_spec (currentIndex st) 0) as [E | E].
    + rewrite Z.eqb_refl. lia.
    + destruct (Z.eqb_spec (currentIndex st - 1) (cards_length st - 1)); lia.
Qed.

Lemma carousel_next_cycle_witness :
  let st := goTo 2 (init [true; false; false; false] [true; false; false; false]) in
  currentIndex (Nat.iter 4 next st) = 2
  /\ currentIndex (prev (next st)) = 2
  /\ currentIndex (next (prev st)) = 2.
Proof.
  exact (carousel_next_cycle
           (goTo 2 (init [true; false; false; false] [true; false; false; false]))
           ltac:(vm_compute; discriminate)
           ltac:(split; vm_compute; [discriminate | reflexivity])).
Defined.

(** C4, as amended.  From an index in range, [prev] and [next] leave the
    index in range.  [goTo] stores its argument unchecked, so the index
    after [goTo(index)] is in range exactly when [0 <= index < card count];
    a click on an indicator therefore keeps the index in range when there
    are no more indicators than cards, and then every listener does. *)
Theorem carousel_index_in_range (st : State) :
  in_range st ->
  in_range (prev st)
  /\ in_range (next st)
  /\ (forall index, in_range (goTo index st) <-> 0 <= index < cards_length st)
  /\ ((length (indicators st) <= length (cards st))%nat ->
      forall e, in_range (handle e st)).
Proof.
  intros H.
  assert (Hgo : forall index,
             in_range (goTo index st) <-> 0 <= index < cards_length st).
  { intros index. unfold in_range. rewrite goTo_cards_length. reflexivity. }
  split; [apply prev_in_range; exact H |].
  split; [apply next_in_range; exact H |].
  split; [exact Hgo |].
  intros Hle e.
  destruct e; simpl; auto using prev_in_range, next_in_range.
  destruct (Nat.ltb_spec k (length (indicators st))); [| exact H].
  apply Hgo. unfold cards_length. lia.
Qed.

Lemma carousel_index_in_range_witness :
  let st := init [true; false; false] [true; false; false] in
  in_range (prev st) /\ in_range (next st) /\ in_range (goTo 2 st)
  /\ in_range (handle (ClickIndicator 1) st).
Proof.
  pose proof (carousel_index_in_range
                (init [true; false; false] [true; false; false])
                ltac:(split; vm_compute; [discriminate | reflexivity]))
    as (Hp & Hn & Hg & He).
  split; [exact Hp |]. split; [exact Hn |]. split.
  - apply (proj2 (Hg 2)). split; vm_compute; [discriminate | reflexivity].
  - apply (He ltac:(simpl; lia) (ClickIndicator 1)).
Defined.

(** C4 as stated fails.  With three cards and four indicators the index
    starts in range, and a click on the last indicator calls [goTo(3)],
    which leaves [currentIndex = 3], not below the card count. *)
Lemma goTo_leaves_range :
  let st := init [true; false; false] [true; false; false; false] in
  in_range st
  /\ currentIndex (handle (ClickIndicator 3) st) = 3
  /\ ~ in_range (handle (ClickIndicator 3) st).
Proof.
  cbv zeta. split; [split; vm_compute; [discriminate | reflexivity] |].
  split; [reflexivity |].
  intros [_ H]. vm_compute in H. discriminate.
Qed.

End CarouselClaims.

(** ** ContactForm *)

Section Validation.

Import JS ContactForm.

Lemma streq_eq (a b : jsstring) : streq a b = true <-> a = b.
Proof.
  revert b. induction a as [| c a IH]; intros [| d b]; simpl;
    try (split; [discriminate | congruence]); [tauto |].
  rewrite andb_true_iff, N.eqb_eq, IH. split.
  - intros [-> ->]. reflexivity.
  - intros [= -> ->]. auto.
Qed.

Lemma streq_neq (a b : jsstring) : streq a b = false <-> a <> b.
Proof.
  rewrite <- streq_eq. destruct (streq a b); split; congruence.
Qed.

(** The loop stops at the first rule whose branch is taken, and the
    message is that rule's. *)
Lemma check_rules_first_failure (rules : list jsstring) (value message : jsstring) :
  check_rules rules value = Some message <->
  exists (i : nat) (rule : jsstring),
    rules !! i = Some rule
    /\ rule_error rule value = Some message
    /\ forall (j : nat) (r : jsstring),
         (j < i)%nat -> rules !! j = Some r -> rule_error r value = None.
Proof.
  induction rules as [| rule rest IH]; simpl.
  - split; [discriminate | intros (i & r & H & _); destruct i; discriminate].
  - destruct (rule_error rule value) as [m |] eqn:E.
    + split.
      * intros [= ->]. exists 0%nat, rule. repeat split; [exact E |].
        intros j r Hj. lia.
      * intros ([| i] & r & Hr & Hm & Hbefore).
        -- simpl in Hr. congruence.
        -- specialize (Hbefore 0%nat rule ltac:(lia) eq_refl). congruence.
    + rewrite IH. split.
      * intros (i & r & Hr & Hm & Hbefore). exists (S i), r.
        repeat split; [exact Hr | exact Hm |].
        intros [| j] r' Hj Hr'; [simpl in Hr'; congruence |].
        apply (Hbefore j); [lia | exact Hr'].
      * intros ([| i] & r & Hr & Hm & Hbefore).
        -- simpl in Hr. congruence.
        -- exists i, r. repeat split; [exact Hr | exact Hm |].
           intros j r' Hj Hr'. apply (Hbefore (S j)); [lia | exact Hr'].
Qed.

Lemma check_rules_pass (rules : list jsstring) (value : jsstring) :
  check_rules rules value = None <->
  Forall (fun rule => rule_error rule value = None) rules.
Proof.
  induction rules as [| rule rest IH]; simpl.
  - split; [constructor | reflexivity].
  - destruct (rule_error rule value) eqn:E.
    + split; [discriminate | intros H; inversion H; congruence].
    + rewrite IH. split; [intros H; constructor; assumption |].
      intros H. inversion H. assumption.
Qed.

(** [isValid] as [validateField] returns it. *)
Lemma validateField_isValid (field : Field) :
  snd (validateField field)
  = match check_rules (rules_of (validate field)) (value field) with
    | None => true
    | Some _ => false
    end.
Proof.
  unfold validateField.
  destruct (check_rules (rules_of (validate field)) (value field)); reflexivity.
Qed.

(** On the empty value only a [required] rule takes a branch. *)
Lemma rule_error_empty (rule : jsstring) :
  validator_of rule <> js "required" -> rule_error rule [] = None.
Proof.
  intros H. apply streq_neq in H. unfold rule_error. rewrite H.
  cbn [truthy andb]. rewrite !andb_false_r. reflexivity.
Qed.

End Validation.

Section ValidationClaims.

Import JS ContactForm.

(** C6.  The rules are evaluated in order and the first one that fails
    decides: [validateField] reports invalid exactly when some rule fails,
    with the message of the first such rule.  Under
    [required|minLength:3] the value [""] fails [required], ["ab"] passes
    it and fails [minLength:3], and ["abc"] passes both. *)
Theorem first_failing_rule_decides :
  (forall field : Field,
      snd (validateField field) = false <->
      exists (i : nat) (rule message : jsstring),
        rules_of (validate field) !! i = Some rule
        /\ rule_error rule (value field) = Some message
        /\ errorElement (fst (validateField field))
           = option_map (fun _ => message) (errorElement field)
        /\ forall (j : nat) (r : jsstring),
             (j < i)%nat -> rules_of (validate field) !! j = Some r ->
             rule_error r (value field) = None)
  /\ (forall (n d : jsstring) (v i : bool) (e : option jsstring),
        let field := fun text =>
          mkField n text d (Some (js "required|minLength:3")) v i e in
        validateField (field (js ""))
        = (mkField n (js "") d (Some (js "required|minLength:3")) false true
             (option_map (fun _ => js "Este campo é obrigatório") e), false)
        /\ validateField (field (js "ab"))
           = (mkField n (js "ab") d (Some (js "required|minLength:3")) false true
                (option_map (fun _ => js "Mínimo de 3 caracteres") e), false)
        /\ validateField (field (js "abc"))
           = (mkField n (js "abc") d (Some (js "required|minLength:3")) true false
                (option_map (fun _ => []) e), true)).
Proof.
  split.
  - intros field. unfold validateField.
    destruct (check_rules (rules_of (validate field)) (value field))
      as [m |] eqn:E; simpl.
    + split; [intros _ | reflexivity].
      apply check_rules_first_failure in E as (i & rule & Hr & Hm & Hb).
      exists i, rule, m. auto.
    + split; [discriminate |].
      intros (i & rule & m & Hr & Hm & _ & Hb).
      assert (check_rules (rules_of (validate field)) (value field) = Some m)
        by (apply check_rules_first_failure; eauto).
      congruence.
  - intros n d v i e. cbv zeta. repeat split.
Qed.

Lemma first_failing_rule_decides_witness :
  let field :=
    mkField (js "name") (js "ab") [] (Some (js "required|minLength:3"))
      false false (Some []) in
  exists (i : nat) (rule message : jsstring),
    rules_of (validate field) !! i = Some rule
    /\ rule_error rule (value field) = Some message
    /\ errorElement (fst (validateField field))
       = option_map (fun _ => message) (errorElement field)
    /\ forall (j : nat) (r : jsstring),
         (j < i)%nat -> rules_of (validate field) !! j = Some r ->
         rule_error r (value field) = None.
Proof.
  exact (proj1 (proj1 first_failing_rule_decides
                  (mkField (js "name") (js "ab") []
                     (Some (js "required|minLength:3")) false false (Some [])))
               eq_refl).
Defined.

(** C9.  A field none of whose rules is [required] is valid on the empty
    value: the [email], [phone] and [minLength] branches are guarded by the
    truthiness of the value, so they are never taken for [""]. *)
Theorem empty_value_passes_optional_rules (field : Field) :
  value field = [] ->
  ~ In (js "required") (map validator_of (rules_of (validate field))) ->
  snd (validateField field) = true
  /\ valid (fst (validateField field)) = true
  /\ invalid (fst (validateField field)) = false.
Proof.
  intros Hv Hreq.
  assert (E : check_rules (rules_of (validate field)) (value field) = None).
  { apply check_rules_pass. rewrite Hv. apply List.Forall_forall.
    intros rule Hin. apply rule_error_empty. intros Heq. apply Hreq.
    rewrite <- Heq. apply in_map. exact Hin. }
  unfold validateField. rewrite E. auto.
Qed.

Lemma empty_value_passes_optional_rules_witness :
  let field :=
    mkField (js "email") [] [] (Some (js "email|minLength:3|phone"))
      false false (Some []) in
  snd (validateField field) = true
  /\ valid (fst (validateField field)) = true
  /\ invalid (fst (validateField field)) = false.
Proof.
  apply empty_value_passes_optional_rules.
  - reflexivity.
  - vm_compute. intros [H | [H | [H | []]]]; discriminate.
Defined.

End ValidationClaims.

Section Submission.

Import JS ContactForm.

Lemma handleSubmit_guard (st : State) :
  isSubmitting st = true -> handleSubmit st = (st, []).
Proof. intros H. unfold handleSubmit. rewrite H. reflexivity. Qed.

Lemma handleSubmit_one_in_flight (st : State) :
  one_in_flight st -> one_in_flight (fst (handleSubmit st)).
Proof.
  unfold one_in_flight, handleSubmit. intros [Hlen Hclear].
  destruct (isSubmitting st) eqn:E; simpl; [rewrite E; auto |].
  destruct (validateForm (inputs st)) as [fields isValid].
  destruct isValid; simpl.
  - unfold updateSubmitButton. simpl.
    destruct (submitBtn st); simpl.
    + rewrite (Hclear eq_refl). simpl. split; [lia | discriminate].
    + split; [exact Hlen | discriminate].
  - rewrite E. auto.
Qed.

Lemma finish_pending (st : State) :
  pending (finish st) = pending st /\ isSubmitting (finish st) = false.
Proof.
  unfold finish, updateSubmitButton. simpl. destruct (submitBtn st); auto.
Qed.

Lemma settle_one_in_flight (fulfilled : bool) (st : State) :
  one_in_flight st -> one_in_flight (fst (settle fulfilled st)).
Proof.
  unfold one_in_flight, settle. intros [Hlen Hclear].
  destruct (pending st) as [| call calls] eqn:E; simpl; [rewrite E; auto |].
  assert (calls = []) as -> by (destruct calls; [reflexivity | simpl in Hlen; lia]).
  destruct fulfilled; simpl;
    match goal with
    | |- context [finish ?s] => destruct (finish_pending s) as [-> _]
    end; simpl; auto.
Qed.

Lemma handle_one_in_flight (e : Event) (st : State) :
  one_in_flight st -> one_in_flight (handle e st).
Proof.
  destruct e; simpl;
    auto using handleSubmit_one_in_flight, settle_one_in_flight.
  unfold hideMessage. destruct (hideTimers st); auto.
Qed.

Lemma run_one_in_flight (events : list Event) (st : State) :
  one_in_flight st -> one_in_flight (run events st).
Proof.
  revert st. induction events as [| e events IH]; intros st H; simpl.
  - exact H.
  - apply IH. apply handle_one_in_flight. exact H.
Qed.

End Submission.

Section SubmissionClaim.

Import JS ContactForm.

(** C7.  When [isSubmitting] is set the submit handler returns at once:
    the state is unchanged and nothing is validated, shown or submitted.
    Hence, whatever happens to the form after its construction, at most
    one call of [submitToAPI] is pending, and while one is pending the flag
    is set and a submit event changes nothing. *)
Theorem submit_in_flight_is_noop :
  (forall st : State, isSubmitting st = true -> handleSubmit st = (st, []))
  /\ (forall (fields : list Field) (button : bool) (events : list Event),
        let st := run events (init fields button) in
        (length (pending st) <= 1)%nat
        /\ (pending st <> [] ->
            isSubmitting st = true /\ handle Submit st = st)).
Proof.
  split; [exact handleSubmit_guard |].
  intros fields button events st.
  assert (H : one_in_flight st).
  { apply run_one_in_flight. split; simpl; [lia | reflexivity]. }
  destruct H as [Hlen Hclear]. split; [exact Hlen |].
  intros Hp. destruct (isSubmitting st) eqn:E.
  - split; [reflexivity |]. simpl. now rewrite handleSubmit_guard.
  - specialize (Hclear eq_refl). congruence.
Qed.

Lemma submit_in_flight_is_noop_witness :
  let field :=
    mkField (js "name") [] [] (Some (js "required|minLength:3"))
      false false (Some []) in
  let st := run [Input 0 (js "Ana"); Submit] (init [field] true) in
  handleSubmit st = (st, [])
  /\ (length (pending (run [Submit] st)) <= 1)%nat.
Proof.
  cbv zeta. split.
  - apply (proj1 submit_in_flight_is_noop). reflexivity.
  - apply (proj2 submit_in_flight_is_noop
             [mkField (js "name") [] [] (Some (js "required|minLength:3"))
                false false (Some [])]
             true [Input 0 (js "Ana"); Submit; Submit]).
Defined.

End SubmissionClaim.

(** ** WhatsAppForm *)

Section Trimming.

Import JS.

Lemma trimStart_nil (s : jsstring) : trimStart s = [] <-> all is_whitespace s.
Proof.
  induction s as [| c s IH]; simpl.
  - split; [constructor | reflexivity].
  - destruct (is_whitespace c) eqn:E.
    + rewrite IH. split; [now constructor | intros H; now inversion H].
    + split; [discriminate | intros H; inversion H; congruence].
Qed.

(** What [trimStart] returns is empty or starts with a code unit that is
    not white space. *)
Lemma trimStart_head (s : jsstring) :
  match trimStart s with
  | [] => True
  | c :: _ => is_whitespace c = false
  end.
Proof.
  induction s as [| c s IH]; simpl; [exact I |].
  destruct (is_whitespace c) eqn:E; [exact IH | exact E].
Qed.

Lemma trim_nil (s : jsstring) : trim s = [] <-> all is_whitespace s.
Proof.
  unfold trim, trimEnd. split.
  - intros H. apply (f_equal (@rev N)) in H. rewrite rev_involutive in H.
    simpl in H. apply trimStart_nil in H.
    apply trimStart_nil.
    pose proof (trimStart_head s) as Hh.
    destruct (trimStart s) as [| c t]; [reflexivity |].
    exfalso. unfold all in H. rewrite List.Forall_forall in H.
    assert (is_whitespace c = true) by (apply H, in_rev; rewrite rev_involutive; now left).
    congruence.
  - intros H. apply trimStart_nil in H. rewrite H. reflexivity.
Qed.

End Trimming.

Section WhatsApp.

Import JS WhatsAppForm.

(** The loop appends one line per kept field, in order, and nothing for
    the others. *)
Lemma fold_add_field (data : list (jsstring * jsstring)) (message : jsstring) :
  fold_left add_field data message
  = message ++ concat (map (fun e => line (fst e) (snd e)) (List.filter kept data)).
Proof.
  revert message. induction data as [| [key value] data IH]; intros message; simpl.
  - now rewrite app_nil_r.
  - rewrite IH. unfold kept at 2. simpl.
    destruct (truthy (trim value)); simpl; [now rewrite <- app_assoc | reflexivity].
Qed.

Lemma buildMessage_shape (data : list (jsstring * jsstring)) :
  buildMessage data
  = greeting
    ++ concat (map (fun e => line (fst e) (snd e)) (List.filter kept data))
    ++ closing.
Proof. unfold buildMessage. now rewrite fold_add_field, <- app_assoc. Qed.

(** A field is kept exactly when its value holds a code unit that is not
    white space. *)
Lemma kept_blank (entry : jsstring * jsstring) : kept entry = negb (blank (snd entry)).
Proof.
  unfold kept, blank. destruct (trim (snd entry)) as [| c t] eqn:E; simpl.
  - apply trim_nil in E. symmetry. apply negb_false_iff, forallb_forall.
    unfold all in E. rewrite List.Forall_forall in E. exact E.
  - symmetry. apply negb_true_iff. destruct (forallb is_whitespace (snd entry)) eqn:F;
      [| reflexivity].
    assert (H : all is_whitespace (snd entry)).
    { apply List.Forall_forall. now apply forallb_forall. }
    apply trim_nil in H. congruence.
Qed.

Lemma filter_kept_blank (data : list (jsstring * jsstring)) :
  List.filter kept data = List.filter (fun e => negb (blank (snd e))) data.
Proof.
  induction data as [| e data IH]; simpl; [reflexivity |].
  now rewrite kept_blank, IH.
Qed.

End WhatsApp.

Section WhatsAppClaim.

Import JS WhatsAppForm.

(** C8.  For the data [{name: "Ana", phone: "11999999999"}] the message
    holds the lines [*Nome:* Ana] and [*Telefone:* 11999999999], and the
    URL opened is the wa.me link of the configured number with the
    percent-encoded message as its [text]; a form with these two fields
    and two more, one empty and one of white space, opens the same URL.
    For any data, the message is the greeting, one line per field whose
    value holds a code unit that is not white space, and the closing: a
    field whose value is empty or white space leaves no trace, every
    other field has its line in the message, and the URL is the link
    followed by the encoded message whenever the encoding succeeds. *)
Theorem whatsapp_message :
  (let data := [(js "name", js "Ana"); (js "phone", js "11999999999")] in
   let url :=
     js "https://wa.me/5511914823015?text=Ol%C3%A1!%20Gostaria%20de%20solicitar%20um%20or%C3%A7amento%3A%0A%0A*Nome%3A*%20Ana%0A*Telefone%3A*%2011999999999%0A%0AAguardo%20retorno.%20Obrigado!" in
   In (js "*Nome:* Ana") (lines (buildMessage data))
   /\ In (js "*Telefone:* 11999999999") (lines (buildMessage data))
   /\ handleSubmit data = Some url
   /\ submitForm data = Some url
   /\ submitForm [(js "name", js "Ana"); (js "email", []);
                  (js "phone", js "11999999999"); (js "message", [32; 9; LF])]
      = Some url)
  /\ (forall data : list (jsstring * jsstring),
        buildMessage data
        = greeting
          ++ concat (map (fun e => line (fst e) (snd e))
                       (List.filter (fun e => negb (blank (snd e))) data))
          ++ closing)
  /\ (forall (before after : list (jsstring * jsstring)) (key value : jsstring),
        blank value = true ->
        buildMessage (before ++ (key, value) :: after) = buildMessage (before ++ after))
  /\ (forall (data : list (jsstring * jsstring)) (key value : jsstring),
        In (key, value) data ->
        blank value = false ->
        exists pre post : jsstring,
          buildMessage data = pre ++ line key value ++ post)
  /\ (forall data : list (jsstring * jsstring),
        handleSubmit data
        = option_map
            (fun encoded => js "https://wa.me/" ++ phoneNumber ++ js "?text=" ++ encoded)
            (encodeURIComponent (buildMessage data))).
Proof.
  split; [| split; [| split; [| split]]].
  - cbv zeta. split; [| split; [| split; [| split]]].
    + vm_compute. tauto.
    + vm_compute. tauto.
    + vm_compute. reflexivity.
    + vm_compute. reflexivity.
    + vm_compute. reflexivity.
  - intros data. now rewrite buildMessage_shape, filter_kept_blank.
  - intros before after key value Hb.
    rewrite !buildMessage_shape, !filter_kept_blank, !List.filter_app.
    cbn [List.filter snd]. now rewrite Hb.
  - intros data key value Hin Hb.
    rewrite buildMessage_shape, filter_kept_blank.
    apply in_split in Hin as (l1 & l2 & ->).
    rewrite List.filter_app. cbn [List.filter snd]. rewrite Hb. cbn [negb].
    rewrite map_app, concat_app. cbn [map concat fst snd].
    exists (greeting
            ++ concat (map (fun e => line (fst e) (snd e))
                         (List.filter (fun e => negb (blank (snd e))) l1))),
      (concat (map (fun e => line (fst e) (snd e))
                 (List.filter (fun e => negb (blank (snd e))) l2))
       ++ closing).
    rewrite <- !app_assoc. reflexivity.
  - intros data. unfold handleSubmit, openWhatsApp.
    destruct (encodeURIComponent (buildMessage data)); reflexivity.
Qed.

End WhatsAppClaim.

(** ** Storage *)

Section StorageWrapper.

Import JS Storage.

Context {V : Type} (JSON : Codec V).

Lemma getItem_setItem (key text : jsstring) (ls ls' : LocalStorage) :
  setItem key text ls = Some ls' -> getItem key ls' = Some (Some text).
Proof.
  unfold setItem, getItem. intros H.
  destruct (accessible ls) eqn:Ea; [| discriminate].
  destruct (accepts ls key text); [| discriminate].
  injection H as <-. simpl. f_equal. apply lookup_insert_eq.
Qed.

(** A successful [set] stored the text of the value. *)
Lemma set_stores (key : jsstring) (value : V) (s : jsstring) (ls ls' : LocalStorage) :
  stringify JSON value = Text s ->
  set JSON key value ls = (ls', true) ->
  getItem key ls' = Some (Some s).
Proof.
  unfold set. intros -> H.
  destruct (setItem key s ls) as [ls1 |] eqn:E; [| discriminate].
  injection H as <-. eapply getItem_setItem. exact E.
Qed.

Lemma get_after_set (key : jsstring) (value defaultValue : V) (s : jsstring)
    (ls ls' : LocalStorage) :
  parse JSON [] = None ->
  stringify JSON value = Text s ->
  parse JSON s = Some value ->
  set JSON key value ls = (ls', true) ->
  get JSON key defaultValue ls' = value.
Proof.
  intros Hempty Hs Hp Hset. unfold get.
  rewrite (set_stores _ _ _ _ _ Hs Hset).
  destruct s as [| c s]; [congruence |]. simpl truthy. cbv iota.
  now rewrite Hp.
Qed.

End StorageWrapper.

Section StorageClaim.

Import JS Storage.

(** C10.  For any JSON codec under which the empty text does not parse
    (as [JSON.parse("")] throws): when [value] serializes to a text that
    parses back to [value], [Storage.get] right after a successful
    [Storage.set] of [value] under the same key returns [value], whatever
    the default; and [Storage.get] returns the default when the read
    throws, when the key is absent, and when the stored text does not
    parse. *)
Theorem storage_get_after_set {V : Type} (JSON : Codec V) :
  parse JSON [] = None ->
  (forall (key : jsstring) (value defaultValue : V) (s : jsstring)
          (ls ls' : LocalStorage),
      stringify JSON value = Text s ->
      parse JSON s = Some value ->
      set JSON key value ls = (ls', true) ->
      get JSON key defaultValue ls' = value)
  /\ (forall (key : jsstring) (defaultValue : V) (ls : LocalStorage),
        getItem key ls = None -> get JSON key defaultValue ls = defaultValue)
  /\ (forall (key : jsstring) (defaultValue : V) (ls : LocalStorage),
        getItem key ls = Some None -> get JSON key defaultValue ls = defaultValue)
  /\ (forall (key : jsstring) (defaultValue : V) (ls : LocalStorage)
             (item : jsstring),
        getItem key ls = Some (Some item) ->
        parse JSON item = None ->
        get JSON key defaultValue ls = defaultValue).
Proof.
  intros Hempty. split; [| split; [| split]].
  - intros key value defaultValue s ls ls'. apply get_after_set. exact Hempty.
  - intros key d ls H. unfold get. now rewrite H.
  - intros key d ls H. unfold get. now rewrite H.
  - intros key d ls item H Hp. unfold get. rewrite H, Hp.
    destruct (truthy item); reflexivity.
Qed.

Lemma storage_get_after_set_witness :
  let ls := mkLocalStorage ∅ true (fun _ _ => true) in
  get literals (js "theme") (Some false)
    (fst (set literals (js "theme") None ls)) = None
  /\ get literals (js "other") (Some false)
       (fst (set literals (js "theme") None ls)) = Some false.
Proof.
  cbv zeta.
  pose proof (storage_get_after_set literals eq_refl) as (Hset & _ & Habsent & _).
  split.
  - apply (Hset (js "theme") None (Some false) (js "null")
             (mkLocalStorage ∅ true (fun _ _ => true))); reflexivity.
  - apply Habsent. vm_compute. reflexivity.
Defined.

End StorageClaim.

(** ** Portfolio *)

Section PortfolioLists.

Import JS Portfolio.
Local Open Scope nat_scope.

Lemma In_indices_where {A : Type} (p : A -> bool) (l : list A) (i : nat) :
  In i (indices_where p l) <-> exists a, l !! i = Some a /\ p a = true.
Proof.
  unfold indices_where. rewrite filter_In, in_seq. split.
  - intros [_ H]. destruct (l !! i) as [a |]; [eauto | discriminate].
  - intros (a & Ha & Hp). rewrite Ha. split; [| exact Hp].
    apply lookup_lt_Some in Ha. lia.
Qed.

Lemma NoDup_indices_where {A : Type} (p : A -> bool) (l : list A) :
  List.NoDup (indices_where p l).
Proof. unfold indices_where. apply List.NoDup_filter, List.seq_NoDup. Qed.

(** Two arrays whose elements agree on the predicate, position by
    position, filter to the same positions. *)
Lemma indices_where_ext {A : Type} (p : A -> bool) (l l' : list A) :
  length l = length l' ->
  (forall i a a', l !! i = Some a -> l' !! i = Some a' -> p a = p a') ->
  indices_where p l = indices_where p l'.
Proof.
  intros Hlen H. unfold indices_where. rewrite <- Hlen.
  apply List.filter_ext_in. intros i Hi. apply in_seq in Hi.
  destruct (lookup_lt_is_Some_2 l i ltac:(lia)) as [a Ha].
  destruct (lookup_lt_is_Some_2 l' i ltac:(lia)) as [a' Ha'].
  rewrite Ha, Ha'. eauto.
Qed.

Lemma slice_0 {A : Type} (n : nat) (l : list A) : slice 0 n l = firstn n l.
Proof. unfold slice. simpl. now rewrite Nat.sub_0_r. Qed.

Lemma firstn_slice {A : Type} (a b : nat) (l : list A) :
  firstn (a + b) l = firstn a l ++ slice a (a + b) l.
Proof.
  unfold slice. replace (a + b - a) with b by lia.
  symmetry. apply take_take_drop.
Qed.

Lemma In_firstn_le {A : Type} (n m : nat) (l : list A) (x : A) :
  n <= m -> In x (firstn n l) -> In x (firstn m l).
Proof.
  intros Hle H. replace m with (n + (m - n)) by lia.
  rewrite firstn_slice. apply in_or_app. now left.
Qed.

Lemma staggered_callbacks (its : list nat) :
  map callback (staggered its) = map RevealItem its.
Proof.
  unfold staggered. revert its.
  assert (H : forall (its : list nat) (k : nat),
             map callback
               (imap (fun index item => mkTimer ((k + index) * 100) (RevealItem item)) its)
             = map RevealItem its).
  { induction its as [| i its IH]; intros k; simpl; [reflexivity |].
    f_equal. rewrite <- (IH (S k)). f_equal. apply imap_ext.
    intros j x _. simpl. f_equal. lia. }
  intros its. exact (H its 0).
Qed.

Lemma In_delete {A : Type} (k : nat) (l : list A) (x : A) :
  In x (delete k l) -> In x l.
Proof.
  revert k. induction l as [| y l IH]; intros [| k]; simpl; auto.
  intros [-> | H]; eauto.
Qed.

Lemma In_delete_other {A : Type} (k : nat) (l : list A) (x y : A) :
  l !! k = Some y -> x <> y -> In x l -> In x (delete k l).
Proof.
  revert k. induction l as [| z l IH]; intros [| k]; simpl; try discriminate.
  - intros [= ->] Hne [-> | H]; [congruence | exact H].
  - intros Hk Hne [-> | H]; [now left | right; eauto].
Qed.

End PortfolioLists.

Section PortfolioSteps.

Import JS Portfolio.
Local Open Scope nat_scope.

Lemma carries_hide (f : jsstring) (item : Item) :
  carries f (hide_item item) = carries f item.
Proof. reflexivity. Qed.

Lemma carries_reveal (f : jsstring) (item : Item) :
  carries f (reveal_item item) = carries f item.
Proof. reflexivity. Qed.

(** The filtered items depend on the filter and on the categories only. *)
Lemma getFilteredItems_ext (st st' : State) :
  currentFilter st = currentFilter st' ->
  length (items st) = length (items st') ->
  (forall i a a',
      items st !! i = Some a -> items st' !! i = Some a' ->
      category a = category a') ->
  getFilteredItems st = getFilteredItems st'.
Proof.
  intros Hf Hlen Hcat. unfold getFilteredItems. rewrite <- Hf, <- Hlen.
  destruct (streq (currentFilter st) (js "all")); [reflexivity |].
  apply indices_where_ext; [exact Hlen |].
  intros i a a' Ha Ha'. unfold carries. now rewrite (Hcat i a a' Ha Ha').
Qed.

Lemma getFilteredItems_in_range (st : State) (i : nat) :
  In i (getFilteredItems st) -> i < length (items st).
Proof.
  unfold getFilteredItems.
  destruct (streq (currentFilter st) (js "all")).
  - rewrite in_seq. lia.
  - rewrite In_indices_where. intros (a & Ha & _).
    now apply lookup_lt_Some in Ha.
Qed.

Lemma NoDup_getFilteredItems (st : State) : List.NoDup (getFilteredItems st).
Proof.
  unfold getFilteredItems.
  destruct (streq (currentFilter st) (js "all"));
    [apply List.seq_NoDup | apply NoDup_indices_where].
Qed.

Lemma In_firstn {A : Type} (n : nat) (l : list A) (x : A) :
  In x (firstn n l) -> In x l.
Proof.
  intros H. rewrite <- (firstn_skipn n l). apply in_or_app. now left.
Qed.

Lemma window_in_range (st : State) (i : nat) :
  In i (page_window st) -> i < length (items st).
Proof.
  unfold page_window. intros H. apply getFilteredItems_in_range.
  eapply In_firstn. exact H.
Qed.

End PortfolioSteps.

Section PortfolioInvariant.

Import JS Portfolio.
Local Open Scope nat_scope.

Lemma on_course_button (st : State) :
  on_course st -> on_course (updateLoadMoreButton st).
Proof.
  intros H. unfold updateLoadMoreButton.
  destruct (loadMoreBtn st); [| exact H].
  destruct (_ <=? _); exact H.
Qed.

Lemma updateLoadMoreButton_fields (st : State) :
  items (updateLoadMoreButton st) = items st
  /\ currentFilter (updateLoadMoreButton st) = currentFilter st
  /\ itemsPerPage (updateLoadMoreButton st) = itemsPerPage st
  /\ currentPage (updateLoadMoreButton st) = currentPage st
  /\ timers (updateLoadMoreButton st) = timers st.
Proof.
  unfold updateLoadMoreButton.
  destruct (loadMoreBtn st); [destruct (_ <=? _) |]; repeat split.
Qed.

Lemma hidden_not_visible (its : list Item) (i : nat) :
  ~ In i (indices_where (fun item => negb (hidden item)) (map hide_item its)).
Proof.
  rewrite In_indices_where. intros (a & Ha & Hv).
  change (map hide_item its) with (hide_item <$> its) in Ha.
  rewrite list_lookup_fmap in Ha.
  destruct (its !! i); simpl in Ha; [| discriminate].
  injection Ha as <-. discriminate.
Qed.

Lemma getFilteredItems_hide (st : State) :
  getFilteredItems (with_items st (map hide_item (items st))) = getFilteredItems st.
Proof.
  apply getFilteredItems_ext; simpl.
  - reflexivity.
  - apply length_map.
  - intros i a a' Ha Ha'.
    change (map hide_item (items st)) with (hide_item <$> items st) in Ha.
    rewrite list_lookup_fmap, Ha' in Ha. simpl in Ha. now injection Ha as <-.
Qed.

Lemma getFilteredItems_reveal (st : State) (i : nat) :
  getFilteredItems (with_items st (alter reveal_item i (items st)))
  = getFilteredItems st.
Proof.
  apply getFilteredItems_ext; simpl.
  - reflexivity.
  - apply length_alter.
  - intros j a a' Ha Ha'. destruct (decide (i = j)) as [-> | Hne].
    + rewrite list_lookup_alter_eq, Ha' in Ha. simpl in Ha. now injection Ha as <-.
    + rewrite list_lookup_alter_ne in Ha by exact Hne. congruence.
Qed.

Lemma visible_reveal (st : State) (i j : nat) :
  In j (visibleItems (with_items st (alter reveal_item i (items st))))
  <-> In j (visibleItems st) \/ (j = i /\ i < length (items st)).
Proof.
  unfold visibleItems. simpl. rewrite !In_indices_where.
  destruct (decide (i = j)) as [-> | Hne].
  - rewrite list_lookup_alter_eq. split.
    + intros (a & Ha & _). right. split; [reflexivity |].
      destruct (items st !! j) eqn:E; [| discriminate].
      now apply lookup_lt_Some in E.
    + intros H. destruct (items st !! j) as [a |] eqn:E.
      * exists (reveal_item a). split; reflexivity.
      * exfalso. destruct H as [(a & Ha & _) | [_ Hlt]]; [discriminate |].
        apply lookup_ge_None in E. lia.
  - rewrite list_lookup_alter_ne by exact Hne. split; [auto |].
    intros [H | [-> _]]; [exact H | congruence].
Qed.

(** The state right after a click on another filter is on course. *)
Lemma on_course_click (f : jsstring) (st0 : State) :
  timers st0 = [] ->
  streq f (currentFilter st0) = false ->
  on_course (handleFilterClick f st0).
Proof.
  intros Ht Hf. unfold handleFilterClick. rewrite Hf.
  apply on_course_button. unfold filterItems.
  set (st1 := with_filter st0 f 1).
  assert (HF : getFilteredItems
                 (with_timers (with_items st1 (map hide_item (items st1)))
                    (timers st1 ++ [mkTimer 300 (RevealFiltered (getFilteredItems st1))]))
               = getFilteredItems st1).
  { exact (getFilteredItems_hide st1). }
  unfold on_course, page_window, pending_callbacks. rewrite HF.
  simpl timers. rewrite Ht. simpl.
  split; [| split].
  - intros i H. exfalso. eapply hidden_not_visible. exact H.
  - intros i _. right. right. now left.
  - intros cb [<- | []]. reflexivity.
Qed.

Lemma on_course_loadMore (st : State) : on_course st -> on_course (loadMore st).
Proof.
  intros (Hvis & Hwin & Htm). unfold loadMore.
  apply on_course_button.
  set (st1 := with_filter st (currentFilter st) (S (currentPage st))).
  assert (HF : getFilteredItems st1 = getFilteredItems st) by reflexivity.
  assert (Hw : page_window st1
               = page_window st
                 ++ slice ((currentPage st1 - 1) * itemsPerPage st1)
                      (currentPage st1 * itemsPerPage st1) (getFilteredItems st1)).
  { unfold page_window. rewrite HF. simpl.
    replace (currentPage st - 0) with (currentPage st) by lia.
    replace (itemsPerPage st * S (currentPage st))
      with (itemsPerPage st * currentPage st + itemsPerPage st) by lia.
    rewrite firstn_slice. do 2 f_equal; lia. }
  unfold on_course, pending_callbacks.
  change (page_window (with_timers st1 ?t)) with (page_window st1).
  change (visibleItems (with_timers st1 ?t)) with (visibleItems st).
  change (getFilteredItems (with_timers st1 ?t)) with (getFilteredItems st).
  simpl timers. rewrite map_app, staggered_callbacks, Hw.
  split; [| split].
  - intros i H. apply in_or_app. left. auto.
  - intros i H. apply in_app_or in H as [H | H].
    + destruct (Hwin i H) as [H1 | [H1 | H1]]; [now left | right; left | right; right];
        apply in_or_app; now left.
    + right. left. apply in_or_app. right. now apply in_map.
  - intros cb H. apply in_app_or in H as [H | H].
    + specialize (Htm cb H). destruct cb; [exact Htm |].
      apply in_or_app. now left.
    + apply in_map_iff in H as (i & <- & Hi). apply in_or_app. now right.
Qed.

End PortfolioInvariant.

Section PortfolioTimers.

Import JS Portfolio.
Local Open Scope nat_scope.

Lemma map_delete {A B : Type} (g : A -> B) (k : nat) (l : list A) :
  map g (delete k l) = delete k (map g l).
Proof.
  revert k. induction l as [| x l IH]; intros [| k]; simpl; try reflexivity.
  now rewrite IH.
Qed.

Lemma map_lookup {A B : Type} (g : A -> B) (k : nat) (l : list A) (x : A) :
  l !! k = Some x -> map g l !! k = Some (g x).
Proof.
  revert k. induction l as [| y l IH]; intros [| k]; simpl; try discriminate.
  - now intros [= ->].
  - apply IH.
Qed.

Lemma lookup_In {A : Type} (k : nat) (l : list A) (x : A) :
  l !! k = Some x -> In x l.
Proof.
  revert k. induction l as [| y l IH]; intros [| k]; simpl; try discriminate.
  - intros [= ->]. now left.
  - intros H. right. eauto.
Qed.

Lemma map_category_reveal (i : nat) (its : list Item) :
  map category (alter reveal_item i its) = map category its.
Proof.
  revert i. induction its as [| item its IH]; intros [| i]; simpl; try reflexivity.
  f_equal. apply IH.
Qed.

Lemma on_course_fire (k : nat) (st : State) : on_course st -> on_course (fire k st).
Proof.
  intros Hc. unfold fire.
  destruct (timers st !! k) as [tm |] eqn:E; [| exact Hc].
  destruct Hc as (Hvis & Hwin & Htm).
  pose proof (map_lookup callback _ _ _ E) as Ek.
  pose proof (lookup_In _ _ _ Ek) as Hin.
  pose proof (Htm _ Hin) as Hcb.
  set (st' := with_timers st (delete k (timers st))).
  destruct (callback tm) as [fl | i] eqn:Ecb; simpl run_callback.
  - subst fl. unfold on_course, pending_callbacks.
    change (page_window (with_timers st' ?t)) with (page_window st).
    change (visibleItems (with_timers st' ?t)) with (visibleItems st).
    change (getFilteredItems (with_timers st' ?t)) with (getFilteredItems st).
    simpl timers. rewrite map_app, staggered_callbacks, slice_0.
    change (itemsPerPage st' * currentPage st') with (itemsPerPage st * currentPage st).
    fold (page_window st).
    split; [exact Hvis | split].
    + intros i H. right. left. apply in_or_app. right. now apply in_map.
    + intros cb H. apply in_app_or in H as [H | H].
      * apply Htm. rewrite map_delete in H. eapply In_delete. exact H.
      * apply in_map_iff in H as (i & <- & Hi). exact Hi.
  - assert (HF : getFilteredItems (with_items st' (alter reveal_item i (items st)))
                 = getFilteredItems st).
    { exact (getFilteredItems_reveal st' i). }
    assert (Hw : page_window (with_items st' (alter reveal_item i (items st)))
                 = page_window st).
    { unfold page_window. rewrite HF. reflexivity. }
    assert (Hlt : i < length (items st)) by (apply window_in_range; exact Hcb).
    unfold on_course, pending_callbacks. rewrite Hw, HF.
    simpl timers. rewrite map_delete.
    split; [| split].
    + intros j H. apply (visible_reveal st' i j) in H as [H | [-> _]]; auto.
    + intros j H. destruct (decide (j = i)) as [-> | Hne].
      * left. apply (visible_reveal st' i i). right. auto.
      * destruct (Hwin j H) as [H1 | [H1 | H1]].
        -- left. apply (visible_reveal st' i j). now left.
        -- right. left. eapply In_delete_other; [exact Ek | congruence | exact H1].
        -- right. right. eapply In_delete_other; [exact Ek | discriminate | exact H1].
    + intros cb H. apply Htm. eapply In_delete. exact H.
Qed.

(** No event but a click on another filter takes the page off course, and
    such events leave the filter and the page size alone. *)
Lemma on_course_handle (e : Event) (st : State) :
  keeps_filter (currentFilter st) e ->
  on_course st ->
  on_course (handle e st)
  /\ currentFilter (handle e st) = currentFilter st
  /\ itemsPerPage (handle e st) = itemsPerPage st
  /\ currentPage (handle e st)
     = match e with ClickLoadMore => S (currentPage st) | _ => currentPage st end
  /\ map category (items (handle e st)) = map category (items st).
Proof.
  intros Hk Hc. destruct e as [other | | k]; simpl in *.
  - subst other. unfold handleFilterClick.
    assert (streq (currentFilter st) (currentFilter st) = true) as ->
      by (now apply streq_eq).
    auto.
  - split; [apply on_course_loadMore; exact Hc |].
    unfold loadMore.
    destruct (updateLoadMoreButton_fields
                (with_timers
                   (with_filter st (currentFilter st) (S (currentPage st)))
                   (timers (with_filter st (currentFilter st) (S (currentPage st)))
                    ++ staggered
                         (slice
                            ((currentPage (with_filter st (currentFilter st) (S (currentPage st))) - 1)
                             * itemsPerPage (with_filter st (currentFilter st) (S (currentPage st))))
                            (currentPage (with_filter st (currentFilter st) (S (currentPage st)))
                             * itemsPerPage (with_filter st (currentFilter st) (S (currentPage st))))
                            (getFilteredItems (with_filter st (currentFilter st) (S (currentPage st))))))))
      as (-> & -> & -> & -> & _).
    auto.
  - split; [apply on_course_fire; exact Hc |].
    unfold fire. destruct (timers st !! k) as [tm |]; [| auto].
    destruct (callback tm) as [fl | i]; simpl; repeat split.
    apply map_category_reveal.
Qed.

End PortfolioTimers.

Section PortfolioRuns.

Import JS Portfolio.
Local Open Scope nat_scope.

Lemma loads_cons (e : Event) (events : list Event) :
  loads (e :: events)
  = (match e with ClickLoadMore => 1 | _ => 0 end) + loads events.
Proof. unfold loads. simpl. destruct e; reflexivity. Qed.

Lemma on_course_run (events : list Event) (st : State) :
  Forall (keeps_filter (currentFilter st)) events ->
  on_course st ->
  on_course (run events st)
  /\ currentFilter (run events st) = currentFilter st
  /\ itemsPerPage (run events st) = itemsPerPage st
  /\ currentPage (run events st) = currentPage st + loads events
  /\ map category (items (run events st)) = map category (items st).
Proof.
  revert st. induction events as [| e events IH]; intros st Hk Hc.
  - simpl. unfold loads. simpl. split; [exact Hc |]. repeat split. lia.
  - apply List.Forall_cons_iff in Hk as [He Hk].
    destruct (on_course_handle e st He Hc) as (Hc1 & Hf1 & Hp1 & Hn1 & Hm1).
    rewrite <- Hf1 in Hk.
    destruct (IH (handle e st) Hk Hc1) as (Hc2 & Hf2 & Hp2 & Hn2 & Hm2).
    change (run (e :: events) st) with (run events (handle e st)).
    rewrite loads_cons.
    split; [exact Hc2 |].
    repeat split; [congruence | congruence | | congruence].
    rewrite Hn2, Hn1. destruct e; lia.
Qed.

Lemma NoDup_firstn {A : Type} (n : nat) (l : list A) :
  List.NoDup l -> List.NoDup (firstn n l).
Proof.
  intros H. rewrite <- (firstn_skipn n l) in H.
  eapply List.NoDup_app_remove_r. exact H.
Qed.

(** Once no timer is pending, a page on course shows exactly its
    window. *)
Lemma on_course_settled (st : State) :
  on_course st ->
  timers st = [] ->
  length (visibleItems st)
  = min (itemsPerPage st * currentPage st) (length (getFilteredItems st)).
Proof.
  intros (Hvis & Hwin & _) Ht.
  rewrite <- length_firstn. fold (page_window st).
  apply Permutation_length. apply Permutation.NoDup_Permutation.
  - apply NoDup_indices_where.
  - apply NoDup_firstn, NoDup_getFilteredItems.
  - intros i. split; [apply Hvis |].
    intros H. destruct (Hwin i H) as [H1 | [H1 | H1]]; [exact H1 | |];
      unfold pending_callbacks in H1; rewrite Ht in H1; destruct H1.
Qed.

Lemma work_app (tms tms' : list Timer) : work (tms ++ tms') = work tms + work tms'.
Proof. unfold work. now rewrite map_app, list_sum_app. Qed.

Lemma work_staggered (its : list nat) : work (staggered its) = length its.
Proof.
  assert (H : forall tms : list Timer,
             work tms
             = list_sum (map (fun cb => match cb with
                                        | RevealFiltered fl => S (length fl)
                                        | RevealItem _ => 1
                                        end) (map callback tms))).
  { intros tms. unfold work. now rewrite map_map. }
  rewrite H, staggered_callbacks, map_map.
  induction its as [| i its IH]; simpl; [reflexivity | now rewrite IH].
Qed.

Lemma length_slice_le {A : Type} (a b : nat) (l : list A) :
  length (slice a b l) <= length l.
Proof.
  unfold slice. rewrite length_firstn, length_skipn. lia.
Qed.

(** Firing the first timer uses up some of the remaining work. *)
Lemma fire_first_work (st : State) :
  timers st <> [] -> work (timers (fire 0 st)) < work (timers st).
Proof.
  intros H. unfold fire. destruct (timers st) as [| tm tms] eqn:E; [congruence |].
  simpl. unfold work at 2. simpl. fold (work tms).
  destruct (callback tm) as [fl | i]; simpl.
  - rewrite work_app, work_staggered.
    pose proof (length_slice_le 0 (itemsPerPage st * currentPage st) fl). lia.
  - lia.
Qed.

Lemma fire_first_quiescent (n : nat) (st : State) :
  work (timers st) <= n -> timers (fire_first n st) = [].
Proof.
  revert st. induction n as [| n IH]; intros st H; simpl.
  - destruct (timers st) as [| tm tms]; [reflexivity |].
    exfalso. unfold work in H. simpl in H. destruct (callback tm); simpl in H; lia.
  - apply IH. destruct (timers st) as [| tm tms] eqn:E.
    + unfold fire. rewrite E. simpl. rewrite E. unfold work. simpl. lia.
    + pose proof (fire_first_work st ltac:(congruence)). rewrite E in H0. lia.
Qed.

(** Draining leaves no timer pending, and is a run of [Fire 0] events. *)
Lemma drain_quiescent (st : State) : timers (drain st) = [].
Proof. unfold drain. now apply fire_first_quiescent. Qed.

Lemma fire_first_run (n : nat) (st : State) :
  fire_first n st = run (repeat (Fire 0) n) st.
Proof.
  revert st. induction n as [| n IH]; intros st; simpl; [reflexivity | apply IH].
Qed.

Lemma drain_run (st : State) :
  drain st = run (repeat (Fire 0) (work (timers st))) st.
Proof. apply fire_first_run. Qed.

Lemma run_app (events events' : list Event) (st : State) :
  run (events ++ events') st = run events' (run events st).
Proof. unfold run. apply fold_left_app. Qed.

Lemma loads_app (events events' : list Event) :
  loads (events ++ events') = loads events + loads events'.
Proof. unfold loads. now rewrite List.filter_app, length_app. Qed.

Lemma loads_repeat_fire (k n : nat) : loads (repeat (Fire k) n) = 0.
Proof.
  induction n as [| n IH]; [reflexivity |].
  change (repeat (Fire k) (S n)) with (Fire k :: repeat (Fire k) n).
  now rewrite loads_cons, IH.
Qed.

Lemma keeps_filter_repeat_fire (f : jsstring) (k n : nat) :
  Forall (keeps_filter f) (repeat (Fire k) n).
Proof. induction n; simpl; constructor; simpl; auto. Qed.

End PortfolioRuns.

Section PortfolioClaim.

Import JS Portfolio.
Local Open Scope nat_scope.

Lemma indices_where_carries (f : jsstring) (its its' : list Item) :
  map category its = map category its' ->
  indices_where (carries f) its = indices_where (carries f) its'.
Proof.
  intros H. apply indices_where_ext.
  - rewrite <- (length_map category its), H. apply length_map.
  - intros i a a' Ha Ha'.
    apply (map_lookup category) in Ha. apply (map_lookup category) in Ha'.
    rewrite H in Ha. unfold carries.
    assert (category a = category a') as -> by congruence. reflexivity.
Qed.

Lemma handleFilterClick_fields (f : jsstring) (st0 : State) :
  streq f (currentFilter st0) = false ->
  currentFilter (handleFilterClick f st0) = f
  /\ itemsPerPage (handleFilterClick f st0) = itemsPerPage st0
  /\ currentPage (handleFilterClick f st0) = 1
  /\ map category (items (handleFilterClick f st0)) = map category (items st0).
Proof.
  intros Hf. unfold handleFilterClick. rewrite Hf.
  destruct (updateLoadMoreButton_fields (filterItems (with_filter st0 f 1)))
    as (-> & -> & -> & -> & _).
  simpl. repeat split. rewrite map_map. reflexivity.
Qed.

(** A click on another filter than the current one, made while no timer
    is pending, followed by any events that are not clicks on a third
    filter: when the timers have run out, the visible items are the first
    [itemsPerPage * page] filtered ones. *)
Lemma filter_run_settled (st0 : State) (f : jsstring) (events : list Event) :
  timers st0 = [] ->
  currentFilter st0 <> f ->
  f <> js "all" ->
  Forall (keeps_filter f) events ->
  timers (run events (handleFilterClick f st0)) = [] ->
  length (visibleItems (run events (handleFilterClick f st0)))
  = min (length (indices_where (carries f) (items st0)))
        (itemsPerPage st0 * (1 + loads events)).
Proof.
  intros Ht Hne Hall Hev Hq.
  assert (Hf : streq f (currentFilter st0) = false)
    by (apply streq_neq; congruence).
  destruct (handleFilterClick_fields f st0 Hf) as (Ef & Ep & En & Em).
  pose proof (on_course_click f st0 Ht Hf) as Hc.
  rewrite <- Ef in Hev.
  destruct (on_course_run events _ Hev Hc) as (Hc' & Ef' & Ep' & En' & Em').
  assert (HF : getFilteredItems (run events (handleFilterClick f st0))
               = indices_where (carries f) (items st0)).
  { unfold getFilteredItems. rewrite Ef', Ef.
    apply streq_neq in Hall. rewrite Hall.
    apply indices_where_carries. congruence. }
  rewrite (on_course_settled _ Hc' Hq), HF, Ep', Ep, En', En.
  apply Nat.min_comm.
Qed.

(** Draining after each step is one such run. *)
Lemma drained_steps (s : State) (n : nat) :
  exists events : list Event,
    Forall (keeps_filter (currentFilter s)) events
    /\ loads events = n
    /\ Nat.iter n (fun st => drain (loadMore st)) (drain s) = run events s.
Proof.
  induction n as [| n (events & Hk & Hl & Hr)].
  - exists (repeat (Fire 0) (work (timers s))).
    split; [apply keeps_filter_repeat_fire |].
    split; [apply loads_repeat_fire |].
    simpl. apply drain_run.
  - set (s' := run events s) in *.
    exists (events ++ ClickLoadMore :: repeat (Fire 0) (work (timers (loadMore s')))).
    split; [| split].
    + apply Forall_app. split; [exact Hk |].
      constructor; [exact I | apply keeps_filter_repeat_fire].
    + rewrite loads_app, loads_cons, loads_repeat_fire, Hl. lia.
    + simpl Nat.iter. rewrite Hr, run_app. fold s'. simpl. apply drain_run.
Qed.

Lemma drained_steps_quiescent (s : State) (n : nat) :
  timers (Nat.iter n (fun st => drain (loadMore st)) (drain s)) = [].
Proof. destruct n; simpl; apply drain_quiescent. Qed.

(** X26.  Start from a page on which no reveal timer is pending, and
    click a filter [f] that is neither the current one nor ['all']; let
    [k] be the number of items whose comma-separated category list
    includes [f].  Then, whatever load-more clicks and timer firings
    follow (in any order), once no timer is pending the number of items
    without the [hidden] class is [min(k, itemsPerPage * page)], where
    [page - 1] is the number of load-more clicks.  In particular it is
    [min(k, itemsPerPage)] when the timers run out before any load-more,
    and [min(k, itemsPerPage * (1 + n))] after [n] load-more clicks, the
    timers running out after each. *)
Theorem filter_shows_window (st0 : State) (f : jsstring) :
  timers st0 = [] ->
  currentFilter st0 <> f ->
  f <> js "all" ->
  let k := length (indices_where (carries f) (items st0)) in
  (forall events : list Event,
      Forall (keeps_filter f) events ->
      timers (run events (handleFilterClick f st0)) = [] ->
      length (visibleItems (run events (handleFilterClick f st0)))
      = min k (itemsPerPage st0 * (1 + loads events)))
  /\ length (visibleItems (drain (handleFilterClick f st0)))
     = min k (itemsPerPage st0)
  /\ (forall n : nat,
        length (visibleItems
                  (Nat.iter n (fun st => drain (loadMore st))
                     (drain (handleFilterClick f st0))))
        = min k (itemsPerPage st0 * (1 + n))).
Proof.
  intros Ht Hne Hall k.
  assert (Hf : streq f (currentFilter st0) = false)
    by (apply streq_neq; congruence).
  destruct (handleFilterClick_fields f st0 Hf) as (Ef & _).
  assert (Hn : forall n : nat,
             length (visibleItems
                       (Nat.iter n (fun st => drain (loadMore st))
                          (drain (handleFilterClick f st0))))
             = min k (itemsPerPage st0 * (1 + n))).
  { intros n.
    destruct (drained_steps (handleFilterClick f st0) n) as (events & Hk & Hl & Hr).
    pose proof (drained_steps_quiescent (handleFilterClick f st0) n) as Hq.
    rewrite Hr in Hq |- *. rewrite Ef in Hk. rewrite <- Hl.
    apply filter_run_settled; assumption. }
  split; [| split].
  - intros events Hev Hq. apply filter_run_settled; assumption.
  - specialize (Hn 0). simpl in Hn. rewrite Hn. f_equal. lia.
  - exact Hn.
Qed.

End PortfolioClaim.

Section PortfolioExamples.

Import JS Portfolio.
Local Open Scope nat_scope.

Lemma filter_shows_window_witness :
  let st0 := drain (init sample_items (Some true)) in
  let st1 := drain (handleFilterClick (js "web") st0) in
  length (visibleItems st1) = 6
  /\ length (visibleItems (drain (loadMore st1))) = 8.
Proof.
  cbv zeta.
  destruct (filter_shows_window (drain (init sample_items (Some true))) (js "web"))
    as (_ & H1 & Hn).
  - vm_compute. reflexivity.
  - intros H. vm_compute in H. discriminate.
  - intros H. vm_compute in H. discriminate.
  - split.
    + rewrite H1. vm_compute. reflexivity.
    + specialize (Hn 1). simpl Nat.iter in Hn. rewrite Hn. vm_compute. reflexivity.
Defined.

(** C5, a run of the code.  [filterItems] hides every item and
    arms a timer that reveals the filtered ones, but never cancels the
    timer of an earlier call.  On a page at rest, a click on the filter
    [design] hides every item and arms a reveal timer.  A click on [web],
    carried by 8 of the 10 items, made before that timer fires hides every
    item again and arms a second timer.  When all timers have fired, the
    two [design] items and the first six [web] items are visible: 7 items,
    one of them not in [web], instead of [min(8, 6) = 6]. *)
Lemma click_before_reveal_shows_more :
  let st0 := handleFilterClick (js "design") (drain (init sample_items (Some true))) in
  let st := drain (handleFilterClick (js "web") st0) in
  length (indices_where (carries (js "web")) (items st0)) = 8
  /\ itemsPerPage st0 = 6
  /\ currentFilter st = js "web"
  /\ currentPage st = 1
  /\ timers st = []
  /\ visibleItems st = [0; 1; 2; 3; 4; 5; 6]
  /\ length (visibleItems st) <> min 8 6.
Proof.
  cbv zeta. repeat split; try (vm_compute; reflexivity).
  vm_compute. discriminate.
Qed.

End PortfolioExamples.

(** * Further properties *)

(** ** Patterns, [trim] and [split] *)

Section Patterns.

Import JS.

Lemma matches_eps_inv (s : jsstring) : matches Eps s -> s = [].
Proof. intros H. now inversion H. Qed.

Lemma matches_class_inv (p : N -> bool) (s : jsstring) :
  matches (Class p) s -> exists c, s = [c] /\ p c = true.
Proof. intros H. inversion H; subst. eauto. Qed.

Lemma matches_seq_inv (r1 r2 : regex) (s : jsstring) :
  matches (Seq r1 r2) s ->
  exists s1 s2, s = s1 ++ s2 /\ matches r1 s1 /\ matches r2 s2.
Proof. intros H. inversion H; subst. eauto. Qed.

Lemma matches_alt_inv (r1 r2 : regex) (s : jsstring) :
  matches (Alt r1 r2) s -> matches r1 s \/ matches r2 s.
Proof. intros H. inversion H; subst; auto. Qed.

Lemma matches_never_inv (s : jsstring) : ~ matches Never s.
Proof. intros H. inversion H. Qed.

Lemma nullable_matches (r : regex) : nullable r = true <-> matches r [].
Proof.
  induction r as [| | p | r1 IH1 r2 IH2 | r1 IH1 r2 IH2 | r IH]; simpl.
  - split; [discriminate | intros H; now apply matches_never_inv in H].
  - split; [constructor | reflexivity].
  - split; [discriminate |].
    intros H. apply matches_class_inv in H as (c & E & _). discriminate.
  - rewrite andb_true_iff, IH1, IH2. split.
    + intros [H1 H2]. change (@nil N) with (@nil N ++ []). now constructor.
    + intros H. apply matches_seq_inv in H as (s1 & s2 & E & H1 & H2).
      symmetry in E. apply app_eq_nil in E as [-> ->]. auto.
  - rewrite orb_true_iff, IH1, IH2. split.
    + intros [H | H]; [now apply matches_alt_l | now apply matches_alt_r].
    + apply matches_alt_inv.
  - split; [constructor | reflexivity].
Qed.

(** A non-empty match of [r*] starts with a non-empty match of [r]. *)
Lemma matches_star_cons (r : regex) (c : N) (s : jsstring) :
  matches (Star r) (c :: s) ->
  exists s1 s2, s = s1 ++ s2 /\ matches r (c :: s1) /\ matches (Star r) s2.
Proof.
  intros H. remember (Star r) as r' eqn:Er. remember (c :: s) as cs eqn:Es.
  revert s Es.
  induction H as [| | | | | r0 | r0 s1 s2 H1 _ H2 IH2]; try discriminate.
  injection Er as ->. intros s Es.
  destruct s1 as [| d s1].
  - simpl in Es. apply (IH2 eq_refl). exact Es.
  - simpl in Es. injection Es as -> <-. eauto.
Qed.

Lemma matches_seq_cons (r1 r2 : regex) (c : N) (s : jsstring) :
  matches (Seq r1 r2) (c :: s) ->
  (exists s1 s2, s = s1 ++ s2 /\ matches r1 (c :: s1) /\ matches r2 s2)
  \/ (matches r1 [] /\ matches r2 (c :: s)).
Proof.
  intros H. apply matches_seq_inv in H as (s1 & s2 & E & H1 & H2).
  destruct s1 as [| d s1]; simpl in E.
  - right. subst. auto.
  - left. injection E as -> ->. eauto.
Qed.

Lemma deriv_matches (r : regex) (c : N) (s : jsstring) :
  matches (deriv c r) s <-> matches r (c :: s).
Proof.
  revert s.
  induction r as [| | p | r1 IH1 r2 IH2 | r1 IH1 r2 IH2 | r IH]; intros s; simpl.
  - split; intros H; now apply matches_never_inv in H.
  - split; intros H; [now apply matches_never_inv in H |].
    apply matches_eps_inv in H. discriminate.
  - destruct (p c) eqn:E.
    + split; intros H.
      * apply matches_eps_inv in H as ->. now constructor.
      * apply matches_class_inv in H as (d & [= <- ->] & _). constructor.
    + split; intros H; [now apply matches_never_inv in H |].
      apply matches_class_inv in H as (d & [= <- ->] & Hd). congruence.
  - assert (Hseq : matches (Seq (deriv c r1) r2) s ->
                   matches (Seq r1 r2) (c :: s)).
    { intros H. apply matches_seq_inv in H as (s1 & s2 & -> & H1 & H2).
      apply IH1 in H1. change (c :: s1 ++ s2) with ((c :: s1) ++ s2).
      now constructor. }
    destruct (nullable r1) eqn:En.
    + split.
      * intros H. apply matches_alt_inv in H as [H | H]; [auto |].
        apply nullable_matches in En. apply IH2 in H.
        change (c :: s) with ([] ++ c :: s). now constructor.
      * intros H.
        destruct (matches_seq_cons _ _ _ _ H)
          as [(s1 & s2 & -> & H1 & H2) | [_ H2]].
        -- apply matches_alt_l. constructor; [now apply IH1 | exact H2].
        -- apply matches_alt_r. now apply IH2.
    + split; [exact Hseq |].
      intros H.
      destruct (matches_seq_cons _ _ _ _ H)
        as [(s1 & s2 & -> & H1 & H2) | [H1 _]].
      * constructor; [now apply IH1 | exact H2].
      * apply nullable_matches in H1. congruence.
  - split; intros H; apply matches_alt_inv in H as [H | H].
    + apply matches_alt_l. now apply IH1.
    + apply matches_alt_r. now apply IH2.
    + apply matches_alt_l. now apply IH1.
    + apply matches_alt_r. now apply IH2.
  - split.
    + intros H. apply matches_seq_inv in H as (s1 & s2 & -> & H1 & H2).
      apply IH in H1. change (c :: s1 ++ s2) with ((c :: s1) ++ s2).
      now constructor.
    + intros H. apply matches_star_cons in H as (s1 & s2 & -> & H1 & H2).
      constructor; [now apply IH | exact H2].
Qed.

(** [test] decides whether the pattern matches the whole string. *)
Lemma test_matches (r : regex) (s : jsstring) : test r s = true <-> matches r s.
Proof.
  revert r. induction s as [| c s IH]; intros r; simpl.
  - apply nullable_matches.
  - rewrite IH. apply deriv_matches.
Qed.

End Patterns.

Section PatternShapes.

Import JS.

Lemma matches_lit (a : ascii) (s : jsstring) : matches (Lit a) s <-> s = [chr a].
Proof.
  unfold Lit. split.
  - intros H. apply matches_class_inv in H as (c & -> & Hc).
    apply N.eqb_eq in Hc. now subst.
  - intros ->. constructor. apply N.eqb_refl.
Qed.

Lemma matches_star_class (p : N -> bool) (s : jsstring) :
  matches (Star (Class p)) s <-> all p s.
Proof.
  split.
  - intros H. remember (Star (Class p)) as r eqn:Er.
    induction H as [| | | | | r0 | r0 s1 s2 H1 _ H2 IH2]; try discriminate.
    + constructor.
    + injection Er as ->. apply matches_class_inv in H1 as (c & -> & Hc).
      constructor; [exact Hc | now apply IH2].
  - intros H. induction H as [| c s Hc _ IH]; [constructor |].
    change (c :: s) with ([c] ++ s). constructor; [now constructor | exact IH].
Qed.

Lemma matches_plus_class (p : N -> bool) (s : jsstring) :
  matches (Plus (Class p)) s <-> s <> [] /\ all p s.
Proof.
  unfold Plus. split.
  - intros H. apply matches_seq_inv in H as (s1 & s2 & -> & H1 & H2).
    apply matches_class_inv in H1 as (c & -> & Hc).
    apply matches_star_class in H2. split; [discriminate |].
    constructor; assumption.
  - intros [Hne H]. destruct H as [| c s Hc H]; [congruence |].
    change (c :: s) with ([c] ++ s).
    constructor; [now constructor | now apply matches_star_class].
Qed.

Lemma matches_opt (r : regex) (s : jsstring) :
  matches (Opt r) s <-> s = [] \/ matches r s.
Proof.
  unfold Opt. split.
  - intros H. apply matches_alt_inv in H as [H | H]; [left | now right].
    now apply matches_eps_inv.
  - intros [-> | H]; [apply matches_alt_l; constructor | now apply matches_alt_r].
Qed.

Lemma matches_upto_class (n : nat) (p : N -> bool) (s : jsstring) :
  matches (UpTo n (Class p)) s <-> all p s /\ (length s <= n)%nat.
Proof.
  revert s. induction n as [| n IH]; intros s; simpl UpTo.
  - split.
    + intros H. apply matches_eps_inv in H as ->. split; [constructor | simpl; lia].
    + intros [_ H]. destruct s; [constructor | simpl in H; lia].
  - rewrite matches_opt. split.
    + intros [-> | H]; [split; [constructor | simpl; lia] |].
      apply matches_seq_inv in H as (s1 & s2 & -> & H1 & H2).
      apply matches_class_inv in H1 as (c & -> & Hc).
      apply IH in H2 as [H2 Hlen]. split; [now constructor | simpl; lia].
    + intros [H Hlen]. destruct H as [| c s Hc H]; [now left | right].
      change (c :: s) with ([c] ++ s). constructor; [now constructor |].
      apply IH. split; [exact H | simpl in Hlen; lia].
Qed.

End PatternShapes.

(** ** ContactForm: what the validators accept *)

Section Validators.

Import JS ContactForm.

(** X1.  The [email] validator accepts exactly the values of the form
    [local@domain.tld] whose three parts are non-empty and hold neither
    white space nor [@]. *)
Theorem email_accepts (value : jsstring) :
  let plain := fun c => negb (is_whitespace c || (c =? chr "@")) in
  validators.email value = true <->
  exists local domain tld : jsstring,
    value = local ++ chr "@" :: domain ++ chr "." :: tld
    /\ local <> [] /\ domain <> [] /\ tld <> []
    /\ all plain local /\ all plain domain /\ all plain tld.
Proof.
  intros plain. unfold validators.email. rewrite test_matches.
  unfold validators.email_pattern, validators.not_space_at. fold plain.
  split.
  - intros H.
    apply matches_seq_inv in H as (local & s1 & -> & Hl & H).
    apply matches_seq_inv in H as (at_ & s2 & -> & Ha & H).
    apply matches_seq_inv in H as (domain & s3 & -> & Hd & H).
    apply matches_seq_inv in H as (dot & tld & -> & Hdot & Ht).
    apply matches_lit in Ha as ->. apply matches_lit in Hdot as ->.
    apply matches_plus_class in Hl as [? ?].
    apply matches_plus_class in Hd as [? ?].
    apply matches_plus_class in Ht as [? ?].
    exists local, domain, tld. repeat split; assumption.
  - intros (local & domain & tld & -> & Hl & Hd & Ht & Al & Ad & At).
    constructor; [now apply matches_plus_class |].
    change (chr "@" :: domain ++ chr "." :: tld)
      with ([chr "@"] ++ domain ++ [chr "."] ++ tld).
    constructor; [now apply matches_lit |].
    constructor; [now apply matches_plus_class |].
    constructor; [now apply matches_lit | now apply matches_plus_class].
Qed.

(** X2.  The [phone] validator looks at the value with its white space
    removed, and accepts exactly an optional [+], a digit from 1 to 9, and
    at most fifteen more digits. *)
Theorem phone_accepts (value : jsstring) :
  validators.phone value = true <->
  exists (sign : jsstring) (d : N) (rest : jsstring),
    remove_whitespace value = sign ++ d :: rest
    /\ (sign = [] \/ sign = [chr "+"])
    /\ (chr "1" <= d <= chr "9")%N
    /\ all is_digit rest
    /\ (length rest <= 15)%nat.
Proof.
  unfold validators.phone. rewrite test_matches. unfold validators.phone_pattern.
  split.
  - intros H.
    apply matches_seq_inv in H as (sign & s1 & -> & Hs & H).
    apply matches_seq_inv in H as (ds & rest & -> & Hd & Hr).
    apply matches_class_inv in Hd as (d & -> & Hd).
    apply andb_true_iff in Hd as [H1 H9].
    apply N.leb_le in H1. apply N.leb_le in H9.
    apply matches_upto_class in Hr as [Hr Hlen].
    apply matches_opt in Hs as [-> | Hs].
    + exists [], d, rest. auto 10.
    + apply matches_lit in Hs as ->. exists [chr "+"], d, rest. auto 10.
  - intros (sign & d & rest & -> & Hs & [H1 H9] & Hr & Hlen).
    constructor.
    + apply matches_opt. destruct Hs as [-> | ->]; [now left | right].
      now apply matches_lit.
    + change (d :: rest) with ([d] ++ rest). constructor.
      * constructor. apply andb_true_iff. split; now apply N.leb_le.
      * now apply matches_upto_class.
Qed.

(** X3.  The [required] validator rejects exactly the values made of
    white space only (the empty value among them). *)
Theorem required_rejects_blank (value : jsstring) :
  validators.required value = false <-> all is_whitespace value.
Proof.
  unfold validators.required. rewrite negb_false_iff, streq_eq. apply trim_nil.
Qed.

End Validators.

Section FormRuns.

Import JS ContactForm.

Lemma run_snoc (events : list Event) (e : Event) (st : State) :
  run (events ++ [e]) st = handle e (run events st).
Proof. unfold run. now rewrite fold_left_app. Qed.

Lemma flag_tracks_call_handle (e : Event) (st : State) :
  flag_tracks_call st -> flag_tracks_call (handle e st).
Proof.
  intros H. pose proof H as (Hset & Hclear & b & Hb & Hd).
  destruct e as [| fulfilled | i | i text |]; simpl.
  - unfold handleSubmit. destruct (isSubmitting st) eqn:E; simpl; [exact H |].
    destruct (validateForm (inputs st)) as [fields isValid].
    destruct isValid; simpl.
    + unfold updateSubmitButton. simpl. rewrite Hb. simpl.
      unfold flag_tracks_call. simpl. rewrite (Hclear eq_refl). simpl.
      split; [reflexivity |]. split; [discriminate |]. eexists; split; reflexivity.
    + unfold flag_tracks_call. simpl. rewrite E.
      split; [discriminate |]. split; [intros _; now apply Hclear |].
      exists b. split; [exact Hb | congruence].
  - unfold settle. destruct (pending st) as [| call calls] eqn:Ep; simpl;
      [exact H |].
    destruct fulfilled; unfold finish, updateSubmitButton; simpl; rewrite Hb;
      unfold flag_tracks_call; simpl.
    + assert (calls = []) as ->.
      { destruct (isSubmitting st); [| now specialize (Hclear eq_refl)].
        specialize (Hset eq_refl). destruct calls; [reflexivity | discriminate]. }
      split; [discriminate |]. split; [reflexivity |]. eexists; split; reflexivity.
    + assert (calls = []) as ->.
      { destruct (isSubmitting st); [| now specialize (Hclear eq_refl)].
        specialize (Hset eq_refl). destruct calls; [reflexivity | discriminate]. }
      split; [discriminate |]. split; [reflexivity |]. eexists; split; reflexivity.
  - exact H.
  - exact H.
  - unfold hideMessage. destruct (hideTimers st); exact H.
Qed.


Lemma no_button_handle (e : Event) (st : State) :
  submitBtn st = None -> pending st = [] ->
  submitBtn (handle e st) = None
  /\ pending (handle e st) = []
  /\ (isSubmitting st = true -> isSubmitting (handle e st) = true).
Proof.
  intros Hb Hp. destruct e as [| fulfilled | i | i text |]; simpl.
  - unfold handleSubmit. destruct (isSubmitting st) eqn:E; simpl.
    + repeat split; auto.
    + destruct (validateForm (inputs st)) as [fields isValid].
      destruct isValid; simpl.
      * unfold updateSubmitButton. simpl. rewrite Hb. simpl.
        repeat split; auto.
      * repeat split; auto; discriminate.
  - unfold settle. rewrite Hp. simpl. repeat split; auto.
  - repeat split; auto.
  - repeat split; auto.
  - unfold hideMessage. destruct (hideTimers st); simpl; repeat split; auto.
Qed.

Lemma no_button_run (events : list Event) (st : State) :
  submitBtn st = None -> pending st = [] ->
  submitBtn (run events st) = None
  /\ pending (run events st) = []
  /\ (isSubmitting st = true -> isSubmitting (run events st) = true).
Proof.
  revert st. induction events as [| e events IH]; intros st Hb Hp; simpl; [auto |].
  destruct (no_button_handle e st Hb Hp) as (Hb' & Hp' & Hs').
  destruct (IH _ Hb' Hp') as (Hb'' & Hp'' & Hs''). auto.
Qed.

(** X7.  On a page without a [.form-submit] element nothing is ever
    submitted: no call of [submitToAPI] is ever pending, and a submit event
    on a form whose inputs are all valid sets [isSubmitting] before the
    button update throws, after which the flag stays set through every
    later event, so that every later submit event is ignored. *)
Theorem missing_button_locks_form (fields : list Field) (events : list Event) :
  let st := run events (init fields false) in
  pending st = []
  /\ (isSubmitting st = true ->
      forall more, isSubmitting (run more st) = true /\ pending (run more st) = [])
  /\ (snd (validateForm fields) = true ->
      isSubmitting (run [Submit] (init fields false)) = true
      /\ snd (handleSubmit (init fields false))
         = [Validated (length fields); Threw]).
Proof.
  intros st.
  destruct (no_button_run events (init fields false) eq_refl eq_refl)
    as (Hb & Hp & _).
  split; [exact Hp |]. split.
  - intros Hs more.
    destruct (no_button_run more st Hb Hp) as (_ & Hp' & Hs'). auto.
  - intros Hv. simpl. unfold handleSubmit. simpl.
    destruct (validateForm fields) as [fields' isValid]. simpl in Hv. subst.
    simpl. auto.
Qed.

Lemma missing_button_locks_form_witness :
  let field :=
    mkField (js "name") (js "Ana") [] (Some (js "required")) false false None in
  let st := run [Submit] (init [field] false) in
  isSubmitting st = true
  /\ isSubmitting (run [Settle true; Submit] st) = true
  /\ pending (run [Settle true; Submit] st) = [].
Proof.
  cbv zeta.
  pose proof (missing_button_locks_form
                [mkField (js "name") (js "Ana") [] (Some (js "required"))
                   false false None] [Submit]) as (_ & Hlock & _).
  pose proof (missing_button_locks_form
                [mkField (js "name") (js "Ana") [] (Some (js "required"))
                   false false None] []) as (_ & _ & Hfirst).
  split; [apply (Hfirst eq_refl) |].
  apply (Hlock (proj1 (Hfirst eq_refl))).
Defined.

End FormRuns.

(** ** WhatsAppForm: the link *)

Section Encoding.

Import JS.

Lemma hex_digit_unreserved (d : N) : d < 16 -> uri_unreserved (hex_digit d) = true.
Proof.
  intros H. unfold hex_digit, uri_unreserved.
  destruct (N.ltb_spec d 10) as [Hd | Hd].
  - assert (is_digit (48 + d) = true) as ->.
    { unfold is_digit. apply andb_true_iff. split; apply N.leb_le; lia. }
    now rewrite orb_true_r.
  - assert (is_alpha (65 + (d - 10)) = true) as ->.
    { unfold is_alpha. apply orb_true_iff. left.
      apply andb_true_iff. split; apply N.leb_le; lia. }
    reflexivity.
Qed.

Lemma percent_safe (b : N) : b < 256 -> all uri_safe (percent b).
Proof.
  intros H. unfold percent, all, uri_safe.
  assert (b / 16 < 16) by (apply N.Div0.div_lt_upper_bound; lia).
  assert (b mod 16 < 16) by (apply N.mod_lt; lia).
  constructor; [reflexivity |].
  constructor; [now rewrite hex_digit_unreserved |].
  constructor; [now rewrite hex_digit_unreserved | constructor].
Qed.

Lemma utf8_encode_bytes (cp : N) :
  cp < 1114112 -> Forall (fun b => b < 256) (utf8_encode cp).
Proof.
  intros H. unfold utf8_encode.
  assert (Hm : forall a, 128 + a mod 64 < 256).
  { intros a. pose proof (N.mod_lt a 64). lia. }
  destruct (N.ltb_spec cp 128); [repeat constructor; lia |].
  destruct (N.ltb_spec cp 2048).
  { repeat constructor; [| apply Hm].
    assert (cp / 64 < 32) by (apply N.Div0.div_lt_upper_bound; lia). lia. }
  destruct (N.ltb_spec cp 65536).
  { repeat constructor; try apply Hm.
    assert (cp / 4096 < 16) by (apply N.Div0.div_lt_upper_bound; lia). lia. }
  repeat constructor; try apply Hm.
  assert (cp / 262144 < 5) by (apply N.Div0.div_lt_upper_bound; lia). lia.
Qed.

Lemma encoded_bytes_safe (cp : N) :
  cp < 1114112 -> all uri_safe (concat (map percent (utf8_encode cp))).
Proof.
  intros H. pose proof (utf8_encode_bytes cp H) as Hb.
  induction Hb as [| b bs Hlt _ IH]; cbn [map concat]; [constructor |].
  apply Forall_app. split; [now apply percent_safe | exact IH].
Qed.

Lemma encodeURIComponent_safe_aux (n : nat) (s e : jsstring) :
  (length s <= n)%nat ->
  all code_unit s ->
  encodeURIComponent s = Some e ->
  all uri_safe e.
Proof.
  revert s e. induction n as [| n IH]; intros s e Hlen Hs He.
  - destruct s; [| simpl in Hlen; lia]. injection He as <-. constructor.
  - destruct s as [| c s]; [injection He as <-; constructor |].
    inversion Hs as [| ? ? Hc Hs']; subst. simpl in Hlen.
    unfold code_unit in Hc. apply N.ltb_lt in Hc.
    simpl in He.
    destruct (uri_unreserved c) eqn:Eu.
    { destruct (encodeURIComponent s) as [e' |] eqn:E; [| discriminate].
      injection He as <-. constructor.
      - unfold uri_safe. now rewrite Eu.
      - apply (IH s); [lia | exact Hs' | exact E]. }
    destruct (is_low_surrogate c); [discriminate |].
    destruct (is_high_surrogate c) eqn:Eh.
    + destruct s as [| d s]; [discriminate |].
      destruct (is_low_surrogate d) eqn:El; [| discriminate].
      inversion Hs' as [| ? ? Hd Hs'']; subst. simpl in Hlen.
      destruct (encodeURIComponent s) as [e' |] eqn:E; [| discriminate].
      injection He as <-. apply Forall_app. split.
      * apply encoded_bytes_safe.
        unfold is_high_surrogate in Eh. unfold is_low_surrogate in El.
        apply andb_true_iff in Eh as [Eh1 Eh2]. apply andb_true_iff in El as [El1 El2].
        apply N.leb_le in Eh1, Eh2, El1, El2. lia.
      * apply (IH s); [lia | exact Hs'' | exact E].
    + destruct (encodeURIComponent s) as [e' |] eqn:E; [| discriminate].
      injection He as <-. apply Forall_app. split.
      * apply encoded_bytes_safe. lia.
      * apply (IH s); [lia | exact Hs' | exact E].
Qed.

(** The encoded text holds only unreserved characters and [%]. *)
Lemma encodeURIComponent_safe (s e : jsstring) :
  all code_unit s -> encodeURIComponent s = Some e -> all uri_safe e.
Proof. apply (encodeURIComponent_safe_aux (length s)). lia. Qed.

(** A text without surrogates is always encoded. *)
Lemma encodeURIComponent_total (s : jsstring) :
  all not_surrogate s -> exists e, encodeURIComponent s = Some e.
Proof.
  intros H. induction H as [| c s Hc _ (e & IH)]; simpl; [eauto |].
  unfold not_surrogate in Hc. apply andb_true_iff in Hc as [_ Hc].
  apply negb_true_iff, orb_false_iff in Hc as [-> ->].
  rewrite IH. destruct (uri_unreserved c); simpl; eauto.
Qed.

End Encoding.

Section WhatsAppLink.

Import JS WhatsAppForm.

Lemma lookup_label_in (table : list (jsstring * jsstring)) (key label : jsstring) :
  lookup_label table key = Some label -> In label (map snd table).
Proof.
  induction table as [| [k l] table IH]; simpl; [discriminate |].
  destruct (streq k key); [intros [= ->]; now left | intros H; right; auto].
Qed.

Lemma getFieldLabel_all (p : N -> bool) (key : jsstring) :
  literals_satisfy p -> all p key -> all p (getFieldLabel key).
Proof.
  intros (_ & _ & _ & _ & _ & Hl) Hk. unfold getFieldLabel.
  rewrite List.Forall_forall in Hl.
  destruct (lookup_label labels key) as [label |] eqn:E.
  - destruct (truthy label); [| exact Hk].
    apply lookup_label_in in E. apply in_map_iff in E as (entry & <- & Hin).
    apply Hl, in_or_app. now left.
  - destruct (lookup_label inherited key) as [text |] eqn:E2; [| exact Hk].
    apply lookup_label_in in E2. apply in_map_iff in E2 as (entry & <- & Hin).
    apply Hl, in_or_app. now right.
Qed.

Lemma buildMessage_all (p : N -> bool) (data : list (jsstring * jsstring)) :
  literals_satisfy p -> data_satisfy p data -> all p (buildMessage data).
Proof.
  intros Hlit Hdata. rewrite buildMessage_shape.
  pose proof Hlit as (Hg & Hc & Hstar & Hcolon & Hlf & _).
  apply Forall_app. split; [exact Hg |].
  apply Forall_app. split; [| exact Hc].
  induction Hdata as [| [key value] data [Hk Hv] _ IH]; simpl; [constructor |].
  destruct (kept (key, value)); [| exact IH]. cbn [map concat fst snd].
  apply Forall_app. split; [| exact IH].
  unfold line. apply Forall_app. split; [exact Hstar |].
  apply Forall_app. split; [now apply getFieldLabel_all |].
  apply Forall_app. split; [exact Hcolon |].
  apply Forall_app. split; [exact Hv |]. now constructor.
Qed.

Lemma all_forallb (p : N -> bool) (s : jsstring) :
  forallb p s = true -> all p s.
Proof. intros H. apply List.Forall_forall. now apply forallb_forall. Qed.

Lemma data_forallb (p : N -> bool) (data : list (jsstring * jsstring)) :
  forallb (fun entry => forallb p (fst entry) && forallb p (snd entry)) data = true ->
  data_satisfy p data.
Proof.
  intros H. apply List.Forall_forall. intros entry Hin.
  rewrite forallb_forall in H. apply H in Hin.
  apply andb_true_iff in Hin as [H1 H2]. split; now apply all_forallb.
Qed.

Lemma literals_forallb (p : N -> bool) :
  forallb p greeting && forallb p closing && forallb p (js "*")
  && forallb p (js ":* ") && p LF
  && forallb (fun entry => forallb p (snd entry)) (labels ++ inherited) = true ->
  literals_satisfy p.
Proof.
  intros H.
  apply andb_true_iff in H as [H Hl]. apply andb_true_iff in H as [H Hlf].
  apply andb_true_iff in H as [H Hcolon]. apply andb_true_iff in H as [H Hstar].
  apply andb_true_iff in H as [Hg Hc].
  unfold literals_satisfy.
  split; [now apply all_forallb |]. split; [now apply all_forallb |].
  split; [now apply all_forallb |]. split; [now apply all_forallb |].
  split; [exact Hlf |].
  apply List.Forall_forall. intros entry Hin.
  rewrite forallb_forall in Hl. apply Hl in Hin. now apply all_forallb.
Qed.

Lemma literals_code_units : literals_satisfy code_unit.
Proof. apply literals_forallb. vm_compute. reflexivity. Qed.

Lemma literals_not_surrogates : literals_satisfy not_surrogate.
Proof. apply literals_forallb. vm_compute. reflexivity. Qed.

(** X9.  Whatever the fields hold (any UTF-16 code units), when the link
    is opened it is the fixed prefix followed by a text made only of
    letters, digits, [- _ . ! ~ * ' ( )] and [%]: no field value can put an
    [&], a [#], a space or a line break into the link. *)
Theorem whatsapp_link_is_safe (data : list (jsstring * jsstring)) (url : jsstring) :
  data_satisfy code_unit data ->
  handleSubmit data = Some url ->
  exists text : jsstring,
    url = link_prefix ++ text
    /\ all uri_safe text
    /\ ~ In (chr "&") text /\ ~ In (chr "#") text
    /\ ~ In (chr " ") text /\ ~ In LF text.
Proof.
  intros Hdata Hurl. unfold handleSubmit, openWhatsApp in Hurl.
  destruct (encodeURIComponent (buildMessage data)) as [text |] eqn:E;
    [| discriminate].
  injection Hurl as <-. exists text.
  assert (Hsafe : all uri_safe text).
  { eapply encodeURIComponent_safe; [| exact E].
    apply buildMessage_all; [apply literals_code_units | exact Hdata]. }
  split; [reflexivity |]. split; [exact Hsafe |].
  unfold all in Hsafe. rewrite List.Forall_forall in Hsafe.
  repeat split; intros H; apply Hsafe in H; discriminate.
Qed.

Lemma whatsapp_link_is_safe_witness :
  exists text : jsstring,
    js "https://wa.me/5511914823015?text=Ol%C3%A1!%20Gostaria%20de%20solicitar%20um%20or%C3%A7amento%3A%0A%0A*Nome%3A*%20A%26B%0A%0AAguardo%20retorno.%20Obrigado!"
    = link_prefix ++ text
    /\ all uri_safe text
    /\ ~ In (chr "&") text /\ ~ In (chr "#") text
    /\ ~ In (chr " ") text /\ ~ In LF text.
Proof.
  apply (whatsapp_link_is_safe [(js "name", js "A&B")]).
  - apply data_forallb. vm_compute. reflexivity.
  - vm_compute. reflexivity.
Defined.

(** X10.  When no field name or value holds a surrogate code unit, the
    encoding cannot throw and the link is opened. *)
Theorem whatsapp_link_is_opened (data : list (jsstring * jsstring)) :
  data_satisfy not_surrogate data ->
  exists text : jsstring,
    encodeURIComponent (buildMessage data) = Some text
    /\ handleSubmit data = Some (link_prefix ++ text).
Proof.
  intros Hdata.
  destruct (encodeURIComponent_total (buildMessage data)) as (text & E).
  { apply buildMessage_all; [apply literals_not_surrogates | exact Hdata]. }
  exists text. split; [exact E |].
  unfold handleSubmit, openWhatsApp. rewrite E. reflexivity.
Qed.

Lemma whatsapp_link_is_opened_witness :
  exists text : jsstring,
    encodeURIComponent
      (buildMessage [(js "name", js "Ana"); (js "message", js "Olá, tudo bem?")])
    = Some text
    /\ handleSubmit [(js "name", js "Ana"); (js "message", js "Olá, tudo bem?")]
       = Some (link_prefix ++ text).
Proof.
  apply whatsapp_link_is_opened. apply data_forallb. vm_compute. reflexivity.
Defined.

End WhatsAppLink.

Section LoneSurrogate.

Import JS WhatsAppForm.

Lemma existsb_eqb_above (c bound : N) (l : list N) :
  forallb (fun k => k <? bound) l = true -> bound <= c ->
  existsb (N.eqb c) l = false.
Proof.
  intros Hl Hc. induction l as [| k l IH]; [reflexivity |].
  cbn [forallb] in Hl. apply andb_true_iff in Hl as [Hk Hl].
  apply N.ltb_lt in Hk. cbn [existsb]. rewrite (IH Hl).
  destruct (N.eqb_spec c k); [lia | reflexivity].
Qed.

Lemma surrogate_reserved (c : N) :
  (is_low_surrogate c || is_high_surrogate c) = true -> uri_unreserved c = false.
Proof.
  intros H.
  assert (Hc : 55296 <= c).
  { apply orb_true_iff in H as [H | H]; apply andb_true_iff in H as [H _];
      apply N.leb_le in H; lia. }
  unfold uri_unreserved.
  rewrite (existsb_eqb_above c 55296) by (reflexivity || exact Hc).
  unfold is_alpha, is_digit.
  destruct (N.leb_spec c 90); [lia |]. destruct (N.leb_spec c 122); [lia |].
  destruct (N.leb_spec c 57); [lia |].
  now rewrite !andb_false_r.
Qed.

Lemma unreserved_not_surrogate (c : N) :
  uri_unreserved c = true -> is_high_surrogate c = false /\ is_low_surrogate c = false.
Proof.
  intros H. destruct (is_low_surrogate c || is_high_surrogate c) eqn:E.
  - apply surrogate_reserved in E. congruence.
  - apply orb_false_iff in E as [-> ->]. split; reflexivity.
Qed.

Lemma replacement_not_surrogate :
  is_high_surrogate 65533 = false /\ is_low_surrogate 65533 = false.
Proof. split; reflexivity. Qed.

Lemma toUSVString_well_formed_aux (n : nat) (s : jsstring) :
  (length s <= n)%nat -> well_formed (toUSVString s) = true.
Proof.
  revert s. induction n as [| n IH]; intros s Hlen.
  - destruct s; [reflexivity | simpl in Hlen; lia].
  - destruct s as [| c s]; [reflexivity |]. simpl in Hlen. cbn [toUSVString].
    destruct (is_high_surrogate c) eqn:Eh.
    + destruct s as [| d s]; [reflexivity |]. simpl in Hlen.
      destruct (is_low_surrogate d) eqn:El.
      * cbn [well_formed]. rewrite Eh, El. apply IH. lia.
      * change (well_formed (65533 :: toUSVString (d :: s)) = true).
        cbn [well_formed]. simpl is_high_surrogate. simpl is_low_surrogate.
        apply IH. simpl. lia.
    + destruct (is_low_surrogate c) eqn:El.
      * cbn [well_formed]. simpl is_high_surrogate. simpl is_low_surrogate.
        apply IH. lia.
      * cbn [well_formed]. rewrite Eh, El. apply IH. lia.
Qed.

(** What [FormData] holds has no surrogate without its partner. *)
Lemma toUSVString_well_formed (s : jsstring) : well_formed (toUSVString s) = true.
Proof. apply (toUSVString_well_formed_aux (length s)). lia. Qed.

Lemma well_formed_app_aux (n : nat) (a b : jsstring) :
  (length a <= n)%nat ->
  well_formed a = true -> well_formed b = true -> well_formed (a ++ b) = true.
Proof.
  revert a. induction n as [| n IH]; intros a Hlen Ha Hb.
  - destruct a; [exact Hb | simpl in Hlen; lia].
  - destruct a as [| c a]; [exact Hb |]. simpl in Hlen. cbn [well_formed] in Ha.
    cbn [app well_formed].
    destruct (is_high_surrogate c).
    + destruct a as [| d a]; [discriminate |]. simpl in Hlen.
      apply andb_true_iff in Ha as [Hd Ha]. cbn [app]. rewrite Hd.
      apply IH; [lia | exact Ha | exact Hb].
    + apply andb_true_iff in Ha as [Hc Ha]. rewrite Hc.
      apply IH; [lia | exact Ha | exact Hb].
Qed.

Lemma well_formed_app (a b : jsstring) :
  well_formed a = true -> well_formed b = true -> well_formed (a ++ b) = true.
Proof. apply (well_formed_app_aux (length a)). lia. Qed.

Lemma high_not_low (c : N) :
  is_high_surrogate c = true -> is_low_surrogate c = false.
Proof.
  unfold is_high_surrogate, is_low_surrogate. intros H.
  apply andb_true_iff in H as [_ H]. apply N.leb_le in H.
  destruct (N.leb_spec 56320 c); [lia | reflexivity].
Qed.

Lemma encodeURIComponent_well_formed_aux (n : nat) (s : jsstring) :
  (length s <= n)%nat -> well_formed s = true ->
  exists e, encodeURIComponent s = Some e.
Proof.
  revert s. induction n as [| n IH]; intros s Hlen Hs.
  - destruct s; [simpl; eauto | simpl in Hlen; lia].
  - destruct s as [| c s]; [simpl; eauto |]. simpl in Hlen.
    cbn [well_formed] in Hs. cbn [encodeURIComponent].
    destruct (uri_unreserved c) eqn:Eu.
    { destruct (unreserved_not_surrogate c Eu) as [Eh El]. rewrite Eh, El in Hs.
      destruct (IH s) as (e & ->); [lia | exact Hs |]. simpl. eauto. }
    destruct (is_high_surrogate c) eqn:Eh.
    + rewrite (high_not_low c Eh).
      destruct s as [| d s]; [discriminate |]. simpl in Hlen.
      apply andb_true_iff in Hs as [Hd Hs]. rewrite Hd.
      destruct (IH s) as (e & ->); [lia | exact Hs |]. simpl. eauto.
    + apply andb_true_iff in Hs as [Hc Hs]. apply negb_true_iff in Hc. rewrite Hc.
      destruct (IH s) as (e & ->); [lia | exact Hs |]. simpl. eauto.
Qed.

(** A text in which every surrogate has its partner is always encoded. *)
Lemma encodeURIComponent_well_formed (s : jsstring) :
  well_formed s = true -> exists e, encodeURIComponent s = Some e.
Proof. apply (encodeURIComponent_well_formed_aux (length s)). lia. Qed.

(** Both strings of the entry are well formed. *)
Lemma define_well_formed (P : jsstring * jsstring -> Prop) (key value : jsstring)
    (obj : object) :
  P (key, value) -> Forall P obj -> Forall P (define key value obj).
Proof.
  intros Hkv H. induction H as [| [k v] obj Hp H IH]; simpl.
  - constructor; [exact Hkv | constructor].
  - destruct (streq k key) eqn:E.
    + apply streq_eq in E. subst k. constructor; assumption.
    + constructor; assumption.
Qed.

Lemma Object_fromEntries_Forall (P : jsstring * jsstring -> Prop)
    (entries : list (jsstring * jsstring)) :
  Forall P entries -> Forall P (Object_fromEntries entries).
Proof.
  unfold Object_fromEntries. intros H.
  assert (G : forall obj, Forall P obj ->
            Forall P (fold_left (fun o e => define (fst e) (snd e) o) entries obj)).
  { induction H as [| [k v] entries Hp H IH]; intros obj Ho; simpl; [exact Ho |].
    apply IH. apply define_well_formed; assumption. }
  apply G. constructor.
Qed.

Lemma insert_by_index_In (n m : N) (entry e : jsstring * jsstring)
    (sorted : list (N * (jsstring * jsstring))) :
  In (m, e) (insert_by_index n entry sorted) -> e = entry \/ In e (map snd sorted).
Proof.
  induction sorted as [| [k x] sorted IH]; simpl.
  - intros [[= _ <-] | []]. now left.
  - destruct (n <? k); simpl.
    + intros [[= _ <-] | [[= _ <-] | H]]; [now left | right; now left |].
      right. right. apply in_map_iff. exists (m, e). split; [reflexivity | exact H].
    + intros [[= _ <-] | H]; [right; now left |].
      destruct (IH H) as [-> | H']; [now left | right; now right].
Qed.

(** [Object.entries] lists properties of the object, and nothing else. *)
Lemma Object_entries_In (obj : object) (e : jsstring * jsstring) :
  In e (Object_entries obj) -> In e obj.
Proof.
  unfold Object_entries. rewrite in_app_iff. intros [H | H].
  - assert (G : forall l sorted,
              In e (map snd
                      (fold_left (fun sorted entry =>
                                    match array_index (fst entry) with
                                    | Some n => insert_by_index n entry sorted
                                    | None => sorted
                                    end) l sorted)) ->
              In e l \/ In e (map snd sorted)).
    { induction l as [| x l IH]; intros sorted Hin; simpl in Hin; [now right |].
      destruct (IH _ Hin) as [Hl | Hs]; [left; now right |].
      destruct (array_index (fst x)) as [n |]; [| now right].
      apply in_map_iff in Hs as ([m e'] & <- & Hs).
      destruct (insert_by_index_In _ _ _ _ _ Hs) as [-> | Hs'];
        [left; now left | now right]. }
    destruct (G obj [] H) as [Ho | []]. exact Ho.
  - apply filter_In in H. tauto.
Qed.

Lemma formEntries_well_formed (form : list (jsstring * jsstring)) :
  Forall (fun e => well_formed (fst e) = true /\ well_formed (snd e) = true)
    (formEntries form).
Proof.
  apply List.Forall_forall. intros e He. unfold formEntries in He.
  apply Object_entries_In in He. revert e He. apply List.Forall_forall.
  apply Object_fromEntries_Forall, List.Forall_forall.
  intros e He. apply in_map_iff in He as (control & <- & _). simpl.
  split; apply toUSVString_well_formed.
Qed.

Lemma getFieldLabel_well_formed (key : jsstring) :
  well_formed key = true -> well_formed (getFieldLabel key) = true.
Proof.
  intros Hk. unfold getFieldLabel.
  assert (Ht : forallb (fun entry => well_formed (snd entry)) (labels ++ inherited)
               = true) by (vm_compute; reflexivity).
  rewrite forallb_forall in Ht.
  destruct (lookup_label labels key) as [label |] eqn:E.
  - destruct (truthy label); [| exact Hk].
    apply lookup_label_in in E. apply in_map_iff in E as (entry & <- & Hin).
    apply Ht, in_or_app. now left.
  - destruct (lookup_label inherited key) as [text |] eqn:E2; [| exact Hk].
    apply lookup_label_in in E2. apply in_map_iff in E2 as (entry & <- & Hin).
    apply Ht, in_or_app. now right.
Qed.

Lemma buildMessage_well_formed (data : list (jsstring * jsstring)) :
  Forall (fun e => well_formed (fst e) = true /\ well_formed (snd e) = true) data ->
  well_formed (buildMessage data) = true.
Proof.
  intros H. rewrite buildMessage_shape.
  apply well_formed_app; [vm_compute; reflexivity |].
  apply well_formed_app; [| vm_compute; reflexivity].
  induction H as [| [key value] data [Hk Hv] _ IH]; simpl; [reflexivity |].
  destruct (kept (key, value)); [| exact IH]. cbn [map concat fst snd].
  apply well_formed_app; [| exact IH].
  unfold line. apply well_formed_app; [reflexivity |].
  apply well_formed_app; [now apply getFieldLabel_well_formed |].
  apply well_formed_app; [reflexivity |].
  apply well_formed_app; [exact Hv | reflexivity].
Qed.


End LoneSurrogate.

(** ** Storage: other keys, removal, and values that do not serialize *)

Section StorageFrame.

Import JS Storage.

Context {V : Type} (JSON : Codec V).

Lemma setItem_other (key key' text : jsstring) (ls ls' : LocalStorage) :
  setItem key text ls = Some ls' -> key' <> key ->
  getItem key' ls' = getItem key' ls.
Proof.
  unfold setItem, getItem. intros H Hne.
  destruct (accessible ls) eqn:Ea; [| discriminate].
  destruct (accepts ls key text); [| discriminate].
  injection H as <-. simpl. f_equal. now apply lookup_insert_ne.
Qed.

Lemma get_ext (key key' : jsstring) (d : V) (ls ls' : LocalStorage) :
  getItem key ls' = getItem key' ls -> get JSON key d ls' = get JSON key' d ls.
Proof. unfold get. now intros ->. Qed.

(** X12.  [Storage.set] touches one key only: whether it succeeds or
    not, what [Storage.get] returns for any other key is unchanged; and
    when it returns false the storage is left exactly as it was. *)
Theorem storage_set_frame (key key' : jsstring) (value d : V)
    (ls ls' : LocalStorage) (ok : bool) :
  set JSON key value ls = (ls', ok) ->
  (key' <> key -> get JSON key' d ls' = get JSON key' d ls)
  /\ (ok = false -> ls' = ls).
Proof.
  unfold set. intros H.
  assert (Hcase : forall text,
             match setItem key text ls with
             | Some ls1 => (ls1, true)
             | None => (ls, false)
             end = (ls', ok) ->
             (key' <> key -> get JSON key' d ls' = get JSON key' d ls)
             /\ (ok = false -> ls' = ls)).
  { intros text Ht. destruct (setItem key text ls) as [ls1 |] eqn:E.
    - injection Ht as <- <-. split; [| discriminate].
      intros Hne. apply get_ext. eapply setItem_other; eassumption.
    - injection Ht as <- <-. auto. }
  destruct (stringify JSON value) as [| | s].
  - injection H as <- <-. auto.
  - now apply (Hcase (js "undefined")).
  - now apply (Hcase s).
Qed.

(** X13.  [Storage.remove] returns true exactly when the storage can be
    accessed; after a successful removal [Storage.get] returns the default
    for that key and what it returned before for every other key; after a
    failed one the storage is as it was. *)
Theorem storage_remove (key : jsstring) (ls : LocalStorage) :
  snd (remove key ls) = accessible ls
  /\ (snd (remove key ls) = false -> fst (remove key ls) = ls)
  /\ (snd (remove key ls) = true ->
      forall d : V,
        get JSON key d (fst (remove key ls)) = d
        /\ forall key', key' <> key ->
             get JSON key' d (fst (remove key ls)) = get JSON key' d ls).
Proof.
  unfold remove, removeItem. destruct (accessible ls) eqn:Ea; simpl.
  - split; [reflexivity |]. split; [discriminate |]. intros _ d. split.
    + unfold get, getItem. simpl. now rewrite lookup_delete_eq.
    + intros key' Hne. apply get_ext. unfold getItem. simpl. rewrite Ea.
      f_equal. now apply lookup_delete_ne.
  - split; [reflexivity |]. split; [reflexivity | discriminate].
Qed.

(** X14.  A value that [JSON.stringify] maps to [undefined] is stored as
    the text ["undefined"]: [Storage.set] reports success, but as that
    text is not JSON, [Storage.get] returns the default, not the value. *)
Theorem storage_undefined_is_lost (key : jsstring) (value d : V)
    (ls ls' : LocalStorage) :
  stringify JSON value = Undefined ->
  parse JSON (js "undefined") = None ->
  set JSON key value ls = (ls', true) ->
  getItem key ls' = Some (Some (js "undefined"))
  /\ get JSON key d ls' = d.
Proof.
  intros Hs Hp H. unfold set in H. rewrite Hs in H.
  destruct (setItem key (js "undefined") ls) as [ls1 |] eqn:E; [| discriminate].
  injection H as <-. pose proof (getItem_setItem _ _ _ _ E) as Hg.
  split; [exact Hg |]. unfold get. rewrite Hg, Hp. reflexivity.
Qed.

End StorageFrame.

Section StorageExamples.

Import JS Storage.

Lemma storage_set_frame_witness :
  let ls := mkLocalStorage ∅ true (fun _ _ => true) in
  let ls1 := fst (set literals (js "theme") (Some true) ls) in
  get literals (js "theme") None (fst (set literals (js "lang") None ls1))
  = get literals (js "theme") None ls1.
Proof.
  cbv zeta.
  apply (storage_set_frame literals (js "lang") (js "theme") None None
           (fst (set literals (js "theme") (Some true)
                   (mkLocalStorage ∅ true (fun _ _ => true))))
           (fst (set literals (js "lang") None
                   (fst (set literals (js "theme") (Some true)
                           (mkLocalStorage ∅ true (fun _ _ => true))))))
           true).
  - reflexivity.
  - vm_compute. discriminate.
Defined.

Lemma storage_remove_witness :
  let ls := fst (set literals (js "theme") (Some true)
                   (mkLocalStorage ∅ true (fun _ _ => true))) in
  get literals (js "theme") None ls = Some true
  /\ get literals (js "theme") None (fst (remove (js "theme") ls)) = None.
Proof.
  cbv zeta. split; [vm_compute; reflexivity |].
  refine (proj1 (proj2 (proj2 (storage_remove literals (js "theme") _)) _ None)).
  reflexivity.
Defined.

Lemma storage_undefined_is_lost_witness :
  let ls := mkLocalStorage ∅ true (fun _ _ => true) in
  snd (set literals_or_undefined (js "theme") None ls) = true
  /\ get literals_or_undefined (js "theme") (Some (Some false))
       (fst (set literals_or_undefined (js "theme") None ls))
     = Some (Some false).
Proof.
  cbv zeta. split; [reflexivity |].
  apply (storage_undefined_is_lost literals_or_undefined (js "theme")
           None (Some (Some false))
           (mkLocalStorage ∅ true (fun _ _ => true))
           (fst (set literals_or_undefined (js "theme") None
                   (mkLocalStorage ∅ true (fun _ _ => true))))).
  - reflexivity.
  - reflexivity.
  - reflexivity.
Defined.

End StorageExamples.

(** ** Testimonials: the classes and the autoplay *)

Section CarouselClasses.

Import Testimonials.
Local Open Scope Z_scope.

Lemma imap_positions (f : nat -> bool) (l l' : list bool) :
  length l = length l' ->
  imap (fun i _ => f i) l = imap (fun i _ => f i) l'.
Proof.
  revert f l'. induction l as [| b l IH]; intros f [| b' l'] H;
    try discriminate; [reflexivity |].
  simpl. f_equal. apply (IH (fun i => f (S i))). simpl in H. lia.
Qed.

Lemma mark_ext (index : Z) (l l' : list bool) :
  length l = length l' -> mark index l = mark index l'.
Proof. apply (imap_positions (fun i => Z.of_nat i =? index)). Qed.

Lemma mark_mark (i j : Z) (l : list bool) : mark i (mark j l) = mark i l.
Proof. apply mark_ext, mark_length. Qed.

Lemma active_count_imap (k : nat) (index : Z) (l : list bool) :
  active_count (imap (fun i _ => Z.of_nat (k + i) =? index) l)
  = if (Z.of_nat k <=? index) && (index <? Z.of_nat (k + length l))
    then 1%nat else 0%nat.
Proof.
  revert k. induction l as [| b l IH]; intros k.
  - unfold active_count. cbn [imap List.filter length].
    destruct (Z.leb_spec (Z.of_nat k) index), (Z.ltb_spec index (Z.of_nat (k + 0)));
      simpl; try reflexivity; lia.
  - assert (E : imap ((fun i (_ : bool) => Z.of_nat (k + i) =? index) ∘ S) l
                = imap (fun i (_ : bool) => Z.of_nat (S k + i) =? index) l).
    { apply imap_ext. intros i x _. unfold compose.
      replace (k + S i)%nat with (S k + i)%nat by lia. reflexivity. }
    cbn [imap]. rewrite E. specialize (IH (S k)).
    unfold active_count in *. cbn [List.filter].
    replace (k + 0)%nat with k by lia.
    destruct (Z.eqb_spec (Z.of_nat k) index) as [He | He];
      cbn [length]; rewrite IH;
      destruct (Z.leb_spec (Z.of_nat (S k)) index),
        (Z.leb_spec (Z.of_nat k) index),
        (Z.ltb_spec index (Z.of_nat (S k + length l))),
        (Z.ltb_spec index (Z.of_nat (k + S (length l))));
      cbn [andb]; try reflexivity; lia.
Qed.

(** With the index in range exactly one element is marked. *)
Lemma active_count_mark (index : Z) (l : list bool) :
  0 <= index < Z.of_nat (length l) -> active_count (mark index l) = 1%nat.
Proof.
  intros H. unfold mark.
  change (active_count (imap (fun i _ => Z.of_nat (0 + i) =? index) l) = 1%nat).
  rewrite (active_count_imap 0 index l).
  change (0 + length l)%nat with (length l).
  destruct (Z.leb_spec (Z.of_nat 0) index), (Z.ltb_spec index (Z.of_nat (length l)));
    cbn [andb]; try reflexivity; lia.
Qed.

Lemma lookup_mark (index : Z) (l : list bool) (i : nat) :
  (i < length l)%nat -> mark index l !! i = Some (Z.of_nat i =? index).
Proof.
  intros H. unfold mark. rewrite list_lookup_imap.
  destruct (lookup_lt_is_Some_2 l i H) as [b ->]. reflexivity.
Qed.

Lemma consistent_updateCarousel (st : State) : consistent (updateCarousel st).
Proof.
  unfold consistent, updateCarousel. simpl. now rewrite !mark_mark.
Qed.

Lemma consistent_handle (e : Event) (st : State) :
  consistent st -> consistent (handle e st).
Proof.
  intros H. destruct e; simpl; try apply consistent_updateCarousel.
  destruct (_ <? _)%nat; [apply consistent_updateCarousel | exact H].
Qed.

Lemma handle_lengths (e : Event) (st : State) :
  length (cards (handle e st)) = length (cards st)
  /\ length (indicators (handle e st)) = length (indicators st).
Proof.
  destruct e; simpl; rewrite ?mark_length; auto.
  destruct (_ <? _)%nat; simpl; rewrite ?mark_length; auto.
Qed.

(** A consistent state is determined by its index and the numbers of
    cards and indicators. *)
Lemma consistent_eq (st st' : State) :
  consistent st -> consistent st' ->
  length (cards st) = length (cards st') ->
  length (indicators st) = length (indicators st') ->
  currentIndex st = currentIndex st' ->
  st = st'.
Proof.
  unfold consistent, updateCarousel. intros H H' Hc Hi Hx.
  rewrite <- H, <- H'. rewrite Hx.
  now rewrite (mark_ext _ _ _ Hc), (mark_ext _ _ _ Hi).
Qed.

End CarouselClasses.

Section CarouselRuns.

Import Testimonials.
Local Open Scope Z_scope.

Lemma handle_in_range (e : Event) (st : State) :
  (length (indicators st) <= length (cards st))%nat ->
  in_range st -> in_range (handle e st).
Proof.
  intros Hle H. destruct e; simpl; auto using prev_in_range, next_in_range.
  destruct (Nat.ltb_spec k (length (indicators st))); [| exact H].
  unfold in_range. rewrite goTo_cards_length. unfold cards_length. simpl. lia.
Qed.

Lemma run_invariants (events : list Event) (st : State) :
  (length (indicators st) <= length (cards st))%nat ->
  in_range st -> consistent st ->
  in_range (run events st) /\ consistent (run events st)
  /\ length (cards (run events st)) = length (cards st)
  /\ length (indicators (run events st)) = length (indicators st).
Proof.
  revert st. induction events as [| e events IH]; intros st Hle Hr Hc; simpl.
  - auto.
  - destruct (handle_lengths e st) as [Hlc Hli].
    destruct (IH (handle e st)) as (H1 & H2 & H3 & H4).
    + lia.
    + now apply handle_in_range.
    + now apply consistent_handle.
    + split; [exact H1 |]. split; [exact H2 |]. split; congruence.
Qed.

(** X15.  On a page with at least one card and no more indicators than
    cards, after any sequence of clicks, swipes and autoplay ticks: the
    index is in range, the card at the index is the only one that carries
    [active], and an indicator carries [active] exactly when it stands at
    the index. *)
Theorem carousel_marks_current (cards0 indicators0 : list bool)
    (events : list Event) :
  cards0 <> [] ->
  (length indicators0 <= length cards0)%nat ->
  let st := run events (init cards0 indicators0) in
  in_range st
  /\ active_count (cards st) = 1%nat
  /\ (forall i, (i < length cards0)%nat ->
        cards st !! i = Some (Z.of_nat i =? currentIndex st))
  /\ (forall i, (i < length indicators0)%nat ->
        indicators st !! i = Some (Z.of_nat i =? currentIndex st)).
Proof.
  intros Hne Hle st.
  assert (Hlen : length (cards (init cards0 indicators0)) = length cards0
                 /\ length (indicators (init cards0 indicators0))
                    = length indicators0).
  { simpl. now rewrite !mark_length. }
  destruct Hlen as [Hlc Hli].
  destruct (run_invariants events (init cards0 indicators0)) as (Hr & Hc & H3 & H4).
  - lia.
  - unfold in_range, cards_length. rewrite Hlc. simpl.
    destruct cards0; [congruence | simpl; lia].
  - apply consistent_updateCarousel.
  - fold st in Hr, Hc, H3, H4. unfold consistent in Hc.
    split; [exact Hr |].
    assert (Ec : cards st = mark (currentIndex st) (cards st))
      by (symmetry; exact (f_equal cards Hc)).
    assert (Ei : indicators st = mark (currentIndex st) (indicators st))
      by (symmetry; exact (f_equal indicators Hc)).
    split; [| split].
    + rewrite Ec. apply active_count_mark. exact Hr.
    + intros i Hi. rewrite Ec. apply lookup_mark. lia.
    + intros i Hi. rewrite Ei. apply lookup_mark. lia.
Qed.

Lemma carousel_marks_current_witness :
  let st := run [ClickNext; Autoplay; ClickIndicator 0; SwipeRight]
              (init [true; false; false] [true; false; false]) in
  in_range st /\ active_count (cards st) = 1%nat.
Proof.
  cbv zeta.
  destruct (carousel_marks_current [true; false; false] [true; false; false]
              [ClickNext; Autoplay; ClickIndicator 0; SwipeRight])
    as (H1 & H2 & _).
  - discriminate.
  - simpl. lia.
  - split; [exact H1 | exact H2].
Defined.

(** X16.  When the classes agree with the index and the index is in
    range, [prev] undoes [next] and [next] undoes [prev] on the whole
    state, classes included, and as many calls of [next] as there are
    cards bring the whole state back. *)
Theorem carousel_state_round_trip (st : State) :
  consistent st -> in_range st ->
  prev (next st) = st
  /\ next (prev st) = st
  /\ Nat.iter (length (cards st)) next st = st.
Proof.
  intros Hc Hr.
  split; [| split].
  - apply consistent_eq; try exact Hc.
    + apply consistent_updateCarousel.
    + unfold prev, next. simpl. now rewrite !mark_length.
    + unfold prev, next. simpl. now rewrite !mark_length.
    + rewrite prev_index, next_cards_length, next_index.
      unfold in_range in Hr.
      destruct (Z.eqb_spec (currentIndex st) (cards_length st - 1)).
      * simpl. lia.
      * destruct (Z.eqb_spec (currentIndex st + 1) 0); lia.
  - apply consistent_eq; try exact Hc.
    + apply consistent_updateCarousel.
    + unfold prev, next. simpl. now rewrite !mark_length.
    + unfold prev, next. simpl. now rewrite !mark_length.
    + rewrite next_index, prev_cards_length, prev_index.
      unfold in_range in Hr.
      destruct (Z.eqb_spec (currentIndex st) 0).
      * rewrite Z.eqb_refl. lia.
      * destruct (Z.eqb_spec (currentIndex st - 1) (cards_length st - 1)); lia.
  - apply consistent_eq; try exact Hc.
    + generalize (length (cards st)) as n. intros n.
      induction n as [| n IH]; simpl; [exact Hc | apply consistent_updateCarousel].
    + generalize (length (cards st)) at 1 as n. intros n.
      induction n as [| n IH]; simpl; [reflexivity |]. now rewrite mark_length.
    + generalize (length (cards st)) at 1 as n. intros n.
      induction n as [| n IH]; simpl; [reflexivity |]. now rewrite mark_length.
    + rewrite iter_next_index by exact Hr. fold (cards_length st).
      replace (currentIndex st + cards_length st)
        with (currentIndex st + 1 * cards_length st) by lia.
      rewrite Z_mod_plus_full. apply Z.mod_small. exact Hr.
Qed.

Lemma carousel_state_round_trip_witness :
  let st := goTo 1 (init [true; false; false] [true; false; false]) in
  prev (next st) = st /\ next (prev st) = st /\ Nat.iter 3 next st = st.
Proof.
  cbv zeta.
  apply (carousel_state_round_trip
           (goTo 1 (init [true; false; false] [true; false; false]))).
  - reflexivity.
  - split; vm_compute; [discriminate | reflexivity].
Defined.

End CarouselRuns.

Section Autoplay.

Import Testimonials.
Local Open Scope nat_scope.

Lemma stopAutoplay_single (p : Player) :
  single_interval p ->
  single_interval (stopAutoplay p)
  /\ armed (stopAutoplay p) = []
  /\ autoplayInterval (stopAutoplay p) = None
  /\ fresh (stopAutoplay p) = fresh p
  /\ carousel (stopAutoplay p) = carousel p.
Proof.
  unfold single_interval, stopAutoplay. intros [Hf H].
  destruct (autoplayInterval p) as [[| id] |] eqn:E.
  - destruct H as [_ H]. lia.
  - destruct H as [-> H]. simpl. rewrite Nat.eqb_refl. simpl. auto.
  - rewrite E. auto.
Qed.

Lemma startAutoplay_single (p : Player) :
  single_interval p ->
  single_interval (startAutoplay p)
  /\ armed (startAutoplay p) = [fresh p]
  /\ carousel (startAutoplay p) = carousel p.
Proof.
  intros H. destruct (stopAutoplay_single p H) as ([Hf _] & Ha & _ & Ef & Ec).
  unfold startAutoplay, single_interval. simpl. rewrite Ha, Ef, Ec.
  repeat split; lia.
Qed.

Lemma play_single (e : PlayerEvent) (p : Player) :
  single_interval p -> single_interval (play e p).
Proof.
  intros H. destruct e as [| | h | e]; simpl.
  - apply stopAutoplay_single. exact H.
  - apply startAutoplay_single. exact H.
  - destruct (existsb _ _); exact H.
  - exact H.
Qed.

(** X17.  Whatever the pointer and the intervals do after [init()], the
    autoplay intervals never stack up: exactly the interval named by
    [autoplayInterval] is running, and none when it is [null].  After the
    pointer enters the container no interval is running, so no tick moves
    the carousel; after it leaves exactly one is running. *)
Theorem autoplay_never_stacks (cards0 indicators0 : list bool)
    (events : list PlayerEvent) :
  let p := run_player events (init_player cards0 indicators0) in
  armed p = match autoplayInterval p with Some h => [h] | None => [] end
  /\ armed (play MouseEnter p) = []
  /\ (forall h, play (Tick h) (play MouseEnter p) = play MouseEnter p)
  /\ length (armed (play MouseLeave p)) = 1
  /\ (forall h, In h (armed (play MouseLeave p)) ->
        carousel (play (Tick h) (play MouseLeave p)) = next (carousel p)).
Proof.
  intros p.
  assert (H : single_interval p).
  { subst p. unfold run_player.
    induction events as [| e events IH] using rev_ind.
    - unfold init_player. apply startAutoplay_single.
      unfold single_interval. simpl. split; [lia | reflexivity].
    - rewrite fold_left_app. simpl. apply play_single. exact IH. }
  destruct (stopAutoplay_single p H) as (_ & Hstop & _).
  destruct (startAutoplay_single p H) as (_ & Hstart & Hcar).
  split; [| split; [| split; [| split]]].
  - destruct H as [_ H]. destruct (autoplayInterval p); [apply H | exact H].
  - exact Hstop.
  - intros h. cbn [play]. rewrite Hstop. reflexivity.
  - cbn [play]. rewrite Hstart. reflexivity.
  - intros h Hh. cbn [play] in *. rewrite Hstart in *.
    destruct Hh as [<- | []]. cbn [existsb]. rewrite Nat.eqb_refl.
    cbn [orb carousel]. rewrite Hcar. reflexivity.
Qed.

End Autoplay.

(** ** Portfolio: the button, the page load, and what a filter matches *)

Section PortfolioButton.

Import JS Portfolio.
Local Open Scope nat_scope.

Lemma button_tracks_rest_update (st : State) :
  button_tracks_rest (updateLoadMoreButton st).
Proof.
  unfold updateLoadMoreButton, button_tracks_rest.
  destruct (loadMoreBtn st) eqn:E; [| now rewrite E].
  destruct (length (getFilteredItems st) <=? currentPage st * itemsPerPage st)
    eqn:El; simpl; unfold getFilteredItems in *; simpl; now rewrite El.
Qed.

Lemma button_tracks_rest_handle (e : Event) (st : State) :
  button_tracks_rest st -> button_tracks_rest (handle e st).
Proof.
  intros H. destruct e as [f | | k]; simpl.
  - unfold handleFilterClick. destruct (streq f (currentFilter st)); [exact H |].
    apply button_tracks_rest_update.
  - apply button_tracks_rest_update.
  - unfold fire. destruct (timers st !! k) as [tm |]; [| exact H].
    destruct (callback tm) as [fl | i]; simpl run_callback.
    + exact H.
    + unfold button_tracks_rest in *. simpl loadMoreBtn.
      destruct (loadMoreBtn st); [| exact I].
      rewrite (getFilteredItems_reveal
                 (with_timers st (delete k (timers st))) i).
      exact H.
Qed.

(** X18.  On a page with a load-more button, after any sequence of filter
    clicks, load-more clicks and timer firings, the button is displayed
    exactly when the filtered items outnumber [currentPage * itemsPerPage];
    on a page without one, none appears. *)
Theorem load_more_button_tracks_rest (its : list Item) (btn : option bool)
    (events : list Event) :
  let st := run events (init its btn) in
  match btn with
  | Some _ =>
      loadMoreBtn st
      = Some (negb (length (getFilteredItems st)
                    <=? currentPage st * itemsPerPage st))
  | None => loadMoreBtn st = None
  end.
Proof.
  intros st.
  assert (H : button_tracks_rest st
              /\ (loadMoreBtn st = None <-> btn = None)).
  { subst st. unfold run. induction events as [| e events [IH1 IH2]] using rev_ind.
    - simpl. split; [apply button_tracks_rest_update |].
      unfold init, updateLoadMoreButton. simpl.
      destruct btn; simpl; [| tauto].
      destruct (_ <=? _); simpl; split; discriminate.
    - rewrite fold_left_app. simpl.
      split; [apply button_tracks_rest_handle; exact IH1 |].
      rewrite <- IH2.
      set (s := fold_left (fun s0 e0 => handle e0 s0) events (init its btn)).
      assert (Hu : forall s0, loadMoreBtn (updateLoadMoreButton s0) = None
                              <-> loadMoreBtn s0 = None).
      { intros s0. unfold updateLoadMoreButton.
        destruct (loadMoreBtn s0) eqn:E0; [| now rewrite E0].
        destruct (_ <=? _); simpl; split; discriminate. }
      destruct e as [f | | k]; simpl.
      + unfold handleFilterClick. destruct (streq f (currentFilter s)); [tauto |].
        rewrite Hu. reflexivity.
      + unfold loadMore. rewrite Hu. reflexivity.
      + unfold fire. destruct (timers s !! k) as [tm |]; [| tauto].
        destruct (callback tm); simpl; tauto. }
  destruct H as [H1 H2]. unfold button_tracks_rest in H1.
  destruct btn.
  - destruct (loadMoreBtn st); [now subst | ].
    destruct H2 as [H2 _]. specialize (H2 eq_refl). discriminate.
  - now apply H2.
Qed.

End PortfolioButton.

(** ** Performance *)

Section TimerQueue.

Import Performance.

Context {Args : Type}.

Lemma clearTimeout_single (h : nat) (ms : Z) (a : Args) :
  clearTimeout (Some h) [mkTimer h ms a] = [].
Proof. simpl. now rewrite Nat.eqb_refl. Qed.

Lemma pending_single (h k : nat) (ms : Z) (a : Args) :
  pending k [mkTimer h ms a]
  = if Nat.eqb h k then Some (mkTimer h ms a) else None.
Proof. reflexivity. Qed.

End TimerQueue.

Section Debounce.

Import Performance Performance.debounce.

Context {Args : Type}.
Variable delay : Z.

Lemma debounce_call_single (a : Args) (st : State Args) :
  single_timer delay st ->
  single_timer delay (call delay a st)
  /\ queue (call delay a st) = [mkTimer (fresh st) delay a]
  /\ timeoutId (call delay a st) = Some (fresh st)
  /\ log (call delay a st) = log st.
Proof.
  intros [Hf [Hq | (h & b & Ht & Hh & Hq)]].
  - assert (E : queue (call delay a st) = [mkTimer (fresh st) delay a]).
    { unfold call. cbn [queue]. rewrite Hq. destruct (timeoutId st); reflexivity. }
    split; [| auto]. split; [unfold call; cbn [fresh]; lia |].
    right. exists (fresh st), a. split; [reflexivity |].
    split; [unfold call; cbn [fresh]; lia | exact E].
  - assert (E : queue (call delay a st) = [mkTimer (fresh st) delay a]).
    { unfold call. cbn [queue]. rewrite Hq, Ht, clearTimeout_single. reflexivity. }
    split; [| auto]. split; [unfold call; cbn [fresh]; lia |].
    right. exists (fresh st), a. split; [reflexivity |].
    split; [unfold call; cbn [fresh]; lia | exact E].
Qed.

Lemma debounce_fire_single (k : nat) (st : State Args) :
  single_timer delay st -> single_timer delay (fire k st).
Proof.
  intros [Hf [Hq | (h & b & Ht & Hh & Hq)]].
  - unfold fire. rewrite Hq. simpl. split; auto.
  - unfold fire. rewrite Hq, pending_single.
    destruct (Nat.eqb_spec h k) as [<- | Hne].
    + rewrite clearTimeout_single. split; [exact Hf | left; reflexivity].
    + split; [exact Hf |]. right. exists h, b. auto.
Qed.

Lemma debounce_run_single (events : list (Event Args)) :
  single_timer delay (run delay events init).
Proof.
  unfold run. induction events as [| e events IH] using rev_ind.
  - simpl. split; [simpl; lia | left; reflexivity].
  - rewrite fold_left_app. simpl. destruct e as [a | k]; simpl.
    + apply debounce_call_single. exact IH.
    + apply debounce_fire_single. exact IH.
Qed.

(** Once the last call's timer is the only one pending, firings run it at
    most once. *)
Lemma debounce_fires (more : list (Event Args)) (st : State Args)
    (h : nat) (a : Args) :
  forallb is_fire more = true ->
  queue st = [mkTimer h delay a] ->
  let st' := run delay more st in
  timeoutId st' = timeoutId st
  /\ ((queue st' = [mkTimer h delay a] /\ log st' = log st)
      \/ (queue st' = [] /\ log st' = log st ++ [a])).
Proof.
  revert st. induction more as [| e more IH]; intros st Hm Hq; simpl.
  - auto.
  - simpl in Hm. apply andb_true_iff in Hm as [He Hm].
    destruct e as [b | k]; [discriminate |]. simpl.
    unfold fire at 1 2 3 4 5. rewrite Hq, pending_single.
    destruct (Nat.eqb_spec h k) as [<- | Hne].
    + rewrite clearTimeout_single. cbn [args].
      set (st1 := {| timeoutId := timeoutId st; queue := []; fresh := fresh st;
                     log := log st ++ [a] |}).
      assert (Hidle : forall l s, forallb (@is_fire Args) l = true ->
                queue s = [] -> run delay l s = s).
      { clear. induction l as [| e l IHl]; intros s Hl Hs; [reflexivity |].
        simpl in Hl. apply andb_true_iff in Hl as [He Hl].
        destruct e as [b | k]; [discriminate |]. simpl.
        unfold fire. rewrite Hs. simpl. apply IHl; assumption. }
      fold (run delay more st1). rewrite (Hidle more st1 Hm eq_refl).
      split; [reflexivity |]. right. split; reflexivity.
    + fold (run delay more st). apply IH; assumption.
Qed.

(** X19.  A debounced function keeps only its latest call.  After a call
    with arguments [a], whatever timers the host runs next, [func] has
    run at most once more, with [a]; the calls that were waiting before
    are dropped, and at most one timer is ever pending: the one armed
    for [a], with timeout [delay]. *)
Theorem debounce_keeps_latest_call (events more : list (Event Args)) (a : Args) :
  forallb is_fire more = true ->
  let before := run delay events init in
  let st := run delay (events ++ Call a :: more) init in
  (log st = log before
   /\ queue st = [mkTimer (fresh before) delay a]
   /\ timeoutId st = Some (fresh before))
  \/ (log st = log before ++ [a] /\ queue st = []).
Proof.
  intros Hm before st.
  pose proof (debounce_run_single events) as Hs. fold before in Hs.
  destruct (debounce_call_single a before Hs) as (_ & Hq & Ht & Hl).
  assert (E : st = run delay more (call delay a before)).
  { unfold st, before, run. rewrite fold_left_app. reflexivity. }
  destruct (debounce_fires more (call delay a before) (fresh before) a Hm Hq)
    as (Ht' & [[Hq' Hl'] | [Hq' Hl']]).
  - left. rewrite E. repeat split; congruence.
  - right. rewrite E. split; congruence.
Qed.

End Debounce.

Section DebounceExamples.

Import Performance Performance.debounce.

Lemma debounce_keeps_latest_call_witness :
  log (run 250 ([Call 1%nat; Call 2%nat] ++ Call 3%nat :: [Fire 2%nat; Fire 3%nat]) init)
  = [3%nat].
Proof.
  destruct (debounce_keeps_latest_call 250 [Call 1%nat; Call 2%nat]
              [Fire 2%nat; Fire 3%nat] 3%nat eq_refl) as [[H _] | [H _]].
  - vm_compute in H. discriminate H.
  - exact H.
Defined.

End DebounceExamples.

Section Throttle.

Import Performance Performance.throttle.

Local Open Scope Z_scope.

Context {Args : Type}.
Variable delay : Z.

Lemma throttle_call_single (t : Z) (a : Args) (st : State Args) :
  single_timer st -> single_timer (call delay t a st).
Proof.
  intros [Hf Hq]. unfold call.
  destruct (delay <? t - lastExecTime st).
  - split; [exact Hf | exact Hq].
  - split; [cbn [fresh]; lia |]. right. cbn [queue timeoutId fresh].
    exists (fresh st), (delay - (t - lastExecTime st)), a.
    split; [reflexivity |]. split; [lia |].
    destruct Hq as [Hq | (h & ms & b & Ht & Hh & Hq)].
    + rewrite Hq. destruct (timeoutId st); reflexivity.
    + rewrite Hq, Ht, clearTimeout_single. reflexivity.
Qed.

Lemma throttle_fire_single (t : Z) (k : nat) (st : State Args) :
  single_timer st -> single_timer (fire t k st).
Proof.
  intros [Hf [Hq | (h & ms & b & Ht & Hh & Hq)]].
  - unfold fire. rewrite Hq. simpl. split; auto.
  - unfold fire. rewrite Hq, pending_single.
    destruct (Nat.eqb_spec h k) as [<- | Hne].
    + rewrite clearTimeout_single. split; [exact Hf | left; reflexivity].
    + split; [exact Hf |]. right. exists h, ms, b. auto.
Qed.

Lemma throttle_run_single (events : list (Event Args)) :
  single_timer (run delay events init).
Proof.
  unfold run. induction events as [| e events IH] using rev_ind.
  - simpl. split; [simpl; lia | left; reflexivity].
  - rewrite fold_left_app. simpl. destruct e as [t a | t k]; simpl.
    + apply throttle_call_single. exact IH.
    + apply throttle_fire_single. exact IH.
Qed.

Lemma throttle_handle_inv (t0 : Z) (e : Event Args) (st : State Args) :
  t0 <= time_of e -> throttle_inv delay t0 st ->
  throttle_inv delay (time_of e) (handle delay e st).
Proof.
  intros Ht (Hs & Hl & Hb). destruct e as [t a | t k]; simpl in *.
  - split; [now apply throttle_call_single |].
    unfold call. destruct (Z.ltb_spec delay (t - lastExecTime st)) as [Hd | Hd];
      cbn [lastExecTime queue].
    + split; [lia | exact Hb].
    + split; [lia |].
      destruct Hs as [_ [Hq | (h & ms & b & Hid & _ & Hq)]].
      * rewrite Hq. destruct (timeoutId st); simpl;
          repeat constructor; simpl; lia.
      * rewrite Hq, Hid, clearTimeout_single. simpl.
        repeat constructor; simpl; lia.
  - split; [now apply throttle_fire_single |].
    unfold fire. destruct (pending k (queue st)) as [tm |] eqn:E;
      cbn [lastExecTime queue].
    + split; [lia |].
      destruct Hs as [_ [Hq | (h & ms & b & Hid & _ & Hq)]].
      * rewrite Hq. constructor.
      * rewrite Hq in *. rewrite pending_single in E.
        destruct (Nat.eqb_spec h k) as [<- | Hne]; [| discriminate].
        rewrite clearTimeout_single. constructor.
    + split; [lia | exact Hb].
Qed.

Lemma throttle_run_inv (events : list (Event Args)) (t0 : Z) (st : State Args) :
  clock_from t0 events -> throttle_inv delay t0 st ->
  exists t, throttle_inv delay t (run delay events st).
Proof.
  revert t0 st. induction events as [| e events IH]; intros t0 st Hc Hi.
  - exists t0. exact Hi.
  - destruct Hc as [Ht Hc]. simpl.
    apply (IH (time_of e)); [exact Hc |].
    now apply throttle_handle_inv with (t0 := t0).
Qed.

(** X20.  A throttled function never has more than one timer pending,
    and while the clock does not run backwards the timeout it asks for
    lies between zero and [delay]. *)
Theorem throttle_arms_one_bounded_timer (events : list (Event Args)) :
  clock_from 0 events ->
  let st := run delay events init in
  queue st = []
  \/ exists h ms a,
       queue st = [mkTimer h ms a] /\ timeoutId st = Some h
       /\ 0 <= ms <= delay.
Proof.
  intros Hc st.
  destruct (throttle_run_inv events 0 init Hc) as (t & Hs & _ & Hb).
  { split; [| split].
    - split; [simpl; lia | left; reflexivity].
    - simpl. lia.
    - constructor. }
  fold st in Hs, Hb.
  destruct Hs as [_ [Hq | (h & ms & a & Hid & _ & Hq)]]; [left; exact Hq |].
  right. exists h, ms, a. split; [exact Hq |]. split; [exact Hid |].
  rewrite Hq in Hb. inversion Hb as [| ? ? Hms _]. exact Hms.
Qed.

(** X21.  A deferred call is not cancelled by a later call that runs at
    once.  When a call with [a] arrives within [delay] of the last run
    and a call with [b] arrives after it, [func] runs with [b] at once
    and the timer armed for [a] stays: when it fires, [func] runs again
    with the older arguments, however soon after the run with [b]. *)
Theorem throttle_deferred_call_runs_after_newer
    (events : list (Event Args)) (t1 t2 t3 : Z) (a b : Args) :
  let st := run delay events init in
  t1 - lastExecTime st <= delay ->
  delay < t2 - lastExecTime st ->
  let st' := run delay [Call t1 a; Call t2 b; Fire t3 (fresh st)] st in
  log st' = log st ++ [b; a]
  /\ lastExecTime st' = t3
  /\ queue st' = [].
Proof.
  intros st H1 H2 st'.
  pose proof (throttle_run_single events) as [_ Hq]. fold st in Hq.
  assert (Eq : queue (call delay t1 a st)
               = [mkTimer (fresh st) (delay - (t1 - lastExecTime st)) a]
               /\ lastExecTime (call delay t1 a st) = lastExecTime st
               /\ log (call delay t1 a st) = log st).
  { unfold call. destruct (Z.ltb_spec delay (t1 - lastExecTime st)); [lia |].
    cbn [queue lastExecTime log]. split; [| split; reflexivity].
    destruct Hq as [Hq | (h & ms & c & Hid & _ & Hq)].
    - rewrite Hq. destruct (timeoutId st); reflexivity.
    - rewrite Hq, Hid, clearTimeout_single. reflexivity. }
  destruct Eq as (Eq & El & Elog).
  set (s1 := call delay t1 a st) in *.
  assert (E2 : queue (call delay t2 b s1) = queue s1
               /\ log (call delay t2 b s1) = log s1 ++ [b]).
  { unfold call. rewrite El.
    destruct (Z.ltb_spec delay (t2 - lastExecTime st)); [| lia].
    split; reflexivity. }
  destruct E2 as (E2q & E2l).
  set (s2 := call delay t2 b s1) in *.
  change st' with (fire t3 (fresh st) s2).
  unfold fire. rewrite E2q, Eq, pending_single, Nat.eqb_refl.
  cbn [log lastExecTime queue args].
  rewrite clearTimeout_single, E2l, Elog, <- app_assoc.
  repeat split; reflexivity.
Qed.

End Throttle.

Section ThrottleExamples.

Import Performance Performance.throttle.
Local Open Scope Z_scope.

Lemma throttle_arms_one_bounded_timer_witness :
  let st := run 16 [Call 1000 tt; Call 1010 tt] init in
  queue st = []
  \/ exists h ms a,
       queue st = [mkTimer h ms a] /\ timeoutId st = Some h
       /\ 0 <= ms <= 16.
Proof.
  apply (throttle_arms_one_bounded_timer 16 [Call 1000 tt; Call 1010 tt]).
  simpl. lia.
Defined.

Lemma throttle_deferred_call_runs_after_newer_witness :
  log (run 16 [Call 1000 1%nat; Call 1010 2%nat; Call 1020 3%nat; Fire 1020 1%nat]
         init)
  = [1%nat; 3%nat; 2%nat].
Proof.
  destruct (throttle_deferred_call_runs_after_newer 16 [Call 1000 1%nat]
              1010 1020 1020 2%nat 3%nat) as (H & _).
  - simpl. lia.
  - simpl. lia.
  - exact H.
Defined.

End ThrottleExamples.

(** ** Navigation *)

Section MobileMenu.

Import JS Navigation.

Lemma set_attributes_present (expanded hidden : jsstring) (isOpen : bool)
    (st : State) (t : Toggle) (m : Menu) :
  navToggle st = Some t -> mobileMenu st = Some m ->
  set_attributes expanded hidden isOpen st
  = {| header := header st;
       navToggle := Some {| toggle_active := toggle_active t;
                            aria_expanded := Some expanded |};
       mobileMenu := Some {| menu_active := menu_active m;
                             aria_hidden := Some hidden |};
       no_scroll := no_scroll st; isMenuOpen := isOpen;
       scrolledTo := scrolledTo st; errors := errors st |}.
Proof.
  intros Ht Hm. unfold set_attributes. rewrite Ht. simpl. rewrite Hm. reflexivity.
Qed.

(** With both elements on the page the two methods set everything. *)
Lemma switch_present (on : bool) (expanded hidden : jsstring) (st : State)
    (t : Toggle) (m : Menu) :
  navToggle st = Some t -> mobileMenu st = Some m ->
  set_attributes expanded hidden on (set_classes on st)
  = {| header := header st;
       navToggle := Some {| toggle_active := on; aria_expanded := Some expanded |};
       mobileMenu := Some {| menu_active := on; aria_hidden := Some hidden |};
       no_scroll := on; isMenuOpen := on;
       scrolledTo := scrolledTo st; errors := errors st |}.
Proof.
  intros Ht Hm.
  rewrite (set_attributes_present expanded hidden on (set_classes on st)
             {| toggle_active := on; aria_expanded := aria_expanded t |}
             {| menu_active := on; aria_hidden := aria_hidden m |}).
  - reflexivity.
  - unfold set_classes. simpl. rewrite Ht. reflexivity.
  - unfold set_classes. simpl. rewrite Hm. reflexivity.
Qed.

Lemma shows_present (on : bool) (st : State) :
  shows on st -> exists t m, navToggle st = Some t /\ mobileMenu st = Some m.
Proof. intros (_ & (t & Ht & _) & (m & Hm & _)). eauto. Qed.

Lemma closeMobileMenu_open (st : State) :
  menu_inv st -> isMenuOpen st = true ->
  menu_inv (closeMobileMenu st)
  /\ isMenuOpen (closeMobileMenu st) = false
  /\ shows false (closeMobileMenu st).
Proof.
  intros [He Hs] Ho. destruct (shows_present true st (Hs Ho)) as (t & m & Ht & Hm).
  unfold closeMobileMenu. rewrite (switch_present false _ _ st t m Ht Hm).
  split; [split; [exact He | discriminate] |]. split; [reflexivity |].
  split; [reflexivity |]. split; eexists; repeat split; reflexivity.
Qed.

Lemma openMobileMenu_present (st : State) (t : Toggle) (m : Menu) :
  navToggle st = Some t -> mobileMenu st = Some m ->
  ~ In TypeError (errors st) ->
  menu_inv (openMobileMenu st) /\ isMenuOpen (openMobileMenu st) = true.
Proof.
  intros Ht Hm He. unfold openMobileMenu.
  rewrite (switch_present true _ _ st t m Ht Hm).
  split; [| reflexivity]. split; [exact He |]. intros _.
  split; [reflexivity |]. split; eexists; repeat split; reflexivity.
Qed.

Lemma close_if_open (st st1 : State) :
  menu_inv st1 ->
  menu_inv (if isMenuOpen st1 then closeMobileMenu st1 else st1).
Proof.
  intros H. destruct (isMenuOpen st1) eqn:Ho; [| exact H].
  now apply closeMobileMenu_open.
Qed.

Lemma listen_inv (l : Listener) (st : State) : menu_inv st -> menu_inv (listen l st).
Proof.
  intros H. destruct l as [| href document]; simpl.
  - destruct (navToggle st) as [t |] eqn:Ht; [| exact H].
    destruct (mobileMenu st) as [m |] eqn:Hm; [| exact H].
    unfold toggleMobileMenu. destruct (isMenuOpen st) eqn:Ho.
    + now apply closeMobileMenu_open.
    + apply (openMobileMenu_present st t m Ht Hm). apply H.
  - unfold handleNavClick. destruct href as [[| c targetId] |]; try exact H.
    destruct (c =? chr "#")%N; [| exact H].
    destruct (query targetId document) as [top | |]; [| exact H |].
    + apply (close_if_open st). exact H.
    + destruct H as [He Hs]. split; [| exact Hs].
      simpl. rewrite in_app_iff. intros [Hin | [Hin | []]];
        [exact (He Hin) | discriminate Hin].
Qed.

Lemma handle_inv (e : Event) (st : State) : menu_inv st -> menu_inv (handle e st).
Proof.
  intros H. destruct e as [path inMenu inToggle | isMobile |]; simpl.
  - assert (Hp : menu_inv (fold_left (fun s l => listen l s) path st)).
    { revert st H. induction path as [| l path IH]; intros st H; simpl;
        [exact H | apply IH, listen_inv, H]. }
    set (st1 := fold_left _ path st) in *.
    unfold handleDocumentClick. destruct (isMenuOpen st1) eqn:Ho; [| exact Hp].
    destruct (shows_present true st1 (proj2 Hp Ho)) as (t & m & Ht & Hm).
    rewrite Hm, Ht. destruct inMenu; [exact Hp |]. destruct inToggle; [exact Hp |].
    now apply closeMobileMenu_open.
  - destruct isMobile; simpl; [exact H |]. apply (close_if_open st). exact H.
  - apply (close_if_open st). exact H.
Qed.

(** X22.  Whatever the page holds and whatever the user does, opening
    and closing the menu never raises a [TypeError]: the menu is only
    ever open on a page that has both the toggle and the menu, and
    while it is open every class and attribute says so. *)
Theorem menu_never_dereferences_missing_element
    (header0 : option Z) (toggle : option Toggle) (menu : option Menu)
    (body_no_scroll : bool) (events : list Event) :
  let st := run events (init header0 toggle menu body_no_scroll) in
  ~ In TypeError (errors st)
  /\ (isMenuOpen st = true -> shows true st).
Proof.
  unfold run. induction events as [| e events IH] using rev_ind.
  - simpl. split; [tauto | discriminate].
  - rewrite fold_left_app. simpl. apply handle_inv. exact IH.
Qed.

(** The state agrees with the flag on every class and attribute. *)
Lemma shows_flag_listen (l : Listener) (st : State) :
  shows (isMenuOpen st) st -> shows (isMenuOpen (listen l st)) (listen l st).
Proof.
  intros H. destruct (shows_present _ st H) as (t & m & Ht & Hm).
  assert (Hclose : shows (isMenuOpen (closeMobileMenu st)) (closeMobileMenu st)).
  { unfold closeMobileMenu. rewrite (switch_present false _ _ st t m Ht Hm).
    split; [reflexivity |]. split; eexists; repeat split; reflexivity. }
  destruct l as [| href document]; simpl.
  - rewrite Ht, Hm. unfold toggleMobileMenu. destruct (isMenuOpen st) eqn:Ho.
    + exact Hclose.
    + unfold openMobileMenu. rewrite (switch_present true _ _ st t m Ht Hm).
      split; [reflexivity |]. split; eexists; repeat split; reflexivity.
  - unfold handleNavClick. destruct href as [[| c targetId] |]; try exact H.
    destruct (c =? chr "#")%N; [| exact H].
    destruct (query targetId document) as [top | |]; [| exact H | exact H].
    unfold scrollToElement.
    change (isMenuOpen (with_scroll st (top - match header st with
                                             | Some h => h | None => 0 end - 20)%Z))
      with (isMenuOpen st).
    destruct (isMenuOpen st) eqn:Ho.
    + unfold closeMobileMenu.
      rewrite (switch_present false _ _ (with_scroll st _) t m Ht Hm).
      split; [reflexivity |]. split; eexists; repeat split; reflexivity.
    + simpl. rewrite Ho. exact H.
Qed.

Lemma shows_flag_handle (e : Event) (st : State) :
  shows (isMenuOpen st) st -> shows (isMenuOpen (handle e st)) (handle e st).
Proof.
  assert (Hclose : forall s, shows (isMenuOpen s) s ->
            shows (isMenuOpen (closeMobileMenu s)) (closeMobileMenu s)).
  { intros s Hs. destruct (shows_present _ s Hs) as (t & m & Ht & Hm).
    unfold closeMobileMenu. rewrite (switch_present false _ _ s t m Ht Hm).
    split; [reflexivity |]. split; eexists; repeat split; reflexivity. }
  intros H. destruct e as [path inMenu inToggle | isMobile |]; simpl.
  - assert (Hp : let s := fold_left (fun s l => listen l s) path st in
                 shows (isMenuOpen s) s).
    { revert st H. induction path as [| l path IH]; intros st H; simpl;
        [exact H | apply IH, shows_flag_listen, H]. }
    cbv zeta in Hp. set (st1 := fold_left _ path st) in *.
    destruct (shows_present _ st1 Hp) as (t & m & Ht & Hm).
    unfold handleDocumentClick. rewrite Hm, Ht.
    destruct (isMenuOpen st1) eqn:Ho; [| rewrite Ho; exact Hp].
    destruct inMenu; [rewrite Ho; exact Hp |].
    destruct inToggle; [rewrite Ho; exact Hp |].
    apply Hclose. rewrite Ho. exact Hp.
  - destruct (negb isMobile && isMenuOpen st) eqn:E; [apply Hclose |]; exact H.
  - destruct (isMenuOpen st) eqn:E; [apply Hclose |]; rewrite E; exact H.
Qed.

(** X23.  On a page whose markup shows the menu closed, every class and
    attribute of the menu follows [isMenuOpen] through any run, and two
    clicks on the toggle that reach no other listener and lie inside it
    bring the whole state back. *)
Theorem menu_markup_follows_flag
    (header0 : option Z) (toggle : option Toggle) (menu : option Menu)
    (events : list Event) :
  shows false (init header0 toggle menu false) ->
  let st := run events (init header0 toggle menu false) in
  shows (isMenuOpen st) st
  /\ run [Click [OnToggle] false true; Click [OnToggle] false true] st = st.
Proof.
  intros H0 st.
  assert (H : shows (isMenuOpen st) st).
  { unfold st, run. induction events as [| e events IH] using rev_ind.
    - exact H0.
    - rewrite fold_left_app. simpl. apply shows_flag_handle. exact IH. }
  split; [exact H |].
  destruct H as (Hb & (t & Ht & Hta & Hte) & (m & Hm & Hma & Hme)).
  destruct st as [hd tg mn ns op sc er]. simpl in *. subst tg mn.
  destruct t as [ta te], m as [ma me]. simpl in *. subst.
  destruct op; reflexivity.
Qed.

End MobileMenu.

Section MobileMenuExamples.

Import JS Navigation.

Lemma menu_markup_follows_flag_witness :
  let page := init (Some 80%Z)
                (Some {| toggle_active := false; aria_expanded := Some (js "false") |})
                (Some {| menu_active := false; aria_hidden := Some (js "true") |})
                false in
  let st := run [Click [OnToggle] false true; Resize true] page in
  isMenuOpen st = true /\ shows true st.
Proof.
  cbv zeta.
  destruct (menu_markup_follows_flag (Some 80%Z)
              (Some {| toggle_active := false; aria_expanded := Some (js "false") |})
              (Some {| menu_active := false; aria_hidden := Some (js "true") |})
              [Click [OnToggle] false true; Resize true]) as [H _].
  - split; [reflexivity |]. split; eexists; repeat split; reflexivity.
  - split; [reflexivity | exact H].
Defined.

End MobileMenuExamples.

Section ActiveLink.

Import JS Navigation.

Lemma activeSection_app (scrollPosition : Q) (pre post : list PageSection) :
  activeSection scrollPosition (pre ++ post)
  = fold_left (fun active section =>
                 if around scrollPosition section then id section else active)
      post (activeSection scrollPosition pre).
Proof. unfold activeSection. apply fold_left_app. Qed.

Lemma fold_away (scrollPosition : Q) (post : list PageSection) (active : jsstring) :
  forallb (fun section => negb (around scrollPosition section)) post = true ->
  fold_left (fun active section =>
               if around scrollPosition section then id section else active)
    post active = active.
Proof.
  revert active. induction post as [| s post IH]; intros active H; simpl.
  - reflexivity.
  - simpl in H. apply andb_true_iff in H as [Hs H].
    destruct (around scrollPosition s); [discriminate |]. apply IH, H.
Qed.

(** X24.  The active section is the last one, in document order, whose
    extent holds the scroll position, and exactly the links whose
    [href] is [#] followed by its [id] are marked.  *)
Theorem active_link_is_last_section_around
    (scrollPosition : Q) (pre post : list PageSection) (section : PageSection)
    (navLinks : list Link) :
  around scrollPosition section = true ->
  forallb (fun s => negb (around scrollPosition s)) post = true ->
  let links := updateActiveLink scrollPosition (pre ++ section :: post) navLinks in
  activeSection scrollPosition (pre ++ section :: post) = id section
  /\ length links = length navLinks
  /\ forall i link, nth_error navLinks i = Some link ->
       exists link',
         nth_error links i = Some link'
         /\ href link' = href link
         /\ (link_active link' = true <->
             href link = Some (chr "#" :: id section))
         /\ aria_current link'
            = if link_active link' then Some (js "page") else None.
Proof.
  intros Hs Hpost links.
  assert (E : activeSection scrollPosition (pre ++ section :: post) = id section).
  { rewrite activeSection_app. simpl. rewrite Hs. apply fold_away, Hpost. }
  split; [exact E |]. split; [apply length_map |].
  intros i link Hi. unfold links, updateActiveLink. rewrite E.
  rewrite nth_error_map, Hi. simpl. eexists. split; [reflexivity |].
  unfold mark_link. destruct (href link) as [h |] eqn:Hh.
  - destruct (streq h (chr "#" :: id section)) eqn:Eh; simpl.
    + apply streq_eq in Eh. subst h. repeat split; auto.
    + apply streq_neq in Eh. repeat split; auto; try discriminate.
      intros [= ->]. contradiction.
  - simpl. repeat split; auto; discriminate.
Qed.

(** X25.  When no section holds the scroll position the active section
    is the empty string, so exactly the links whose [href] is the bare
    [#] are marked. *)
Theorem bare_hash_link_is_active_off_sections
    (scrollPosition : Q) (sections : list PageSection) (navLinks : list Link) :
  forallb (fun s => negb (around scrollPosition s)) sections = true ->
  activeSection scrollPosition sections = []
  /\ updateActiveLink scrollPosition sections navLinks
     = map (mark_link []) navLinks
  /\ forall link,
       link_active (mark_link [] link) = true <-> href link = Some (js "#").
Proof.
  intros H.
  assert (E : activeSection scrollPosition sections = []).
  { unfold activeSection. apply fold_away, H. }
  split; [exact E |]. split; [unfold updateActiveLink; now rewrite E |].
  intros link. unfold mark_link. destruct (href link) as [h |].
  - destruct (streq h [chr "#"]) eqn:Eh; simpl.
    + apply streq_eq in Eh. subst h. split; auto.
    + apply streq_neq in Eh. split; [discriminate |]. intros [= ->]. contradiction.
  - simpl. split; discriminate.
Qed.

End ActiveLink.

Section ActiveLinkExamples.

Import JS Navigation.

Lemma active_link_is_last_section_around_witness :
  activeSection 500
    ([ {| id := js "hero"; offsetTop := 0; offsetHeight := 600 |} ]
     ++ {| id := js "about"; offsetTop := 400; offsetHeight := 300 |}
     :: [ {| id := js "contact"; offsetTop := 700; offsetHeight := 300 |} ])
  = js "about".
Proof.
  apply (active_link_is_last_section_around 500
           [ {| id := js "hero"; offsetTop := 0; offsetHeight := 600 |} ]
           [ {| id := js "contact"; offsetTop := 700; offsetHeight := 300 |} ]
           {| id := js "about"; offsetTop := 400; offsetHeight := 300 |} []).
  - reflexivity.
  - reflexivity.
Defined.

Lemma bare_hash_link_is_active_off_sections_witness :
  activeSection 50 [ {| id := js "hero"; offsetTop := 100; offsetHeight := 600 |} ]
  = [].
Proof.
  apply (bare_hash_link_is_active_off_sections 50
           [ {| id := js "hero"; offsetTop := 100; offsetHeight := 600 |} ] []).
  reflexivity.
Defined.

End ActiveLinkExamples.
